(** * Smart crop and resize (main.py): a shallow embedding and its properties

    The program picks, for a source image and a target size, the crop window of
    the target aspect ratio with the highest entropy score, and resamples it.

    Modelling choices.
    - Python [int] is [Z].
    - Python [float] (IEEE-754 binary64) is the rational number it denotes, a
      [Q]; every arithmetic operation rounds its exact result to 53 bits of
      precision, to nearest, ties to even ([fl]).  Exponents are unbounded: the
      model agrees with binary64 as long as no result overflows or is
      subnormal, which holds for quotients and products of image dimensions.
    - The scorer's transcendental part ([log2], [sqrt]) is taken over the real
      numbers [R]: histogram counts and densities are computed exactly, and the
      rounding of the entropy sum is abstracted.  NaN is kept as a value of
      the score type since the search compares against it.
    - Pillow's [convert], [crop] and [resize] are constructors of a term
      [PilImage]: the embedding records which library calls are made, with
      which arguments. *)

From Stdlib Require Import String Ascii.
From Stdlib Require Import ZArith QArith Qround Qabs Qpower Qreduction.
From Stdlib Require Import Reals Qreals Lra Lqa Lia.
From Stdlib Require Import List Bool Sorted.
From Stdlib Require Import Permutation.
From Stdlib Require Floats Uint63.
From Stdlib Require DecimalString DecimalZ.
Import ListNotations.

Local Open Scope Z_scope.

(** ** Exceptions raised by the code itself or by numpy's argument checks *)

Inductive exn : Type :=
| ZeroDivisionError
| ValueError.

Inductive result (A : Type) : Type :=
| Ok (a : A)
| Raise (e : exn).

Arguments Ok {A} a.
Arguments Raise {A} e.

Definition bind {A B : Type} (m : result A) (k : A -> result B) : result B :=
  match m with
  | Ok a => k a
  | Raise e => Raise e
  end.

Notation "x <- m ;; k" := (bind m (fun x => k))
  (at level 61, m at next level, right associativity).

(** ** Binary64 arithmetic *)

Module B64.

Local Open Scope Q_scope.

(** [pow2 k] is 2^k, for any integer k. *)
Definition pow2 (k : Z) : Q := Qpower 2 k.

(** [ilog2 x] is the exponent of the binade of a positive [x]:
    2^(ilog2 x) <= x < 2^(ilog2 x + 1). *)
Definition ilog2 (x : Q) : Z :=
  let k := (Z.log2 (Qnum x) - Z.log2 (Zpos (Qden x)))%Z in
  if Qle_bool (pow2 k) x then k else (k - 1)%Z.

(** Round to the nearest integer, ties to even. *)
Definition rne (y : Q) : Z :=
  let f := Qfloor y in
  match Qcompare (y - inject_Z f) (1 # 2) with
  | Lt => f
  | Gt => (f + 1)%Z
  | Eq => if Z.even f then f else (f + 1)%Z
  end.

(** Rounding of a positive rational to a 53-bit significand. *)
Definition round_pos (x : Q) : Q :=
  let s := (ilog2 x - 52)%Z in
  inject_Z (rne (x / pow2 s)) * pow2 s.

(** [fl x]: the binary64 number nearest to [x] (ties to even), in lowest
    terms. *)
Definition fl (x : Q) : Q :=
  Qred (match Qcompare x 0 with
        | Eq => 0
        | Gt => round_pos x
        | Lt => - round_pos (- x)
        end).

(** The unit roundoff, 2^-53. *)
Definition u : Q := pow2 (-53).

(** A value a binary64 number can hold: a significand below 2^53 times a
    power of two. *)
Definition representable (x : Q) : Prop :=
  exists m e : Z, (Z.abs m < 2 ^ 53)%Z /\ x == inject_Z m * pow2 e.

(** [float(n)] for a Python int. *)
Definition float_of_int (n : Z) : Q := fl (inject_Z n).

(** [a / b] on two Python ints: the correctly rounded quotient. *)
Definition int_truediv (a b : Z) : result Q :=
  if (b =? 0)%Z then Raise ZeroDivisionError
  else Ok (fl (inject_Z a / inject_Z b)).

(** [x * y] on floats. *)
Definition float_mul (x y : Q) : Q := fl (x * y).

(** [x + y] and [x - y] on floats. *)
Definition float_add (x y : Q) : Q := fl (x + y).

Definition float_sub (x y : Q) : Q := fl (x - y).

(** [x / y] on Python floats. *)
Definition float_div (x y : Q) : result Q :=
  if Qeq_bool y 0 then Raise ZeroDivisionError else Ok (fl (x / y)).

(** [x / y] on numpy float64 scalars with a nonzero divisor. *)
Definition np_div (x y : Q) : Q := fl (x / y).

(** [int(x)]: truncation towards zero. *)
Definition int_of_float (x : Q) : Z := Z.quot (Qnum x) (Zpos (Qden x)).

(** [x > y] on floats. *)
Definition float_gt (x y : Q) : bool := negb (Qle_bool x y).

(** *** The kernel's binary64 numbers, to test the model against *)

(** The rational a finite binary64 number denotes, in lowest terms. *)
Definition of_spec_float (f : SpecFloat.spec_float) : option Q :=
  match f with
  | SpecFloat.S754_zero _ => Some 0
  | SpecFloat.S754_finite s m e =>
      Some (Qred ((if s then - (1) else 1) * inject_Z (Zpos m) * pow2 e))
  | _ => None
  end.

Definition prim_of_int (n : Z) : PrimFloat.float :=
  PrimFloat.of_uint63 (Uint63.of_Z n).

(** The primitive float [x] denotes exactly [q]. *)
Definition same_number (x : PrimFloat.float) (q : Q) : bool :=
  match of_spec_float (FloatOps.Prim2SF x) with
  | Some p => Qeq_bool p q
  | None => false
  end.

Definition grid (n : nat) : list Z := map Z.of_nat (seq 1 n).

(** [a / b], [c * (a / b)] and [c / (a / b)] computed by the kernel's
    floats and by the model, over a grid of small integers. *)
Definition quotients_agree (n : nat) : bool :=
  forallb (fun a => forallb (fun b =>
    same_number (PrimFloat.div (prim_of_int a) (prim_of_int b))
                (fl (inject_Z a / inject_Z b)))
    (grid n)) (grid n).

Definition products_agree (k n : nat) : bool :=
  forallb (fun c => forallb (fun a => forallb (fun b =>
    same_number
      (PrimFloat.mul (prim_of_int c)
         (PrimFloat.div (prim_of_int a) (prim_of_int b)))
      (float_mul (float_of_int c) (fl (inject_Z a / inject_Z b)))
    && same_number
      (PrimFloat.div (prim_of_int c)
         (PrimFloat.div (prim_of_int a) (prim_of_int b)))
      (fl (float_of_int c / fl (inject_Z a / inject_Z b))))
    (grid n)) (grid n)) (grid k).

End B64.


(** ** numpy *)

Module Np.
Import B64.

(** [np.arange(0, num)] as float64. *)
Definition arange (num : Z) : list Q :=
  map (fun i => float_of_int (Z.of_nat i)) (seq 0 (Z.to_nat num)).

(** [y[-1] = v]: overwrite the last element. *)
Fixpoint set_last (y : list Q) (v : Q) : list Q :=
  match y with
  | [] => []
  | [_] => [v]
  | a :: rest => a :: set_last rest v
  end.

(** One sample of [linspace] before the offset is added: [v * step] with
    [step = delta / div]; when the step underflows to zero numpy divides
    first ([v / div * delta]), and with [div = 0] (a single sample) it
    multiplies by [delta] alone. *)
Definition scale (delta : Q) (div : Z) (v : Q) : Q :=
  if 0 <? div then
    let step := np_div delta (float_of_int div) in
    if Qeq_bool step 0 then float_mul (np_div v (float_of_int div)) delta
    else float_mul v step
  else float_mul v delta.

(** [np.linspace(0, stop, num=num, dtype=int)], following numpy's
    [function_base.linspace] with [start = 0], [endpoint = True]: the samples
    are computed in float64 from [arange(num)], [start] is added, the last
    sample is overwritten by [stop], and the integer dtype floors each
    sample.  A negative [num] is refused with ValueError. *)
Definition linspace (stop num : Z) : result (list Z) :=
  if num <? 0 then Raise ValueError
  else
    let div := num - 1 in
    let start_f := float_of_int 0 in
    let stop_f := float_of_int stop in
    let delta := float_sub stop_f start_f in
    let y := map (scale delta div) (arange num) in
    let y := map (fun v => float_add v start_f) y in
    let y := if 1 <? num then set_last y stop_f else y in
    Ok (map Qfloor y).

(** Python slicing [l[start:stop]] (step 1): negative indices count from the
    end, and both ends are clamped to the sequence. *)
Definition py_slice {A : Type} (l : list A) (start stop : Z) : list A :=
  let n := Z.of_nat (length l) in
  let norm := fun i => if i <? 0 then Z.max 0 (i + n) else Z.min i n in
  let a := norm start in
  let b := norm stop in
  firstn (Z.to_nat (b - a)) (skipn (Z.to_nat a) l).

End Np.

(** ** Images *)

(** A decoded image: its size and the luminance array
    [np.array(image.convert("RGB").convert("L"))], [height] rows of [width]
    values in 0..255. *)
Record Image : Type := mkImage {
  width : Z;
  height : Z;
  luma : list (list Z)
}.

Definition wf_image (im : Image) : Prop :=
  0 <= width im /\ 0 <= height im /\
  Z.of_nat (length (luma im)) = height im /\
  Forall (fun row => Z.of_nat (length row) = width im /\
                     Forall (fun v => 0 <= v <= 255) row) (luma im).

Inductive resampling : Type :=
| LANCZOS.

(** The Pillow calls that build the result. *)
Inductive PilImage : Type :=
| ConvertRGB (im : Image)
| Crop (p : PilImage) (box : Z * Z * Z * Z)
| Resize (p : PilImage) (size : Z * Z) (filter : resampling).

(** ** The scorer *)

Module Scorer.

Local Open Scope Q_scope.

(** A score: a Python float, with the two special values the search meets. *)
Inductive score : Type :=
| NaN
| NegInf
| Fin (r : R).

(** [np.histogram(a, bins=32, range=(0, 255))]: the bin edges are
    [255 * i / 32] for i = 0..32 (exact in float64), bin i holds
    [edge i <= v < edge (i+1)], the last bin also holds 255, and values outside
    the range are ignored. *)
Definition n_bins : Z := 32.

Definition bin_width : Q := 255 # 32.

Definition bin_index (v : Z) : option Z :=
  if ((v <? 0) || (255 <? v))%Z then None
  else Some (Z.min 31 (32 * v / 255)).

Definition in_bin (i : Z) (v : Z) : bool :=
  match bin_index v with
  | Some j => (j =? i)%Z
  | None => false
  end.

Definition count (a : list Z) (i : nat) : Z :=
  Z.of_nat (length (filter (in_bin (Z.of_nat i)) a)).

Definition histogram (a : list Z) : list Z := map (count a) (seq 0 32).

Definition total (n : list Z) : Z := fold_right Z.add 0%Z n.

(** [density=True]: [n / db / n.sum()]; with no value counted every bin is
    0/0, a NaN ([None]). *)
Definition histogram_density (a : list Z) : list (option Q) :=
  let n := histogram a in
  map (fun c => if (total n =? 0)%Z then None
                else Some (inject_Z c / bin_width / inject_Z (total n))) n.

(** [hist[hist > 0]]. *)
Definition positive_bins (hist : list (option Q)) : list Q :=
  flat_map (fun d => match d with
                     | Some q => if Qle_bool q 0 then [] else [q]
                     | None => []
                     end) hist.

Definition log2 (x : R) : R := (ln x / ln 2)%R.

Definition Rsum (l : list R) : R := fold_right Rplus 0%R l.

(** [-np.sum(hist * np.log2(hist))]. *)
Definition entropy (hist : list Q) : R :=
  (- Rsum (map (fun q => Q2R q * log2 (Q2R q)) hist))%R.

Definition Qsum (l : list Q) : Q := fold_right Qplus 0 l.

Definition mean (a : list Z) : Q :=
  Qsum (map inject_Z a) / inject_Z (Z.of_nat (length a)).

Definition variance (a : list Z) : Q :=
  Qsum (map (fun v => (inject_Z v - mean a) * (inject_Z v - mean a)) a)
  / inject_Z (Z.of_nat (length a)).

(** [gray_arr.std()]: the population standard deviation, NaN on an empty
    array. *)
Definition std (a : list Z) : option R :=
  match a with
  | [] => None
  | _ :: _ => Some (sqrt (Q2R (variance a)))
  end.

Definition _score_crop (gray_arr : list Z) : score :=
  let hist := positive_bins (histogram_density gray_arr) in
  match std gray_arr with
  | None => NaN
  | Some contrast => Fin (entropy hist + (1 / 100) * contrast)%R
  end.

(** The entropy as the specification words it: the density [p_i] of each of
    the 32 bins, and [- sum p_i * log2 p_i] over the bins with [p_i > 0]. *)
Definition bin_density (a : list Z) (i : nat) : Q :=
  inject_Z (count a i) / bin_width / inject_Z (Z.of_nat (length a)).

Definition shannon_term (p : Q) : R :=
  if Qle_bool p 0 then 0%R else (Q2R p * log2 (Q2R p))%R.

Definition shannon_entropy (a : list Z) : R :=
  (- Rsum (map (fun i => shannon_term (bin_density a i)) (seq 0 32)))%R.

(** [a > b] on scores. *)
Definition score_gt (a b : score) : bool :=
  match a, b with
  | Fin x, Fin y => if Rlt_dec y x then true else false
  | Fin _, NegInf => true
  | _, _ => false
  end.

End Scorer.

(** ** smart_crop_resize *)

Import B64 Np Scorer.

(** Lines 40-45: the crop size, from the two ratios. *)
Definition crop_size_of (src_w src_h : Z) (target_ratio src_ratio : Q)
  : result (Z * Z) :=
  if float_gt src_ratio target_ratio then
    let crop_h := src_h in
    let crop_w := int_of_float (float_mul (float_of_int crop_h) target_ratio) in
    Ok (crop_w, crop_h)
  else
    let crop_w := src_w in
    q <- float_div (float_of_int crop_w) target_ratio ;;
    let crop_h := int_of_float q in
    Ok (crop_w, crop_h).

(** Lines 37-45. *)
Definition crop_size (src_w src_h target_w target_h : Z) : result (Z * Z) :=
  target_ratio <- int_truediv target_w target_h ;;
  src_ratio <- int_truediv src_w src_h ;;
  crop_size_of src_w src_h target_ratio src_ratio.

(** The loop over the candidate offsets: the running best offset and score. *)
Fixpoint search (score_at : Z -> score) (offsets : list Z)
  (best : Z) (best_score : score) : Z :=
  match offsets with
  | [] => best
  | x :: rest =>
      let s := score_at x in
      if score_gt s best_score then search score_at rest x s
      else search score_at rest best best_score
  end.

(** [gray[:, x : x + crop_w]] and [gray[y : y + crop_h, :]], flattened. *)
Definition columns (gray : list (list Z)) (x crop_w : Z) : list Z :=
  concat (map (fun row => py_slice row x (x + crop_w)) gray).

Definition rows (gray : list (list Z)) (y crop_h : Z) : list Z :=
  concat (py_slice gray y (y + crop_h)).

Definition candidate_offsets (max_offset : Z) : result (list Z) :=
  linspace max_offset (Z.min 25 (max_offset + 1)).

Definition smart_crop_resize (image : Image) (target_w target_h : Z)
  : result PilImage :=
  let rgb_img := ConvertRGB image in
  let src_w := width image in
  let src_h := height image in
  target_ratio <- int_truediv target_w target_h ;;
  src_ratio <- int_truediv src_w src_h ;;
  cs <- crop_size_of src_w src_h target_ratio src_ratio ;;
  let '(crop_w, crop_h) := cs in
  if (crop_w =? src_w) && (crop_h =? src_h) then
    Ok (Resize rgb_img (target_w, target_h) LANCZOS)
  else
    let gray := luma image in
    if float_gt src_ratio target_ratio then
      let max_offset := src_w - crop_w in
      offsets <- candidate_offsets max_offset ;;
      let best_x :=
        search (fun x => _score_crop (columns gray x crop_w)) offsets 0 NegInf in
      let cropped := Crop rgb_img (best_x, 0, best_x + crop_w, crop_h) in
      Ok (Resize cropped (target_w, target_h) LANCZOS)
    else
      let max_offset := src_h - crop_h in
      offsets <- candidate_offsets max_offset ;;
      let best_y :=
        search (fun y => _score_crop (rows gray y crop_h)) offsets 0 NegInf in
      let cropped := Crop rgb_img (0, best_y, crop_w, best_y + crop_h) in
      Ok (Resize cropped (target_w, target_h) LANCZOS).

(** The crop window {x, y, width, height} behind a result. *)
Definition window_of (p : PilImage) : option (Z * Z * Z * Z) :=
  match p with
  | Resize (ConvertRGB im) _ _ => Some (0, 0, width im, height im)
  | Resize (Crop (ConvertRGB _) (l, t, r, b)) _ _ => Some (l, t, r - l, b - t)
  | _ => None
  end.

(** The crop size as the specification words it: exact real-valued
    quotients and truncation. *)
Definition spec_crop_size (srcW srcH targetW targetH : Z) : Z * Z :=
  let targetRatio := (inject_Z targetW / inject_Z targetH)%Q in
  let srcRatio := (inject_Z srcW / inject_Z srcH)%Q in
  if negb (Qle_bool srcRatio targetRatio) then
    let cropH := srcH in
    (int_of_float (inject_Z cropH * targetRatio)%Q, cropH)
  else
    let cropW := srcW in
    (cropW, int_of_float (inject_Z cropW / targetRatio)%Q).

(** ** build_zip *)

Inductive compression : Type :=
| ZIP_STORED
| ZIP_DEFLATED.

Record ZipEntry : Type := mkEntry {
  filename : string;
  data : list Byte.byte
}.

(** A [zipfile.ZipFile] opened for writing: its compression method and the
    entries written so far, oldest first. *)
Record ZipFile : Type := mkZip {
  compress_type : compression;
  entries : list ZipEntry
}.

Definition lower_ascii (c : ascii) : ascii :=
  let n := nat_of_ascii c in
  if (65 <=? n)%nat && (n <=? 90)%nat then ascii_of_nat (n + 32) else c.

(** [str.lower()] on ASCII text. *)
Fixpoint lower (s : string) : string :=
  match s with
  | EmptyString => EmptyString
  | String c rest => String (lower_ascii c) (lower rest)
  end.

Definition writestr (zf : ZipFile) (name : string) (bytes : list Byte.byte) : ZipFile :=
  mkZip (compress_type zf) (entries zf ++ [mkEntry name bytes]).

Section BuildZip.

(** [img.save(buffer, format="PNG")]: Pillow's PNG encoder. *)
Variable save_png : PilImage -> list Byte.byte.

(** [images] is a dict, in insertion order.  The result is the archive whose
    serialization [memory_file.getvalue()] returns. *)
Definition build_zip (images : list (string * PilImage)) : ZipFile :=
  fold_left
    (fun zf (item : string * PilImage) =>
       let (label, img) := item in
       writestr zf (lower label ++ ".png")%string (save_png img))
    images (mkZip ZIP_DEFLATED []).

End BuildZip.

(** ** main *)

(** [@dataclass(frozen=True) class PostSize]. *)
Module PostSize.

Record t : Type := mk {
  name : string;
  width : Z;
  height : Z
}.

End PostSize.

Definition POST_SIZES : list PostSize.t :=
  [PostSize.mk "Square" 1080 1080;
   PostSize.mk "Portrait" 1080 1350;
   PostSize.mk "Story" 1080 1920].

(** [str(n)] on an int, as an f-string formats it: the decimal digits, after
    a minus sign for a negative number. *)
Definition str (n : Z) : string :=
  DecimalString.NilZero.string_of_int (Z.to_int n).

(** Line 117: [f"{post_size.name}_{post_size.width}x{post_size.height}"]. *)
Definition label_of (post_size : PostSize.t) : string :=
  (PostSize.name post_size ++ "_" ++ str (PostSize.width post_size)
     ++ "x" ++ str (PostSize.height post_size))%string.

(** [d[k] = v] on a dict, kept in insertion order: a key that is already
    there keeps its place and takes the new value. *)
Fixpoint dict_set {V : Type} (d : list (string * V)) (k : string) (v : V)
  : list (string * V) :=
  match d with
  | [] => [(k, v)]
  | (k', v') :: rest =>
      if String.eqb k' k then (k, v) :: rest else (k', v') :: dict_set rest k v
  end.

(** What a [st.download_button] hands out: the PNG bytes of one image, or the
    archive. *)
Inductive payload : Type :=
| Png (bytes : list Byte.byte)
| Archive (zip_data : ZipFile).

Record DownloadButton : Type := mkButton {
  button_label : string;
  button_data : payload;
  file_name : string;
  mime : string
}.

(** What ends a run of [main] early: an exception of [smart_crop_resize],
    or the IndexError of [cols[idx]] past the last column. *)
Inductive main_exn : Type :=
| Resizing (e : exn)
| IndexError.

Inductive outcome (A : Type) : Type :=
| Returns (a : A)
| Raises (e : main_exn).

Arguments Returns {A} a.
Arguments Raises {A} e.

(** Line 113: [cols = st.columns(3)]. *)
Definition n_columns : nat := 3.

Section Main.

Variable save_png : PilImage -> list Byte.byte.

(** Lines 115-129, one pass of the loop over the post sizes, on the results
    and the download buttons so far; [idx] is the counter of [enumerate]. *)
Definition generate_size (image : Image)
  (state : list (string * PilImage) * list DownloadButton)
  (idx : nat) (post_size : PostSize.t)
  : outcome (list (string * PilImage) * list DownloadButton) :=
  let (results, buttons) := state in
  match smart_crop_resize image (PostSize.width post_size)
          (PostSize.height post_size) with
  | Raise e => Raises (Resizing e)
  | Ok resized =>
      let label := label_of post_size in
      let results := dict_set results label resized in
      if (idx <? n_columns)%nat then
        Returns (results,
                 buttons ++ [mkButton ("Download " ++ PostSize.name post_size)
                               (Png (save_png resized))
                               (lower label ++ ".png") "image/png"])
      else Raises IndexError
  end.

Fixpoint generate (image : Image) (sizes : list PostSize.t) (idx : nat)
  (state : list (string * PilImage) * list DownloadButton)
  : outcome (list (string * PilImage) * list DownloadButton) :=
  match sizes with
  | [] => Returns state
  | post_size :: rest =>
      match generate_size image state idx post_size with
      | Returns state' => generate image rest (S idx) state'
      | Raises e => Raises e
      end
  end.

(** [main], as the download buttons it puts on the page, in order; [uploaded]
    is what the file uploader returned, already opened by Pillow.  The
    widgets that hand out no file (titles, previews) are left out. *)
Definition main (uploaded : option Image) : outcome (list DownloadButton) :=
  match uploaded with
  | None => Returns []
  | Some image =>
      match generate image POST_SIZES 0 ([], []) with
      | Returns (results, buttons) =>
          let zip_data := build_zip save_png results in
          Returns (buttons ++ [mkButton "Download all as ZIP" (Archive zip_data)
                                 "resized_posts.zip" "application/zip"])
      | Raises e => Raises e
      end
  end.

End Main.

(** ** Sample inputs *)

(** A source with a flat left half and a textured right half. *)
Definition strip_image : Image :=
  mkImage 6 2 [[0; 0; 0; 10; 200; 90]; [0; 0; 0; 60; 120; 250]].

(** A single-colour square source. *)
Definition flat_image : Image := mkImage 2 2 [[7; 7]; [7; 7]].

(** A luminance region with four occupied bins. *)
Definition sample_region : list Z := [0; 7; 8; 255; 254; 100].

(** A source one pixel high. *)
Definition thin_image : Image := mkImage 2 1 [[5; 9]].

(** A source of the portrait ratio 4:5. *)
Definition tall_image : Image :=
  mkImage 4 5 [[0; 10; 20; 30]; [40; 50; 60; 70]; [80; 90; 100; 110];
               [120; 130; 140; 150]; [160; 170; 180; 190]].

(** * Properties *)

(** ** Rounding to binary64 *)

Section Rounding.

Local Open Scope Q_scope.

Lemma pow2_pos (k : Z) : 0 < pow2 k.
Proof. apply Qpower_0_lt. reflexivity. Qed.

Lemma pow2_add (a b : Z) : pow2 (a + b) == pow2 a * pow2 b.
Proof. apply Qpower_plus. discriminate. Qed.

Lemma pow2_succ (k : Z) : pow2 (k + 1) == 2 * pow2 k.
Proof. rewrite pow2_add. change (pow2 1) with 2. ring. Qed.

Lemma pow2_pred (k : Z) : pow2 k == 2 * pow2 (k - 1).
Proof. rewrite <- pow2_succ. replace (k - 1 + 1)%Z with k by ring. reflexivity. Qed.

Lemma pow2_lt (a b : Z) : (a < b)%Z -> pow2 a < pow2 b.
Proof. intro H. apply Qpower_lt_compat_l; [exact H | reflexivity]. Qed.

Lemma pow2_le (a b : Z) : (a <= b)%Z -> pow2 a <= pow2 b.
Proof. intro H. apply Qpower_le_compat_l; [exact H | discriminate]. Qed.

Lemma pow2_lt_inv (a b : Z) : pow2 a < pow2 b -> (a < b)%Z.
Proof. intro H. apply (Qpower_lt_compat_l_inv 2); [exact H | reflexivity]. Qed.

Lemma pow2_inject (k : Z) : (0 <= k)%Z -> inject_Z (2 ^ k) == pow2 k.
Proof. intro H. unfold pow2. rewrite Zpower_Qpower by exact H. reflexivity. Qed.

Lemma pow2_opp_mul (k : Z) : pow2 k * pow2 (- k) == 1.
Proof. rewrite <- pow2_add. replace (k + - k)%Z with 0%Z by ring. reflexivity. Qed.

Lemma Q_as_div (x : Q) : x == inject_Z (Qnum x) / inject_Z (Zpos (Qden x)).
Proof. destruct x as [n d]. simpl. apply Qmake_Qdiv. Qed.

(** The binade of a positive rational. *)
Lemma ilog2_spec (x : Q) :
  0 < x -> pow2 (ilog2 x) <= x /\ x < pow2 (ilog2 x + 1).
Proof.
  intro Hx.
  assert (Hn : (0 < Qnum x)%Z).
  { destruct x as [n d]. unfold Qlt in Hx. simpl in *. lia. }
  set (a := Z.log2 (Qnum x)). set (b := Z.log2 (Zpos (Qden x))).
  assert (Ha : (2 ^ a <= Qnum x < 2 ^ (a + 1))%Z).
  { unfold a. replace (Z.log2 (Qnum x) + 1)%Z with (Z.succ (Z.log2 (Qnum x))) by lia.
    apply Z.log2_spec. exact Hn. }
  assert (Hb : (2 ^ b <= Zpos (Qden x) < 2 ^ (b + 1))%Z).
  { unfold b. replace (Z.log2 (Zpos (Qden x)) + 1)%Z with (Z.succ (Z.log2 (Zpos (Qden x)))) by lia.
    apply Z.log2_spec. lia. }
  assert (Ha0 : (0 <= a)%Z) by apply Z.log2_nonneg.
  assert (Hb0 : (0 <= b)%Z) by apply Z.log2_nonneg.
  assert (Hd : 0 < inject_Z (Zpos (Qden x))) by reflexivity.
  (* bounds in Q *)
  assert (Qa1 : pow2 a <= inject_Z (Qnum x)).
  { rewrite <- pow2_inject by exact Ha0. rewrite <- Zle_Qle. lia. }
  assert (Qa2 : inject_Z (Qnum x) < 2 * pow2 a).
  { rewrite <- pow2_succ. rewrite <- pow2_inject by lia. rewrite <- Zlt_Qlt. lia. }
  assert (Qb1 : pow2 b <= inject_Z (Zpos (Qden x))).
  { rewrite <- pow2_inject by exact Hb0. rewrite <- Zle_Qle. lia. }
  assert (Qb2 : inject_Z (Zpos (Qden x)) < 2 * pow2 b).
  { rewrite <- pow2_succ. rewrite <- pow2_inject by lia. rewrite <- Zlt_Qlt. lia. }
  assert (Hxd : x * inject_Z (Zpos (Qden x)) == inject_Z (Qnum x)).
  { rewrite (Q_as_div x) at 1. field. intro H0. rewrite H0 in Hd. discriminate. }
  assert (Hk : pow2 (a - b) * pow2 b == pow2 a).
  { rewrite <- pow2_add. replace (a - b + b)%Z with a by ring. reflexivity. }
  pose proof (pow2_pos a) as Pa. pose proof (pow2_pos b) as Pb.
  pose proof (pow2_pos (a - b)) as Pk.
  unfold ilog2. fold a b.
  destruct (Qle_bool (pow2 (a - b)) x) eqn:E.
  - apply Qle_bool_iff in E. split; [exact E|].
    rewrite pow2_succ.
    (* x * d = n < 2 * 2^a = 2 * 2^k * 2^b <= 2 * 2^k * d *)
    apply Qnot_le_lt. intro Hc.
    assert (2 * pow2 (a - b) * pow2 b <= x * inject_Z (Zpos (Qden x))) by nra.
    nra.
  - assert (E' : x < pow2 (a - b)).
    { apply Qnot_le_lt. intro Hc. apply Qle_bool_iff in Hc. congruence. }
    replace (a - b - 1 + 1)%Z with (a - b)%Z by ring.
    split; [|exact E'].
    pose proof (pow2_pred (a - b)) as Hp.
    pose proof (pow2_pos (a - b - 1)) as Pk1.
    apply Qnot_lt_le. intro Hc.
    assert (x * inject_Z (Zpos (Qden x)) < pow2 (a - b - 1) * (2 * pow2 b)) by nra.
    nra.
Qed.

Lemma binade_unique (x : Q) (e e' : Z) :
  pow2 e <= x -> x < pow2 (e + 1) -> pow2 e' <= x -> x < pow2 (e' + 1) -> e = e'.
Proof.
  intros H1 H2 H3 H4.
  assert (e < e' + 1)%Z by (apply pow2_lt_inv; lra).
  assert (e' < e + 1)%Z by (apply pow2_lt_inv; lra).
  lia.
Qed.

Lemma ilog2_unique (x : Q) (e : Z) :
  pow2 e <= x -> x < pow2 (e + 1) -> ilog2 x = e.
Proof.
  intros H1 H2.
  assert (Hx : 0 < x) by (pose proof (pow2_pos e); lra).
  destruct (ilog2_spec x Hx) as [H3 H4].
  exact (binade_unique x _ _ H3 H4 H1 H2).
Qed.

Lemma ilog2_compat (x y : Q) : 0 < x -> x == y -> ilog2 x = ilog2 y.
Proof.
  intros Hx Hxy.
  assert (Hy : 0 < y) by (rewrite <- Hxy; exact Hx).
  destruct (ilog2_spec y Hy) as [H3 H4].
  apply ilog2_unique; rewrite Hxy; assumption.
Qed.

Lemma ilog2_mono (x y : Q) : 0 < x -> x <= y -> (ilog2 x <= ilog2 y)%Z.
Proof.
  intros Hx Hxy.
  assert (Hy : 0 < y) by lra.
  destruct (ilog2_spec x Hx) as [H1 H2].
  destruct (ilog2_spec y Hy) as [H3 H4].
  assert (ilog2 x < ilog2 y + 1)%Z by (apply pow2_lt_inv; lra).
  lia.
Qed.

(** *** Rounding to the nearest integer *)

Lemma rne_cases (y : Q) :
  let f := Qfloor y in
  (rne y = f /\ y - inject_Z f <= 1 # 2) \/
  (rne y = (f + 1)%Z /\ 1 # 2 <= y - inject_Z f).
Proof.
  intro f. unfold rne. fold f.
  destruct (Qcompare (y - inject_Z f) (1 # 2)) eqn:E.
  - apply Qeq_alt in E. destruct (Z.even f); [left | right]; split; auto; lra.
  - apply Qlt_alt in E. left; split; auto; lra.
  - apply Qgt_alt in E. right; split; auto; lra.
Qed.

Lemma Qfloor_bounds (y : Q) :
  inject_Z (Qfloor y) <= y /\ y < inject_Z (Qfloor y) + 1.
Proof.
  split; [apply Qfloor_le|].
  pose proof (Qlt_floor y) as H. rewrite inject_Z_plus in H. exact H.
Qed.

Lemma rne_error (y : Q) :
  inject_Z (rne y) - (1 # 2) <= y /\ y <= inject_Z (rne y) + (1 # 2).
Proof.
  pose proof (Qfloor_bounds y) as [H1 H2].
  destruct (rne_cases y) as [[-> H]|[-> H]].
  - lra.
  - rewrite inject_Z_plus. change (inject_Z 1) with 1. lra.
Qed.

Lemma rne_compat (x y : Q) : x == y -> rne x = rne y.
Proof.
  intro H. unfold rne.
  assert (Hf : Qfloor x = Qfloor y) by (apply Qfloor_comp; exact H).
  rewrite Hf.
  assert (Hc : Qcompare (x - inject_Z (Qfloor y)) (1 # 2) =
               Qcompare (y - inject_Z (Qfloor y)) (1 # 2)).
  { apply Qcompare_comp; [rewrite H; reflexivity | reflexivity]. }
  rewrite Hc. reflexivity.
Qed.

Lemma rne_inject (z : Z) : rne (inject_Z z) = z.
Proof.
  unfold rne. rewrite Qfloor_Z.
  assert (E : Qcompare (inject_Z z - inject_Z z) (1 # 2) = Lt).
  { rewrite <- Qlt_alt. lra. }
  rewrite E. reflexivity.
Qed.

Lemma inject_Z_lt_inv (a b : Z) : inject_Z a < inject_Z b -> (a < b)%Z.
Proof. intro H. rewrite Zlt_Qlt. exact H. Qed.

Lemma inject_Z_le_inv (a b : Z) : inject_Z a <= inject_Z b -> (a <= b)%Z.
Proof. intro H. rewrite Zle_Qle. exact H. Qed.

Lemma rne_mono (x y : Q) : x <= y -> (rne x <= rne y)%Z.
Proof.
  intro Hxy.
  pose proof (Qfloor_resp_le x y Hxy) as Hf.
  pose proof (Qfloor_bounds x) as [X1 X2].
  pose proof (Qfloor_bounds y) as [Y1 Y2].
  destruct (Z.eq_dec (Qfloor x) (Qfloor y)) as [Heq|Hne].
  - (* same integer part: compare the fractional parts *)
    unfold rne. rewrite Heq.
    destruct (Qcompare_spec (x - inject_Z (Qfloor y)) (1 # 2)) as [Ex|Ex|Ex];
      destruct (Qcompare_spec (y - inject_Z (Qfloor y)) (1 # 2)) as [Ey|Ey|Ey];
      try (destruct (Z.even (Qfloor y))); try lia; exfalso; lra.
  - assert (Hlt : (Qfloor x + 1 <= Qfloor y)%Z) by lia.
    destruct (rne_cases x) as [[-> _]|[-> _]];
      destruct (rne_cases y) as [[-> _]|[-> _]]; lia.
Qed.

Lemma rne_nonneg (y : Q) : 0 <= y -> (0 <= rne y)%Z.
Proof.
  intro H. change 0%Z with (rne (inject_Z 0)) at 1.
  rewrite rne_inject. rewrite <- (rne_inject 0). apply rne_mono. exact H.
Qed.

Lemma rne_le_inject (y : Q) (z : Z) : y <= inject_Z z -> (rne y <= z)%Z.
Proof. intro H. rewrite <- (rne_inject z). apply rne_mono. exact H. Qed.

Lemma rne_ge_inject (y : Q) (z : Z) : inject_Z z <= y -> (z <= rne y)%Z.
Proof. intro H. rewrite <- (rne_inject z). apply rne_mono. exact H. Qed.

(** *** Rounding a positive rational *)

Lemma scaled_bounds (x : Q) :
  0 < x ->
  pow2 52 <= x / pow2 (ilog2 x - 52) /\ x / pow2 (ilog2 x - 52) < pow2 53.
Proof.
  intro Hx. destruct (ilog2_spec x Hx) as [H1 H2].
  set (e := ilog2 x) in *.
  pose proof (pow2_pos (e - 52)) as Ps.
  assert (He : pow2 e == pow2 52 * pow2 (e - 52)).
  { rewrite <- pow2_add. replace (52 + (e - 52))%Z with e by ring. reflexivity. }
  assert (He1 : pow2 (e + 1) == pow2 53 * pow2 (e - 52)).
  { rewrite <- pow2_add. replace (53 + (e - 52))%Z with (e + 1)%Z by ring. reflexivity. }
  split.
  - apply Qle_shift_div_l; [exact Ps|]. lra.
  - apply Qlt_shift_div_r; [exact Ps|]. lra.
Qed.

Lemma round_pos_mant (x : Q) :
  0 < x ->
  (2 ^ 52 <= rne (x / pow2 (ilog2 x - 52)) <= 2 ^ 53)%Z.
Proof.
  intro Hx. destruct (scaled_bounds x Hx) as [H1 H2]. split.
  - apply rne_ge_inject. rewrite pow2_inject by lia. exact H1.
  - apply rne_le_inject. rewrite pow2_inject by lia. lra.
Qed.

Lemma round_pos_error (x : Q) :
  0 < x ->
  x - pow2 (ilog2 x - 53) <= round_pos x /\ round_pos x <= x + pow2 (ilog2 x - 53).
Proof.
  intro Hx. unfold round_pos.
  set (s := (ilog2 x - 52)%Z).
  pose proof (pow2_pos s) as Ps.
  pose proof (rne_error (x / pow2 s)) as [R1 R2].
  assert (Hh : pow2 (ilog2 x - 53) == (1 # 2) * pow2 s).
  { unfold s. rewrite (pow2_pred (ilog2 x - 52)).
    replace (ilog2 x - 52 - 1)%Z with (ilog2 x - 53)%Z by ring. ring. }
  assert (Hy : x / pow2 s * pow2 s == x) by (field; lra).
  rewrite Hh. set (m := inject_Z (rne (x / pow2 s))) in *.
  set (y := x / pow2 s) in *.
  split; nra.
Qed.

Lemma round_pos_rel (x : Q) :
  0 < x -> x * (1 - u) <= round_pos x /\ round_pos x <= x * (1 + u).
Proof.
  intro Hx. destruct (round_pos_error x Hx) as [H1 H2].
  destruct (ilog2_spec x Hx) as [H3 _].
  assert (Hu : pow2 (ilog2 x - 53) == pow2 (ilog2 x) * u).
  { unfold u. rewrite <- pow2_add. replace (ilog2 x + -53)%Z with (ilog2 x - 53)%Z by ring.
    reflexivity. }
  assert (Pu : 0 < u) by apply pow2_pos.
  rewrite Hu in H1, H2. split; nra.
Qed.

Lemma round_pos_binade (x : Q) :
  0 < x -> pow2 (ilog2 x) <= round_pos x /\ round_pos x <= pow2 (ilog2 x + 1).
Proof.
  intro Hx. pose proof (round_pos_mant x Hx) as [M1 M2].
  unfold round_pos. set (s := (ilog2 x - 52)%Z) in *.
  set (m := rne (x / pow2 s)) in *.
  pose proof (pow2_pos s) as Ps.
  assert (He : pow2 (ilog2 x) == pow2 52 * pow2 s).
  { rewrite <- pow2_add. unfold s. replace (52 + (ilog2 x - 52))%Z with (ilog2 x) by ring.
    reflexivity. }
  assert (He1 : pow2 (ilog2 x + 1) == pow2 53 * pow2 s).
  { rewrite <- pow2_add. unfold s.
    replace (53 + (ilog2 x - 52))%Z with (ilog2 x + 1)%Z by ring. reflexivity. }
  assert (Q1 : pow2 52 <= inject_Z m).
  { rewrite <- pow2_inject by lia. rewrite <- Zle_Qle. exact M1. }
  assert (Q2 : inject_Z m <= pow2 53).
  { rewrite <- pow2_inject by lia. rewrite <- Zle_Qle. exact M2. }
  rewrite He, He1. split; nra.
Qed.

Lemma round_pos_pos (x : Q) : 0 < x -> 0 < round_pos x.
Proof.
  intro Hx. destruct (round_pos_binade x Hx) as [H _].
  pose proof (pow2_pos (ilog2 x)). lra.
Qed.

Lemma round_pos_compat (x y : Q) : 0 < x -> x == y -> round_pos x == round_pos y.
Proof.
  intros Hx Hxy. unfold round_pos.
  rewrite <- (ilog2_compat x y Hx Hxy).
  assert (Hr : rne (x / pow2 (ilog2 x - 52)) = rne (y / pow2 (ilog2 x - 52))).
  { apply rne_compat. unfold Qdiv. apply Qmult_comp; [exact Hxy | reflexivity]. }
  rewrite Hr. reflexivity.
Qed.

Lemma round_pos_mono (x y : Q) : 0 < x -> x <= y -> round_pos x <= round_pos y.
Proof.
  intros Hx Hxy. assert (Hy : 0 < y) by lra.
  pose proof (ilog2_mono x y Hx Hxy) as He.
  destruct (Z.eq_dec (ilog2 x) (ilog2 y)) as [Heq|Hne].
  - unfold round_pos. rewrite Heq.
    set (s := (ilog2 y - 52)%Z). pose proof (pow2_pos s) as Ps.
    assert (Hm : (rne (x / pow2 s) <= rne (y / pow2 s))%Z).
    { apply rne_mono. apply Qmult_le_compat_r; [exact Hxy|].
      apply Qlt_le_weak. apply Qinv_lt_0_compat. exact Ps. }
    rewrite Zle_Qle in Hm. nra.
  - destruct (round_pos_binade x Hx) as [_ H1].
    destruct (round_pos_binade y Hy) as [H2 _].
    assert (H3 : pow2 (ilog2 x + 1) <= pow2 (ilog2 y)) by (apply pow2_le; lia).
    lra.
Qed.

(** A representable positive value is a fixed point of the rounding. *)
Lemma round_pos_fix (x : Q) (m e : Z) :
  (0 < m < 2 ^ 53)%Z -> x == inject_Z m * pow2 e -> round_pos x == x.
Proof.
  intros Hm Hx.
  pose proof (pow2_pos e) as Pe.
  assert (Qm : 0 < inject_Z m).
  { change 0 with (inject_Z 0). rewrite <- Zlt_Qlt. lia. }
  assert (Qm2 : inject_Z m < pow2 53).
  { rewrite <- pow2_inject by lia. rewrite <- Zlt_Qlt. lia. }
  assert (X0 : 0 < x) by (rewrite Hx; nra).
  destruct (ilog2_spec x X0) as [H1 H2].
  assert (Hs : (ilog2 x - 52 <= e)%Z).
  { assert (pow2 (ilog2 x) < pow2 (53 + e)).
    { rewrite pow2_add. nra. }
    apply pow2_lt_inv in H. lia. }
  unfold round_pos. set (s := (ilog2 x - 52)%Z) in *.
  pose proof (pow2_pos s) as Ps.
  assert (Hy : x / pow2 s == inject_Z (m * 2 ^ (e - s))).
  { rewrite inject_Z_mult. rewrite pow2_inject by lia.
    assert (Hd : pow2 e == pow2 (e - s) * pow2 s).
    { rewrite <- pow2_add. replace (e - s + s)%Z with e by ring. reflexivity. }
    transitivity (inject_Z m * pow2 (e - s) * pow2 s / pow2 s).
    - unfold Qdiv. apply Qmult_comp; [|reflexivity].
      rewrite <- Qmult_assoc, <- Hd. exact Hx.
    - field. lra. }
  rewrite (rne_compat _ _ Hy). rewrite rne_inject.
  rewrite <- Hy. field. lra.
Qed.

(** *** The rounding [fl] *)

Lemma fl_zero (x : Q) : x == 0 -> fl x = 0.
Proof.
  intro H. unfold fl.
  destruct (Qcompare_spec x 0) as [E|E|E]; [reflexivity | lra | lra].
Qed.

Lemma fl_pos (x : Q) : 0 < x -> fl x == round_pos x.
Proof.
  intro H. unfold fl. rewrite Qred_correct.
  destruct (Qcompare_spec x 0) as [E|E|E]; [lra | lra | reflexivity].
Qed.

Lemma fl_neg (x : Q) : x < 0 -> fl x == - round_pos (- x).
Proof.
  intro H. unfold fl. rewrite Qred_correct.
  destruct (Qcompare_spec x 0) as [E|E|E]; [lra | reflexivity | lra].
Qed.

Lemma fl_compat (x y : Q) : x == y -> fl x = fl y.
Proof.
  intro H. unfold fl. apply Qred_complete.
  destruct (Qcompare_spec x 0) as [E|E|E];
    destruct (Qcompare_spec y 0) as [F|F|F]; try lra.
  - assert (HH : round_pos (- x) == round_pos (- y)) by (apply round_pos_compat; lra).
    lra.
  - apply round_pos_compat; lra.
Qed.

Lemma fl_opp (x : Q) : fl (- x) == - fl x.
Proof.
  destruct (Qcompare_spec x 0) as [E|E|E].
  - rewrite (fl_zero x E). rewrite (fl_zero (- x)) by lra. reflexivity.
  - rewrite (fl_neg x E). rewrite (fl_pos (- x)) by lra. ring.
  - rewrite (fl_pos x E). rewrite (fl_neg (- x)) by lra.
    rewrite (round_pos_compat (- - x) x) by lra. reflexivity.
Qed.

Lemma fl_pos_pos (x : Q) : 0 < x -> 0 < fl x.
Proof. intro H. rewrite (fl_pos x H). apply round_pos_pos. exact H. Qed.

Lemma fl_nonneg (x : Q) : 0 <= x -> 0 <= fl x.
Proof.
  intro H. destruct (Qcompare_spec x 0) as [E|E|E].
  - rewrite (fl_zero x E). lra.
  - lra.
  - apply Qlt_le_weak. apply fl_pos_pos. exact E.
Qed.

Lemma u_pos : 0 < u.
Proof. apply pow2_pos. Qed.

Lemma u_small : u < 1.
Proof. reflexivity. Qed.

(** Relative error of one rounding. *)
Lemma fl_rel (x : Q) : 0 <= x -> x * (1 - u) <= fl x /\ fl x <= x * (1 + u).
Proof.
  intro H. destruct (Qcompare_spec x 0) as [E|E|E].
  - rewrite (fl_zero x E). pose proof u_pos. split; nra.
  - lra.
  - rewrite (fl_pos x E). apply round_pos_rel. exact E.
Qed.

Lemma fl_mono (x y : Q) : x <= y -> fl x <= fl y.
Proof.
  intro H.
  destruct (Qcompare_spec x 0) as [E|E|E];
    destruct (Qcompare_spec y 0) as [F|F|F]; try lra.
  - rewrite (fl_zero x E), (fl_zero y F). lra.
  - rewrite (fl_zero x E). apply fl_nonneg. lra.
  - rewrite (fl_neg x E), (fl_zero y F).
    pose proof (round_pos_pos (- x)). lra.
  - rewrite (fl_neg x E), (fl_neg y F).
    pose proof (round_pos_mono (- y) (- x)). lra.
  - rewrite (fl_neg x E), (fl_pos y F).
    pose proof (round_pos_pos (- x)). pose proof (round_pos_pos y). lra.
  - rewrite (fl_pos x E), (fl_pos y F). apply round_pos_mono; lra.
Qed.

Lemma fl_fix (x : Q) : representable x -> fl x == x.
Proof.
  intros (m & e & Hm & Hx).
  pose proof (pow2_pos e) as Pe.
  destruct (Z.lt_trichotomy m 0) as [M|[M|M]].
  - assert (Qm : inject_Z m < 0).
    { change 0 with (inject_Z 0). rewrite <- Zlt_Qlt. exact M. }
    assert (X : x < 0) by (rewrite Hx; nra).
    rewrite (fl_neg x X).
    rewrite (round_pos_fix (- x) (- m) e).
    + ring.
    + lia.
    + rewrite inject_Z_opp. rewrite Hx. ring.
  - subst m. apply Qeq_eq_bool in Hx. apply Qeq_bool_eq in Hx.
    assert (X : x == 0) by (rewrite Hx; ring).
    rewrite (fl_zero x X). symmetry. exact X.
  - assert (Qm : 0 < inject_Z m).
    { change 0 with (inject_Z 0). rewrite <- Zlt_Qlt. exact M. }
    assert (X : 0 < x) by (rewrite Hx; nra).
    rewrite (fl_pos x X). apply (round_pos_fix x m e); [lia | exact Hx].
Qed.

Lemma representable_compat (x y : Q) : x == y -> representable x -> representable y.
Proof.
  intros H (m & e & Hm & Hx). exists m, e. split; [exact Hm|].
  rewrite <- H. exact Hx.
Qed.

Lemma representable_opp (x : Q) : representable x -> representable (- x).
Proof.
  intros (m & e & Hm & Hx). exists (- m)%Z, e. split; [lia|].
  rewrite inject_Z_opp, Hx. ring.
Qed.

Lemma round_pos_representable (x : Q) : 0 < x -> representable (round_pos x).
Proof.
  intro Hx. pose proof (round_pos_mant x Hx) as [M1 M2].
  unfold round_pos. set (s := (ilog2 x - 52)%Z) in *.
  set (m := rne (x / pow2 s)) in *.
  destruct (Z.eq_dec m (2 ^ 53)) as [E|E].
  - exists 1%Z, (53 + s)%Z. split; [reflexivity|].
    rewrite E. rewrite pow2_add. rewrite pow2_inject by lia. ring.
  - exists m, s. split; [lia | reflexivity].
Qed.

Lemma fl_representable (x : Q) : representable (fl x).
Proof.
  destruct (Qcompare_spec x 0) as [E|E|E].
  - rewrite (fl_zero x E). exists 0%Z, 0%Z. split; [reflexivity | reflexivity].
  - apply (representable_compat (- round_pos (- x))).
    + symmetry. apply fl_neg. exact E.
    + apply representable_opp. apply round_pos_representable. lra.
  - apply (representable_compat (round_pos x)).
    + symmetry. apply fl_pos. exact E.
    + apply round_pos_representable. exact E.
Qed.

Lemma fl_idem (x : Q) : fl (fl x) == fl x.
Proof. apply fl_fix. apply fl_representable. Qed.

Lemma representable_int (n : Z) : (Z.abs n < 2 ^ 53)%Z -> representable (inject_Z n).
Proof.
  intro H. exists n, 0%Z. split; [exact H|]. change (pow2 0) with 1. ring.
Qed.

Lemma fl_int (n : Z) : (Z.abs n < 2 ^ 53)%Z -> fl (inject_Z n) == inject_Z n.
Proof. intro H. apply fl_fix. apply representable_int. exact H. Qed.

(** Rounding never crosses a representable value. *)
Lemma fl_le_representable (x y : Q) : representable y -> x <= y -> fl x <= y.
Proof. intros Hy H. rewrite <- (fl_fix y Hy). apply fl_mono. exact H. Qed.

Lemma fl_ge_representable (x y : Q) : representable y -> y <= x -> y <= fl x.
Proof. intros Hy H. rewrite <- (fl_fix y Hy). apply fl_mono. exact H. Qed.

(** *** Truncation *)

Lemma int_of_float_nonneg (x : Q) : 0 <= x -> int_of_float x = Qfloor x.
Proof.
  intro H. destruct x as [n d]. unfold int_of_float, Qfloor. simpl.
  assert (0 <= n)%Z by (unfold Qle in H; simpl in H; lia).
  apply Z.quot_div_nonneg; lia.
Qed.

Lemma int_of_float_compat (x y : Q) : 0 <= x -> x == y -> int_of_float x = int_of_float y.
Proof.
  intros H E. rewrite !int_of_float_nonneg by lra. apply Qfloor_comp. exact E.
Qed.

Lemma int_of_float_int (n : Z) : int_of_float (inject_Z n) = n.
Proof. unfold int_of_float. simpl. apply Z.quot_1_r. Qed.

Lemma float_gt_true (x y : Q) : float_gt x y = true <-> y < x.
Proof.
  unfold float_gt. rewrite negb_true_iff. split.
  - intro H. apply Qnot_le_lt. intro C. apply Qle_bool_iff in C. congruence.
  - intro H. destruct (Qle_bool x y) eqn:E; [|reflexivity].
    apply Qle_bool_iff in E. lra.
Qed.

Lemma float_gt_false (x y : Q) : float_gt x y = false <-> x <= y.
Proof.
  unfold float_gt. rewrite negb_false_iff. apply Qle_bool_iff.
Qed.

End Rounding.

(** The model and the kernel's binary64 arithmetic give the same quotients
    and products on small integers, the inputs of the counterexample to
    exact arithmetic among them. *)
Example model_matches_binary64_quotients : quotients_agree 24 = true.
Proof. vm_compute. reflexivity. Qed.

Example model_matches_binary64_products : products_agree 12 12 = true.
Proof. vm_compute. reflexivity. Qed.

Example model_matches_binary64_at_9_7 :
  same_number
    (PrimFloat.div (prim_of_int 9)
       (PrimFloat.div (prim_of_int 9) (prim_of_int 7)))
    (fl (float_of_int 9 / fl (inject_Z 9 / inject_Z 7))) = true.
Proof. vm_compute. reflexivity. Qed.

Example model_matches_binary64_at_49 :
  same_number
    (PrimFloat.mul (prim_of_int 49)
       (PrimFloat.div (prim_of_int 1) (prim_of_int 49)))
    (float_mul (float_of_int 49) (fl (inject_Z 1 / inject_Z 49))) = true.
Proof. vm_compute. reflexivity. Qed.

(** *** linspace *)

Lemma set_last_snoc (l : list Q) (a v : Q) : set_last (l ++ [a]) v = l ++ [v].
Proof.
  induction l as [|b l IH]; [reflexivity|].
  simpl. rewrite IH. destruct (l ++ [a]) eqn:E; [|reflexivity].
  destruct l; discriminate.
Qed.

Lemma arange_succ (n : nat) :
  arange (Z.of_nat (S n)) = arange (Z.of_nat n) ++ [float_of_int (Z.of_nat n)].
Proof.
  unfold arange. rewrite !Nat2Z.id. rewrite seq_S, map_app. reflexivity.
Qed.

Lemma arange_length (num : Z) : length (arange num) = Z.to_nat num.
Proof. unfold arange. rewrite length_map, length_seq. reflexivity. Qed.

Lemma set_last_length (y : list Q) (v : Q) : length (set_last y v) = length y.
Proof.
  induction y as [|a [|b y] IH]; try reflexivity.
  change (length (a :: set_last (b :: y) v) = length (a :: b :: y)).
  cbn [length]. rewrite IH. reflexivity.
Qed.

Lemma linspace_length (stop num : Z) (l : list Z) :
  linspace stop num = Ok l -> length l = Z.to_nat num.
Proof.
  unfold linspace. destruct (num <? 0); [discriminate|].
  intro H. injection H as <-.
  destruct (1 <? num);
    rewrite ?length_map, ?set_last_length, ?length_map, arange_length; reflexivity.
Qed.

(** The samples of a [linspace] with at least two points. *)
Lemma linspace_shape (stop : Z) (n : nat) :
  (1 <= n)%nat ->
  linspace stop (Z.of_nat (S n)) =
  Ok (map (fun i => Qfloor (float_add
                      (scale (float_sub (float_of_int stop) (float_of_int 0))
                             (Z.of_nat n) (float_of_int (Z.of_nat i)))
                      (float_of_int 0)))
          (seq 0 n)
      ++ [Qfloor (float_of_int stop)]).
Proof.
  intro Hn. unfold linspace.
  replace (Z.of_nat (S n) <? 0) with false by (symmetry; apply Z.ltb_ge; lia).
  replace (1 <? Z.of_nat (S n)) with true by (symmetry; apply Z.ltb_lt; lia).
  replace (Z.of_nat (S n) - 1) with (Z.of_nat n) by lia.
  rewrite arange_succ. rewrite !map_app.
  cbn [map]. rewrite set_last_snoc. rewrite map_app. cbn [map].
  unfold arange. rewrite Nat2Z.id. rewrite !map_map. reflexivity.
Qed.

Lemma float_of_int_exact (n : Z) :
  Z.abs n < 2 ^ 53 -> (float_of_int n == inject_Z n)%Q.
Proof. apply fl_int. Qed.

Lemma Qfloor_float_of_int (n : Z) : Z.abs n < 2 ^ 53 -> Qfloor (float_of_int n) = n.
Proof.
  intro H. rewrite (Qfloor_comp _ _ (float_of_int_exact n H)). apply Qfloor_Z.
Qed.

Lemma float_of_int_0 : float_of_int 0 = 0%Q.
Proof. reflexivity. Qed.

Lemma float_mul_0_l (x : Q) : float_mul 0 x = 0%Q.
Proof. unfold float_mul. apply fl_zero. ring. Qed.

Lemma scale_0 (delta : Q) (div : Z) : scale delta div 0 = 0%Q.
Proof.
  unfold scale. destruct (0 <? div); [|apply float_mul_0_l].
  destruct (Qeq_bool _ 0); [|apply float_mul_0_l].
  unfold np_div. rewrite (fl_zero (0 / float_of_int div)%Q) by (unfold Qdiv; ring).
  apply float_mul_0_l.
Qed.

Lemma candidate_offsets_small (M : Z) :
  0 <= M < 25 ->
  candidate_offsets M = Ok (map Z.of_nat (seq 0 (Z.to_nat (M + 1)))).
Proof.
  intro H.
  assert (E : exists n, (n < 25)%nat /\ M = Z.of_nat n).
  { exists (Z.to_nat M). split; lia. }
  destruct E as (n & Hn & ->).
  do 25 (destruct n as [|n]; [vm_compute; reflexivity|]).
  lia.
Qed.

Lemma candidate_offsets_eq (M : Z) :
  0 <= M ->
  candidate_offsets M = linspace M (Z.min 25 (M + 1)).
Proof. reflexivity. Qed.

Lemma candidate_offsets_nonempty (M : Z) (l : list Z) :
  0 <= M -> candidate_offsets M = Ok l -> l <> [].
Proof.
  intros HM H. apply linspace_length in H. intros ->. simpl in H. lia.
Qed.

Lemma hd_map_seq (f : nat -> Z) (n : nat) (tl : list Z) :
  (1 <= n)%nat -> hd 0 (map f (seq 0 n) ++ tl) = f 0%nat.
Proof. intro H. destruct n; [lia|]. reflexivity. Qed.


Lemma inject_Z_pos (n : Z) : 0 < n -> (0 < inject_Z n)%Q.
Proof. intro H. change 0%Q with (inject_Z 0). rewrite <- Zlt_Qlt. exact H. Qed.

Lemma inject_Z_nonneg (n : Z) : 0 <= n -> (0 <= inject_Z n)%Q.
Proof. intro H. change 0%Q with (inject_Z 0). rewrite <- Zle_Qle. exact H. Qed.

Lemma float_add_0_r (x : Q) : (float_add (fl x) (float_of_int 0) == fl x)%Q.
Proof.
  unfold float_add. rewrite float_of_int_0.
  rewrite (fl_compat (fl x + 0)%Q (fl x)) by ring. apply fl_idem.
Qed.

Lemma float_sub_0_r (n : Z) :
  Z.abs n < 2 ^ 53 ->
  (float_sub (float_of_int n) (float_of_int 0) == inject_Z n)%Q.
Proof.
  intro H. unfold float_sub. rewrite float_of_int_0.
  rewrite (fl_compat (float_of_int n - 0)%Q (inject_Z n)).
  - apply fl_int. exact H.
  - rewrite (float_of_int_exact n H). ring.
Qed.

(** With 25 samples, sample [i] is the rounded product of [i] and the rounded
    step. *)
Lemma scale_large (M : Z) (i : nat) (delta : Q) :
  24 <= M -> (i < 25)%nat -> (delta == inject_Z M)%Q ->
  scale delta 24 (float_of_int (Z.of_nat i)) =
  fl (inject_Z (Z.of_nat i) * fl (inject_Z M / 24))%Q.
Proof.
  intros HM Hi Hd. unfold scale. change (0 <? 24) with true. cbv iota.
  assert (F24 : (float_of_int 24 == 24)%Q) by (apply float_of_int_exact; reflexivity).
  assert (Hs : np_div delta (float_of_int 24) = fl (inject_Z M / 24)%Q).
  { unfold np_div. apply fl_compat. rewrite Hd, F24. reflexivity. }
  rewrite Hs.
  assert (Pm : (0 < inject_Z M)%Q) by (apply inject_Z_pos; lia).
  assert (Ps : (0 < fl (inject_Z M / 24))%Q).
  { apply fl_pos_pos. apply Qlt_shift_div_l; lra. }
  destruct (Qeq_bool (fl (inject_Z M / 24)) 0) eqn:E.
  - apply Qeq_bool_eq in E. lra.
  - unfold float_mul. apply fl_compat.
    rewrite (float_of_int_exact (Z.of_nat i)) by lia. reflexivity.
Qed.

Lemma sample_bounds (M : Z) (i : nat) :
  24 <= M < 2 ^ 53 -> (i < 24)%nat ->
  (0 <= fl (inject_Z (Z.of_nat i) * fl (inject_Z M / 24)) <= inject_Z M)%Q.
Proof.
  intros HM Hi.
  assert (Pm : (0 < inject_Z M)%Q) by (apply inject_Z_pos; lia).
  assert (Pq : (0 <= inject_Z M / 24)%Q).
  { apply Qle_shift_div_l; lra. }
  destruct (fl_rel _ Pq) as [_ Hu].
  pose proof (fl_nonneg _ Pq) as Hs.
  assert (Pi : (0 <= inject_Z (Z.of_nat i))%Q) by (apply inject_Z_nonneg; lia).
  assert (Pi' : (inject_Z (Z.of_nat i) <= 23)%Q).
  { change 23%Q with (inject_Z 23). rewrite <- Zle_Qle. lia. }
  assert (Hq : (inject_Z M / 24 * 24 == inject_Z M)%Q) by (field).
  assert (U : (u <= 1 # 100)%Q) by (unfold Qle; vm_compute; discriminate).
  pose proof u_pos as U0.
  split.
  - apply fl_nonneg. nra.
  - apply fl_le_representable.
    + apply representable_int. lia.
    + set (q := (inject_Z M / 24)%Q) in *. set (s := fl q) in *.
      set (x := inject_Z (Z.of_nat i)) in *.
      assert (s <= q * (1 + (1 # 100)))%Q by nra.
      nra.
Qed.

Lemma Qfloor_range (x : Q) (a b : Z) :
  (inject_Z a <= x <= inject_Z b)%Q -> a <= Qfloor x <= b.
Proof.
  intros [H1 H2]. split.
  - rewrite <- (Qfloor_Z a). apply Qfloor_resp_le. exact H1.
  - rewrite <- (Qfloor_Z b). apply Qfloor_resp_le. exact H2.
Qed.

(** Every candidate offset lies in [0, max_offset]. *)
Lemma candidate_offsets_range (M : Z) (offsets : list Z) :
  0 <= M < 2 ^ 53 ->
  candidate_offsets M = Ok offsets ->
  Forall (fun x => 0 <= x <= M) offsets.
Proof.
  intros HM H.
  destruct (Z_lt_le_dec M 24) as [Hs|Hl].
  - rewrite candidate_offsets_small in H by lia.
    injection H as <-. apply Forall_forall. intros x Hx.
    apply in_map_iff in Hx. destruct Hx as (i & <- & Hi).
    apply in_seq in Hi. lia.
  - unfold candidate_offsets in H.
    replace (Z.min 25 (M + 1)) with (Z.of_nat 25) in H by lia.
    pose proof (linspace_shape M 24 ltac:(lia)) as Hs.
    remember (seq 0 24) as idx eqn:Hidx.
    rewrite Hs in H. clear Hs.
    assert (E : offsets =
      map (fun i => Qfloor (float_add
                      (scale (float_sub (float_of_int M) (float_of_int 0))
                             (Z.of_nat 24) (float_of_int (Z.of_nat i)))
                      (float_of_int 0))) idx ++ [Qfloor (float_of_int M)])
      by congruence.
    rewrite E. clear E H.
    apply Forall_app. split.
    + apply Forall_forall. intros x Hx.
      apply in_map_iff in Hx. destruct Hx as (i & <- & Hi).
      rewrite Hidx in Hi. apply in_seq in Hi.
      rewrite (scale_large M i) by (try lia; apply float_sub_0_r; lia).
      rewrite (Qfloor_comp _ _ (float_add_0_r _)).
      apply Qfloor_range. apply sample_bounds; lia.
    + constructor; [|constructor].
      rewrite Qfloor_float_of_int by lia. lia.
Qed.

(** *** The crop size *)

Lemma int_truediv_ok (a b : Z) :
  b <> 0 -> int_truediv a b = Ok (fl (inject_Z a / inject_Z b)).
Proof.
  intro H. unfold int_truediv. destruct (Z.eqb_spec b 0); [contradiction | reflexivity].
Qed.

Lemma int_truediv_zero (a : Z) : int_truediv a 0 = Raise ZeroDivisionError.
Proof. reflexivity. Qed.

Lemma Qdiv_pos (a b : Z) : 0 < a -> 0 < b -> (0 < inject_Z a / inject_Z b)%Q.
Proof.
  intros Ha Hb. apply Qlt_shift_div_l.
  - apply inject_Z_pos. exact Hb.
  - rewrite Qmult_0_l. apply inject_Z_pos. exact Ha.
Qed.

Lemma int_of_float_range (x : Q) (a b : Z) :
  0 <= a -> (inject_Z a <= x)%Q -> (x < inject_Z b + 1)%Q ->
  a <= int_of_float x <= b.
Proof.
  intros Ha H1 H2.
  assert (X0 : (0 <= x)%Q) by (pose proof (inject_Z_nonneg a Ha); lra).
  rewrite int_of_float_nonneg by exact X0. split.
  - rewrite <- (Qfloor_Z a). apply Qfloor_resp_le. exact H1.
  - pose proof (Qfloor_le x) as F.
    assert (L : (inject_Z (Qfloor x) < inject_Z (b + 1))%Q).
    { rewrite inject_Z_plus. change (inject_Z 1) with 1%Q. lra. }
    rewrite <- Zlt_Qlt in L. lia.
Qed.

Lemma int_of_float_nonpos (x : Q) : (x <= 0)%Q -> int_of_float x <= 0.
Proof.
  intro H. destruct x as [n d]. unfold int_of_float. simpl.
  assert (n <= 0) by (unfold Qle in H; simpl in H; lia).
  apply Z.quot_le_upper_bound; lia.
Qed.

(** The source is relatively wider: the crop keeps the height, and its width
    fits in the source. *)
Lemma crop_wider_fits (sw sh : Z) (r : Q) :
  0 < sw < 2 ^ 53 -> 0 < sh < 2 ^ 53 ->
  representable r -> (0 <= r)%Q ->
  float_gt (fl (inject_Z sw / inject_Z sh)) r = true ->
  0 <= int_of_float (float_mul (float_of_int sh) r) <= sw.
Proof.
  intros Hw Hh Rr R0 Hgt. apply float_gt_true in Hgt.
  pose proof (inject_Z_pos sh ltac:(lia)) as Ph.
  pose proof (inject_Z_pos sw ltac:(lia)) as Pw.
  (* r cannot exceed the exact source ratio *)
  assert (Hr : (r <= inject_Z sw / inject_Z sh)%Q).
  { apply Qnot_lt_le. intro C.
    pose proof (fl_le_representable (inject_Z sw / inject_Z sh) r Rr
                  (Qlt_le_weak _ _ C)).
    lra. }
  assert (Hp : (inject_Z sh * r <= inject_Z sw)%Q).
  { assert (E : (inject_Z sw / inject_Z sh * inject_Z sh == inject_Z sw)%Q)
      by (field; lra).
    nra. }
  unfold float_mul.
  rewrite (fl_compat (float_of_int sh * r)%Q (inject_Z sh * r)%Q)
    by (rewrite (float_of_int_exact sh) by lia; reflexivity).
  apply int_of_float_range; [lia | |].
  - apply fl_nonneg. nra.
  - pose proof (fl_le_representable _ _ (representable_int sw ltac:(lia)) Hp). lra.
Qed.

Lemma crop_wider_nonpos (sh : Z) (r : Q) :
  0 < sh < 2 ^ 53 -> (r <= 0)%Q ->
  int_of_float (float_mul (float_of_int sh) r) <= 0.
Proof.
  intros Hh R0. apply int_of_float_nonpos.
  pose proof (inject_Z_pos sh ltac:(lia)) as Ph.
  unfold float_mul.
  rewrite (fl_compat (float_of_int sh * r)%Q (inject_Z sh * r)%Q)
    by (rewrite (float_of_int_exact sh) by lia; reflexivity).
  apply fl_le_representable.
  - exists 0, 0. split; [reflexivity | reflexivity].
  - nra.
Qed.

Lemma u_bound : (u <= 1 # 9007199254740992)%Q.
Proof. unfold Qle. vm_compute. discriminate. Qed.

(** The source is not wider: the crop keeps the width, and its height fits in
    the source. *)
Lemma crop_taller_fits (sw sh : Z) (r : Q) :
  0 < sw < 2 ^ 31 -> 0 < sh < 2 ^ 31 ->
  float_gt (fl (inject_Z sw / inject_Z sh)) r = false ->
  exists q, float_div (float_of_int sw) r = Ok q /\
            0 <= int_of_float q <= sh.
Proof.
  intros Hw Hh Hle. apply float_gt_false in Hle.
  pose proof (inject_Z_pos sh ltac:(lia)) as Ph.
  pose proof (inject_Z_pos sw ltac:(lia)) as Pw.
  pose proof (Qdiv_pos sw sh ltac:(lia) ltac:(lia)) as Pq.
  pose proof (fl_pos_pos _ Pq) as Ps.
  destruct (fl_rel _ (Qlt_le_weak _ _ Pq)) as [Hlo _].
  set (s := fl (inject_Z sw / inject_Z sh)) in *.
  assert (Pr : (0 < r)%Q) by lra.
  unfold float_div.
  destruct (Qeq_bool r 0) eqn:E; [apply Qeq_bool_eq in E; lra|].
  eexists. split; [reflexivity|].
  rewrite (fl_compat (float_of_int sw / r)%Q (inject_Z sw / r)%Q)
    by (rewrite (float_of_int_exact sw) by lia; reflexivity).
  assert (Pd : (0 < inject_Z sw / r)%Q).
  { apply Qlt_shift_div_l; lra. }
  destruct (fl_rel _ (Qlt_le_weak _ _ Pd)) as [_ Hup].
  apply int_of_float_range; [lia | |].
  - apply fl_nonneg. lra.
  - (* sw / r <= sw / s <= sh / (1 - u), and one more rounding stays below sh + 1 *)
    assert (Hb : (inject_Z sh < 2147483648)%Q).
    { change 2147483648%Q with (inject_Z (2 ^ 31)). rewrite <- Zlt_Qlt. lia. }
    pose proof u_pos as U0. pose proof u_bound as U1.
    assert (E1 : (inject_Z sw / inject_Z sh * inject_Z sh == inject_Z sw)%Q)
      by (field; lra).
    assert (E2 : (inject_Z sw / r * r == inject_Z sw)%Q) by (field; lra).
    set (q := (inject_Z sw / r)%Q) in *.
    set (e := (inject_Z sw / inject_Z sh)%Q) in *.
    (* q * r = sw = e * sh, r >= s >= e (1 - u) *)
    assert (Pe : (0 < e)%Q) by exact Pq.
    clearbody q e s.
    assert (H0 : (e * (1 - u) <= r)%Q) by lra.
    assert (H1 : (q * (1 - u) <= inject_Z sh)%Q).
    { apply Qnot_lt_le. intro C.
      assert (C1 : (e * inject_Z sh < e * (q * (1 - u)))%Q).
      { apply Qmult_lt_l; assumption. }
      assert (C2 : (q * (e * (1 - u)) <= q * r)%Q).
      { apply Qmult_le_l; assumption. }
      lra. }
    assert (P1 : (0 < 1 - u)%Q) by lra.
    assert (H2 : (fl q * (1 - u) <= inject_Z sh * (1 + u))%Q).
    { assert (C3 : (fl q * (1 - u) <= q * (1 + u) * (1 - u))%Q).
      { apply Qmult_le_compat_r; lra. }
      assert (C4 : (q * (1 - u) * (1 + u) <= inject_Z sh * (1 + u))%Q).
      { apply Qmult_le_compat_r; lra. }
      lra. }
    assert (H3 : (inject_Z sh * (2 * u) < 1 - u)%Q).
    { assert (inject_Z sh * (2 * u) <= 2147483648 * (2 * (1 # 9007199254740992)))%Q.
      { apply Qmult_le_compat_nonneg; split; lra. }
      lra. }
    apply Qnot_le_lt. intro C.
    assert (C5 : ((inject_Z sh + 1) * (1 - u) <= fl q * (1 - u))%Q).
    { apply Qmult_le_compat_r; lra. }
    lra.
Qed.

(** *** The crop size against exact arithmetic *)

Lemma inject_Z_lt_65536 (n : Z) : n < 2 ^ 16 -> (inject_Z n <= 65535)%Q.
Proof.
  intro H. change 65535%Q with (inject_Z 65535). rewrite <- Zle_Qle. lia.
Qed.

Lemma inject_Z_ge_1 (n : Z) : 0 < n -> (1 <= inject_Z n)%Q.
Proof. intro H. change 1%Q with (inject_Z 1). rewrite <- Zle_Qle. lia. Qed.

Lemma inject_Z_sub (a b : Z) : (inject_Z (a - b) == inject_Z a - inject_Z b)%Q.
Proof. unfold Z.sub. rewrite inject_Z_plus, inject_Z_opp. reflexivity. Qed.

(** A quotient of two dimensions. *)
Lemma ratio_facts (a b : Z) :
  0 < a < 2 ^ 16 -> 0 < b < 2 ^ 16 ->
  let q := (inject_Z a / inject_Z b)%Q in
  (q * inject_Z b == inject_Z a)%Q /\ (0 < q)%Q /\ (q <= 65535)%Q.
Proof.
  intros Ha Hb q.
  pose proof (inject_Z_ge_1 b ltac:(lia)) as B1.
  pose proof (inject_Z_ge_1 a ltac:(lia)) as A1.
  pose proof (inject_Z_lt_65536 a ltac:(lia)) as A2.
  assert (E : (q * inject_Z b == inject_Z a)%Q) by (unfold q; field; lra).
  assert (P : (0 < q)%Q) by (apply Qdiv_pos; lia).
  repeat split; try assumption.
  apply Qnot_lt_le. intro C.
  assert (65535 * 1 < q * inject_Z b)%Q.
  { apply Qlt_le_trans with (q * 1)%Q; [lra|].
    apply Qmult_le_l; [exact P | exact B1]. }
  lra.
Qed.

Lemma fl_abs_error (x b : Q) :
  (0 <= x <= b)%Q -> (x - b * u <= fl x)%Q /\ (fl x <= x + b * u)%Q.
Proof.
  intros [H0 Hb]. destruct (fl_rel x H0) as [L U].
  pose proof u_pos as U0.
  assert (x * u <= b * u)%Q by (apply Qmult_le_compat_r; lra).
  split; lra.
Qed.

(** Below 2^16 the rounded ratios compare as the exact ones. *)
Lemma ratio_order_exact (sw sh tw th : Z) :
  0 < sw < 2 ^ 16 -> 0 < sh < 2 ^ 16 -> 0 < tw < 2 ^ 16 -> 0 < th < 2 ^ 16 ->
  float_gt (fl (inject_Z sw / inject_Z sh)) (fl (inject_Z tw / inject_Z th))
  = (sh * tw <? sw * th).
Proof.
  intros Hsw Hsh Htw Hth.
  destruct (ratio_facts sw sh Hsw Hsh) as (Ea & Pa & Ba).
  destruct (ratio_facts tw th Htw Hth) as (Eb & Pb & Bb).
  set (a := (inject_Z sw / inject_Z sh)%Q) in *.
  set (b := (inject_Z tw / inject_Z th)%Q) in *.
  clearbody a b.
  pose proof (inject_Z_ge_1 sh ltac:(lia)) as S1.
  pose proof (inject_Z_ge_1 th ltac:(lia)) as T1.
  pose proof (inject_Z_lt_65536 sh ltac:(lia)) as S2.
  pose proof (inject_Z_lt_65536 th ltac:(lia)) as T2.
  destruct (Z.ltb_spec (sh * tw) (sw * th)) as [L|L].
  - apply float_gt_true.
    (* (a - b) * sh * th = sw * th - sh * tw >= 1 *)
    assert (D : (1 <= inject_Z (sw * th) - inject_Z (sh * tw))%Q).
    { rewrite <- inject_Z_sub. change 1%Q with (inject_Z 1). rewrite <- Zle_Qle. lia. }
    rewrite !inject_Z_mult in D.
    assert (D2 : (1 <= (a - b) * (inject_Z sh * inject_Z th))%Q).
    { assert (E : ((a - b) * (inject_Z sh * inject_Z th) ==
                   a * inject_Z sh * inject_Z th - inject_Z sh * (b * inject_Z th))%Q) by ring.
      rewrite E, Ea, Eb. exact D. }
    assert (M : (inject_Z sh * inject_Z th <= 65535 * 65535)%Q).
    { apply Qmult_le_compat_nonneg; split; lra. }
    assert (Pab : (0 < a - b)%Q).
    { apply Qnot_le_lt. intro C.
      assert (Pst : (0 <= inject_Z sh * inject_Z th)%Q) by (apply Qmult_le_0_compat; lra).
      assert ((a - b) * (inject_Z sh * inject_Z th) <= 0 * (inject_Z sh * inject_Z th))%Q.
      { apply Qmult_le_compat_r; assumption. }
      lra. }
    assert (D3 : (1 <= (a - b) * (65535 * 65535))%Q).
    { apply Qle_trans with ((a - b) * (inject_Z sh * inject_Z th))%Q; [exact D2|].
      apply Qmult_le_l; [exact Pab | exact M]. }
    destruct (fl_abs_error a 65535 (conj (Qlt_le_weak _ _ Pa) Ba)) as [La _].
    destruct (fl_abs_error b 65535 (conj (Qlt_le_weak _ _ Pb) Bb)) as [_ Ub].
    pose proof u_bound as U1. pose proof u_pos as U0.
    lra.
  - apply float_gt_false. apply fl_mono.
    (* a * sh * th <= b * th * sh *)
    assert (D : (inject_Z (sw * th) <= inject_Z (sh * tw))%Q) by (rewrite <- Zle_Qle; lia).
    rewrite !inject_Z_mult in D.
    apply Qnot_lt_le. intro C.
    assert (Pst : (0 < inject_Z sh * inject_Z th)%Q) by (apply Qmult_lt_0_compat; lra).
    assert (C2 : (b * (inject_Z sh * inject_Z th) < a * (inject_Z sh * inject_Z th))%Q).
    { apply Qmult_lt_r; assumption. }
    assert (E1 : (a * (inject_Z sh * inject_Z th) == a * inject_Z sh * inject_Z th)%Q) by ring.
    assert (E2 : (b * (inject_Z sh * inject_Z th) == inject_Z sh * (b * inject_Z th))%Q) by ring.
    rewrite E1, E2, Ea, Eb in C2. lra.
Qed.

(** Truncating a value within 2^-17 of N/d, d < 2^16. *)
Lemma trunc_near (N d : Z) (p : Q) :
  0 <= N -> 0 < d < 2 ^ 16 -> (0 <= p)%Q ->
  (inject_Z N / inject_Z d - (1 # 131072) <= p)%Q ->
  (p <= inject_Z N / inject_Z d + (1 # 131072))%Q ->
  N / d - 1 <= int_of_float p <= N / d /\
  (N mod d <> 0 -> int_of_float p = N / d).
Proof.
  intros HN Hd Hp Hlo Hhi.
  pose proof (Z.div_mod N d ltac:(lia)) as DM.
  pose proof (Z.mod_pos_bound N d ltac:(lia)) as MB.
  set (k := N / d) in *. set (m := N mod d) in *.
  pose proof (inject_Z_ge_1 d ltac:(lia)) as D1.
  pose proof (inject_Z_lt_65536 d ltac:(lia)) as D2.
  assert (E : (inject_Z N / inject_Z d == inject_Z k + inject_Z m / inject_Z d)%Q).
  { rewrite DM. rewrite inject_Z_plus, inject_Z_mult. field. lra. }
  rewrite E in Hlo, Hhi.
  assert (M0 : (0 <= inject_Z m / inject_Z d)%Q).
  { apply Qle_shift_div_l; [lra|]. rewrite Qmult_0_l. apply inject_Z_nonneg. lia. }
  assert (M1 : (inject_Z m / inject_Z d <= 1 - (1 # 65535))%Q).
  { apply Qle_shift_div_r; [lra|].
    assert (inject_Z m <= inject_Z d - 1)%Q.
    { change 1%Q with (inject_Z 1). rewrite <- inject_Z_sub, <- Zle_Qle. lia. }
    nra. }
  assert (K0 : 0 <= k) by (apply Z.div_pos; lia).
  rewrite int_of_float_nonneg by exact Hp.
  assert (Up : Qfloor p <= k).
  { pose proof (Qfloor_le p) as F.
    assert (L : (inject_Z (Qfloor p) < inject_Z (k + 1))%Q).
    { rewrite inject_Z_plus. change (inject_Z 1) with 1%Q. lra. }
    rewrite <- Zlt_Qlt in L. lia. }
  split; [split; [|exact Up]|].
  - destruct (Z.eq_dec k 0) as [K|K].
    + assert (0 <= Qfloor p).
      { rewrite <- (Qfloor_Z 0). apply Qfloor_resp_le. exact Hp. }
      lia.
    + rewrite <- (Qfloor_Z (k - 1)). apply Qfloor_resp_le.
      rewrite inject_Z_sub. change (inject_Z 1) with 1%Q. lra.
  - intro Hm.
    assert (M2 : (1 # 65535 <= inject_Z m / inject_Z d)%Q).
    { apply Qle_shift_div_l; [lra|].
      assert (1 <= inject_Z m)%Q by (apply inject_Z_ge_1; fold m in Hm; lia).
      nra. }
    assert (k <= Qfloor p); [|lia].
    rewrite <- (Qfloor_Z k). apply Qfloor_resp_le. lra.
Qed.

Lemma exact_order (sw sh tw th : Z) :
  0 < sh -> 0 < th ->
  negb (Qle_bool (inject_Z sw / inject_Z sh) (inject_Z tw / inject_Z th))
  = (sh * tw <? sw * th).
Proof.
  intros Hsh Hth.
  pose proof (inject_Z_pos sh Hsh) as S1. pose proof (inject_Z_pos th Hth) as T1.
  assert (Pst : (0 < inject_Z sh * inject_Z th)%Q) by (apply Qmult_lt_0_compat; lra).
  assert (Ea : (inject_Z sw / inject_Z sh * (inject_Z sh * inject_Z th)
                == inject_Z (sw * th))%Q) by (rewrite inject_Z_mult; field; lra).
  assert (Eb : (inject_Z tw / inject_Z th * (inject_Z sh * inject_Z th)
                == inject_Z (sh * tw))%Q) by (rewrite inject_Z_mult; field; lra).
  destruct (Z.ltb_spec (sh * tw) (sw * th)) as [L|L].
  - apply negb_true_iff. destruct (Qle_bool _ _) eqn:E; [|reflexivity].
    apply Qle_bool_iff in E.
    assert (C : (inject_Z sw / inject_Z sh * (inject_Z sh * inject_Z th) <=
                 inject_Z tw / inject_Z th * (inject_Z sh * inject_Z th))%Q).
    { apply Qmult_le_compat_r; [exact E | lra]. }
    rewrite Ea, Eb in C. rewrite <- Zle_Qle in C. lia.
  - apply negb_false_iff. apply Qle_bool_iff.
    apply Qnot_lt_le. intro C.
    assert (C2 : (inject_Z tw / inject_Z th * (inject_Z sh * inject_Z th) <
                  inject_Z sw / inject_Z sh * (inject_Z sh * inject_Z th))%Q).
    { apply Qmult_lt_r; assumption. }
    rewrite Ea, Eb in C2. rewrite <- Zlt_Qlt in C2. lia.
Qed.

Lemma int_of_float_quotient (N d : Z) (x : Q) :
  0 <= N -> 0 < d -> (x == inject_Z N / inject_Z d)%Q -> int_of_float x = N / d.
Proof.
  intros HN Hd E.
  assert (X0 : (0 <= x)%Q).
  { rewrite E. apply Qle_shift_div_l; [apply inject_Z_pos; exact Hd|].
    rewrite Qmult_0_l. apply inject_Z_nonneg. exact HN. }
  rewrite int_of_float_nonneg by exact X0.
  rewrite (Qfloor_comp _ _ E). symmetry. apply Zdiv_Qdiv.
Qed.

Lemma spec_crop_size_eq (sw sh tw th : Z) :
  0 < sw -> 0 < sh -> 0 < tw -> 0 < th ->
  spec_crop_size sw sh tw th =
  if sh * tw <? sw * th then (sh * tw / th, sh) else (sw, sw * th / tw).
Proof.
  intros Hsw Hsh Htw Hth. unfold spec_crop_size.
  rewrite exact_order by assumption.
  pose proof (inject_Z_pos th Hth) as T1. pose proof (inject_Z_pos tw Htw) as T2.
  destruct (sh * tw <? sw * th).
  - f_equal. apply int_of_float_quotient; [lia | lia |].
    rewrite inject_Z_mult. field. lra.
  - f_equal. apply int_of_float_quotient; [lia | lia |].
    rewrite inject_Z_mult. field. split; lra.
Qed.

Lemma eps_bound : (17179869184 * u <= 1 # 131072)%Q.
Proof. unfold Qle. vm_compute. discriminate. Qed.

(** The rounded product behind the crop width. *)
Lemma wider_error (sh tw th : Z) :
  0 < sh < 2 ^ 16 -> 0 < tw < 2 ^ 16 -> 0 < th < 2 ^ 16 ->
  let p := float_mul (float_of_int sh) (fl (inject_Z tw / inject_Z th)) in
  (0 <= p)%Q /\
  (inject_Z (sh * tw) / inject_Z th - (1 # 131072) <= p)%Q /\
  (p <= inject_Z (sh * tw) / inject_Z th + (1 # 131072))%Q.
Proof.
  intros Hsh Htw Hth p.
  destruct (ratio_facts tw th Htw Hth) as (Eb & Pb & Bb).
  set (b := (inject_Z tw / inject_Z th)%Q) in *.
  pose proof (inject_Z_ge_1 sh ltac:(lia)) as S1.
  pose proof (inject_Z_lt_65536 sh ltac:(lia)) as S2.
  pose proof (inject_Z_pos th ltac:(lia)) as T1.
  assert (EE : (inject_Z (sh * tw) / inject_Z th == inject_Z sh * b)%Q).
  { unfold b. rewrite inject_Z_mult. field. lra. }
  rewrite EE.
  destruct (fl_abs_error b 65535 (conj (Qlt_le_weak _ _ Pb) Bb)) as [Lr Ur].
  pose proof (fl_nonneg b (Qlt_le_weak _ _ Pb)) as R0.
  set (r := fl b) in *.
  assert (Hp : p = fl (inject_Z sh * r)).
  { unfold p, float_mul. apply fl_compat.
    rewrite (float_of_int_exact sh) by lia. reflexivity. }
  rewrite Hp. clear Hp p. clearbody r b.
  pose proof u_pos as U0. pose proof u_bound as U1. pose proof eps_bound as EB.
  set (x := (inject_Z sh * r)%Q).
  assert (X0 : (0 <= x)%Q) by (apply Qmult_le_0_compat; lra).
  assert (Xl : (inject_Z sh * b - 65535 * (65535 * u) <= x)%Q).
  { assert (inject_Z sh * (b - 65535 * u) <= inject_Z sh * r)%Q
      by (apply Qmult_le_l; lra).
    assert (inject_Z sh * (65535 * u) <= 65535 * (65535 * u))%Q
      by (apply Qmult_le_compat_r; [lra|]; apply Qmult_le_0_compat; lra).
    unfold x. lra. }
  assert (Xu : (x <= inject_Z sh * b + 65535 * (65535 * u))%Q).
  { assert (inject_Z sh * r <= inject_Z sh * (b + 65535 * u))%Q
      by (apply Qmult_le_l; lra).
    assert (inject_Z sh * (65535 * u) <= 65535 * (65535 * u))%Q
      by (apply Qmult_le_compat_r; [lra|]; apply Qmult_le_0_compat; lra).
    unfold x. lra. }
  assert (Eu : (inject_Z sh * b <= 65535 * 65535)%Q).
  { apply Qmult_le_compat_nonneg; split; lra. }
  assert (Xb : (x <= 4294967296)%Q) by lra.
  destruct (fl_abs_error x 4294967296 (conj X0 Xb)) as [Lp Up].
  clearbody x. split; [apply fl_nonneg; exact X0|]. split; lra.
Qed.

(** The rounded quotient behind the crop height. *)
Lemma taller_error (sw tw th : Z) :
  0 < sw < 2 ^ 16 -> 0 < tw < 2 ^ 16 -> 0 < th < 2 ^ 16 ->
  exists p,
    float_div (float_of_int sw) (fl (inject_Z tw / inject_Z th)) = Ok p /\
    (0 <= p)%Q /\
    (inject_Z (sw * th) / inject_Z tw - (1 # 131072) <= p)%Q /\
    (p <= inject_Z (sw * th) / inject_Z tw + (1 # 131072))%Q.
Proof.
  intros Hsw Htw Hth.
  destruct (ratio_facts tw th Htw Hth) as (Eb & Pb & Bb).
  set (b := (inject_Z tw / inject_Z th)%Q) in *.
  pose proof (inject_Z_ge_1 sw ltac:(lia)) as S1.
  pose proof (inject_Z_lt_65536 sw ltac:(lia)) as S2.
  pose proof (inject_Z_ge_1 th ltac:(lia)) as T1.
  pose proof (inject_Z_lt_65536 th ltac:(lia)) as T2.
  pose proof (inject_Z_ge_1 tw ltac:(lia)) as W1.
  destruct (fl_rel b (Qlt_le_weak _ _ Pb)) as [Lr Ur].
  pose proof (fl_pos_pos b Pb) as R0.
  set (r := fl b) in *.
  set (E := (inject_Z (sw * th) / inject_Z tw)%Q).
  assert (EE : (E * b == inject_Z sw)%Q).
  { unfold E, b. rewrite inject_Z_mult. field. split; lra. }
  assert (E0 : (0 < E)%Q).
  { unfold E. apply Qlt_shift_div_l; [lra|]. rewrite Qmult_0_l, inject_Z_mult.
    apply Qmult_lt_0_compat; lra. }
  assert (Eu : (E <= 65535 * 65535)%Q).
  { unfold E. apply Qle_shift_div_r; [lra|]. rewrite inject_Z_mult.
    assert (inject_Z sw * inject_Z th <= 65535 * 65535)%Q
      by (apply Qmult_le_compat_nonneg; split; lra).
    assert (65535 * 65535 * 1 <= 65535 * 65535 * inject_Z tw)%Q
      by (apply Qmult_le_l; [reflexivity | lra]).
    lra. }
  unfold float_div. destruct (Qeq_bool r 0) eqn:Z0; [apply Qeq_bool_eq in Z0; lra|].
  eexists. split; [reflexivity|].
  rewrite (fl_compat (float_of_int sw / r)%Q (inject_Z sw / r)%Q)
    by (rewrite (float_of_int_exact sw) by lia; reflexivity).
  set (x := (inject_Z sw / r)%Q).
  assert (Ex : (x * r == inject_Z sw)%Q) by (unfold x; field; lra).
  assert (X0 : (0 < x)%Q) by (unfold x; apply Qlt_shift_div_l; lra).
  pose proof u_pos as U0. pose proof u_bound as U1. pose proof eps_bound as EB.
  clearbody x E r b.
  (* x (1 - u) <= E <= x (1 + u) *)
  assert (X1 : (x * (1 - u) <= E)%Q).
  { apply Qnot_lt_le. intro C.
    assert (C1 : (E * b < x * (1 - u) * b)%Q) by (apply Qmult_lt_r; assumption).
    assert (C2 : (x * (b * (1 - u)) <= x * r)%Q) by (apply Qmult_le_l; assumption).
    lra. }
  assert (X2 : (E <= x * (1 + u))%Q).
  { apply Qnot_lt_le. intro C.
    assert (C1 : (x * (1 + u) * b < E * b)%Q) by (apply Qmult_lt_r; assumption).
    assert (C2 : (x * r <= x * (b * (1 + u)))%Q) by (apply Qmult_le_l; assumption).
    lra. }
  assert (Xb : (x <= 8589934592)%Q).
  { assert (x * (1 # 2) <= x * (1 - u))%Q by (apply Qmult_le_l; lra). lra. }
  assert (Xu : (x * u <= 8589934592 * u)%Q) by (apply Qmult_le_compat_r; lra).
  destruct (fl_abs_error x 8589934592 (conj (Qlt_le_weak _ _ X0) Xb)) as [Lp Up].
  split; [apply fl_nonneg; lra|]. split; lra.
Qed.

(** Claim C1, amended.  For dimensions from 1 to 65535 the branch is the one
    the exact ratios select, the kept dimension is the source's, and the other
    one is computed in binary64, [int(crop_h * target_ratio)] or
    [int(crop_w / target_ratio)] with [target_ratio] the rounded quotient: it
    is the floor of the exact value or one below it, and the floor itself
    whenever the exact value is not an integer. *)
Theorem crop_size_binary64 (src_w src_h target_w target_h : Z) :
  0 < src_w < 2 ^ 16 -> 0 < src_h < 2 ^ 16 ->
  0 < target_w < 2 ^ 16 -> 0 < target_h < 2 ^ 16 ->
  exists crop_w crop_h,
    crop_size src_w src_h target_w target_h = Ok (crop_w, crop_h) /\
    if src_h * target_w <? src_w * target_h then
      spec_crop_size src_w src_h target_w target_h
        = (src_h * target_w / target_h, src_h) /\
      crop_h = src_h /\
      crop_w = int_of_float (float_mul (float_of_int src_h)
                               (fl (inject_Z target_w / inject_Z target_h))) /\
      src_h * target_w / target_h - 1 <= crop_w <= src_h * target_w / target_h /\
      ((src_h * target_w) mod target_h <> 0 ->
       crop_w = src_h * target_w / target_h)
    else
      spec_crop_size src_w src_h target_w target_h
        = (src_w, src_w * target_h / target_w) /\
      crop_w = src_w /\
      float_div (float_of_int src_w) (fl (inject_Z target_w / inject_Z target_h))
        = Ok (fl (float_of_int src_w / fl (inject_Z target_w / inject_Z target_h))) /\
      crop_h = int_of_float
                 (fl (float_of_int src_w / fl (inject_Z target_w / inject_Z target_h))) /\
      src_w * target_h / target_w - 1 <= crop_h <= src_w * target_h / target_w /\
      ((src_w * target_h) mod target_w <> 0 ->
       crop_h = src_w * target_h / target_w).
Proof.
  intros Hsw Hsh Htw Hth.
  unfold crop_size.
  rewrite (int_truediv_ok target_w target_h) by lia.
  rewrite (int_truediv_ok src_w src_h) by lia.
  cbn [bind]. unfold crop_size_of.
  rewrite (ratio_order_exact src_w src_h target_w target_h) by assumption.
  rewrite (spec_crop_size_eq src_w src_h target_w target_h) by lia.
  destruct (src_h * target_w <? src_w * target_h).
  - destruct (wider_error src_h target_w target_h Hsh Htw Hth) as (P0 & Lo & Hi).
    destruct (trunc_near (src_h * target_w) target_h _ ltac:(lia) Hth P0 Lo Hi)
      as [Hr Hm].
    eexists _, _. split; [reflexivity|].
    repeat split; try assumption; lia.
  - destruct (taller_error src_w target_w target_h Hsw Htw Hth)
      as (p & Hp & P0 & Lo & Hi).
    destruct (trunc_near (src_w * target_h) target_w _ ltac:(lia) Htw P0 Lo Hi)
      as [Hr Hm].
    rewrite Hp. cbn [bind].
    assert (Hq : p = fl (float_of_int src_w / fl (inject_Z target_w / inject_Z target_h))).
    { unfold float_div in Hp. destruct (Qeq_bool _ 0); [discriminate|]. congruence. }
    eexists _, _. split; [reflexivity|].
    rewrite <- Hq.
    repeat split; try assumption; try lia.
Qed.

(** *** The candidate offsets increase *)

Lemma chain_lt (g : nat -> Z) (a n : nat) :
  (forall i, (a <= i)%nat -> (S i < a + n)%nat -> g i < g (S i)) ->
  forall j, (a < j)%nat -> (j < a + n)%nat -> g a < g j.
Proof.
  intros H j. induction j as [|j IH]; intros Ha Hj; [lia|].
  destruct (Nat.eq_dec a j) as [->|Hne].
  - apply H; lia.
  - apply Z.lt_trans with (g j); [apply IH; lia | apply H; lia].
Qed.

Lemma sorted_map_seq (g : nat -> Z) (n a : nat) :
  (forall i, (a <= i)%nat -> (S i < a + n)%nat -> g i < g (S i)) ->
  StronglySorted Z.lt (map g (seq a n)).
Proof.
  revert a. induction n as [|n IH]; intros a H; cbn [seq map]; constructor.
  - apply IH. intros i Hi Hs. apply H; lia.
  - apply Forall_forall. intros y Hy. apply in_map_iff in Hy.
    destruct Hy as (j & <- & Hj). apply in_seq in Hj.
    apply (chain_lt g a (S n)); [exact H | lia | lia].
Qed.

Lemma sorted_snoc (l : list Z) (m : Z) :
  StronglySorted Z.lt l -> Forall (fun x => x < m) l ->
  StronglySorted Z.lt (l ++ [m]).
Proof.
  induction 1 as [|a l Hs IH Ha]; intro Hm; cbn [app].
  - repeat constructor.
  - inversion Hm; subst. constructor; [apply IH; assumption|].
    apply Forall_app. split; [exact Ha | constructor; [assumption | constructor]].
Qed.

Lemma step_facts (M : Z) :
  25 <= M < 2 ^ 31 ->
  let step := fl (inject_Z M / 24) in
  (33 # 32 <= step)%Q /\ (23 * step <= inject_Z M - 1)%Q.
Proof.
  intros HM step.
  assert (Pm : (25 <= inject_Z M)%Q).
  { change 25%Q with (inject_Z 25). rewrite <- Zle_Qle. lia. }
  assert (Bm : (inject_Z M <= 2147483648)%Q).
  { change 2147483648%Q with (inject_Z (2 ^ 31)). rewrite <- Zle_Qle. lia. }
  assert (Eq : (inject_Z M / 24 * 24 == inject_Z M)%Q) by field.
  set (q := (inject_Z M / 24)%Q) in *.
  assert (Q0 : (0 <= q)%Q) by lra.
  destruct (fl_rel q Q0) as [_ Hu]. fold step in Hu.
  pose proof u_pos as U0. pose proof u_bound as U1.
  split.
  - apply fl_ge_representable.
    + exists 33, (-5). split; reflexivity.
    + lra.
  - assert (q * u <= 2147483648 * u)%Q by (apply Qmult_le_compat_r; lra).
    lra.
Qed.

Lemma sample_step (M : Z) (i : nat) :
  25 <= M < 2 ^ 31 -> (S i < 24)%nat ->
  Qfloor (fl (inject_Z (Z.of_nat i) * fl (inject_Z M / 24))) <
  Qfloor (fl (inject_Z (Z.of_nat (S i)) * fl (inject_Z M / 24))).
Proof.
  intros HM Hi.
  destruct (step_facts M HM) as [S1 S2].
  pose proof (sample_bounds M i ltac:(lia) ltac:(lia)) as [B0 B1].
  set (step := fl (inject_Z M / 24)) in *.
  set (x := (inject_Z (Z.of_nat i) * step)%Q) in *.
  assert (I0 : (0 <= inject_Z (Z.of_nat i))%Q) by (apply inject_Z_nonneg; lia).
  assert (I1 : (inject_Z (Z.of_nat i) <= 23)%Q).
  { change 23%Q with (inject_Z 23). rewrite <- Zle_Qle. lia. }
  assert (Bm : (inject_Z M <= 2147483648)%Q).
  { change 2147483648%Q with (inject_Z (2 ^ 31)). rewrite <- Zle_Qle. lia. }
  assert (X0 : (0 <= x)%Q) by (apply Qmult_le_0_compat; lra).
  assert (X1 : (x <= 2147483648)%Q).
  { assert (x <= 23 * step)%Q by (apply Qmult_le_compat_r; lra). lra. }
  destruct (fl_abs_error x 2147483648 (conj X0 X1)) as [_ Ux].
  pose proof u_pos as U0. pose proof u_bound as U1.
  pose proof (Qfloor_le (fl x)) as F.
  set (k := Qfloor (fl x)) in *.
  assert (K0 : 0 <= k).
  { unfold k. rewrite <- (Qfloor_Z 0). apply Qfloor_resp_le. exact B0. }
  assert (K1 : k <= M).
  { unfold k. rewrite <- (Qfloor_Z M). apply Qfloor_resp_le. exact B1. }
  assert (E : (inject_Z (Z.of_nat (S i)) * step == x + step)%Q).
  { unfold x. rewrite Nat2Z.inj_succ. unfold Z.succ. rewrite inject_Z_plus. ring. }
  assert (G : (inject_Z (k + 1) <= fl (inject_Z (Z.of_nat (S i)) * step))%Q).
  { apply fl_ge_representable.
    - apply representable_int. lia.
    - rewrite E, inject_Z_plus. change (inject_Z 1) with 1%Q. lra. }
  assert (k + 1 <= Qfloor (fl (inject_Z (Z.of_nat (S i)) * step))).
  { rewrite <- (Qfloor_Z (k + 1)). apply Qfloor_resp_le. exact G. }
  lia.
Qed.

Lemma sample_below_last (M : Z) (i : nat) :
  25 <= M < 2 ^ 31 -> (i < 24)%nat ->
  Qfloor (fl (inject_Z (Z.of_nat i) * fl (inject_Z M / 24))) < M.
Proof.
  intros HM Hi.
  destruct (step_facts M HM) as [S1 S2].
  set (step := fl (inject_Z M / 24)) in *.
  assert (I1 : (inject_Z (Z.of_nat i) <= 23)%Q).
  { change 23%Q with (inject_Z 23). rewrite <- Zle_Qle. lia. }
  assert (X : (inject_Z (Z.of_nat i) * step <= inject_Z (M - 1))%Q).
  { assert (inject_Z (Z.of_nat i) * step <= 23 * step)%Q
      by (apply Qmult_le_compat_r; lra).
    rewrite inject_Z_sub. change (inject_Z 1) with 1%Q. lra. }
  pose proof (fl_le_representable _ _ (representable_int (M - 1) ltac:(lia)) X) as Y.
  assert (Qfloor (fl (inject_Z (Z.of_nat i) * step)) <= M - 1).
  { rewrite <- (Qfloor_Z (M - 1)). apply Qfloor_resp_le. exact Y. }
  lia.
Qed.

(** The candidate offsets are strictly increasing. *)
Lemma candidate_offsets_increasing (M : Z) (offsets : list Z) :
  0 <= M < 2 ^ 31 ->
  candidate_offsets M = Ok offsets ->
  StronglySorted Z.lt offsets.
Proof.
  intros HM H.
  destruct (Z_lt_le_dec M 25) as [Hs|Hl].
  - rewrite candidate_offsets_small in H by lia.
    injection H as <-. apply sorted_map_seq. intros i _ _. lia.
  - unfold candidate_offsets in H.
    replace (Z.min 25 (M + 1)) with (Z.of_nat 25) in H by lia.
    pose proof (linspace_shape M 24 ltac:(lia)) as Hs.
    remember (seq 0 24) as idx eqn:Hidx.
    rewrite Hs in H. clear Hs.
    set (g := fun i : nat => Qfloor (fl (inject_Z (Z.of_nat i) * fl (inject_Z M / 24)))).
    assert (E : offsets = map g idx ++ [M]).
    { assert (E0 : offsets =
        map (fun i => Qfloor (float_add
                      (scale (float_sub (float_of_int M) (float_of_int 0))
                             (Z.of_nat 24) (float_of_int (Z.of_nat i)))
                      (float_of_int 0))) idx ++ [Qfloor (float_of_int M)])
        by congruence.
      rewrite E0. rewrite Qfloor_float_of_int by lia. f_equal.
      apply map_ext_in. intros i Hi. rewrite Hidx in Hi. apply in_seq in Hi.
      rewrite (scale_large M i) by (try lia; apply float_sub_0_r; lia).
      unfold g. apply Qfloor_comp. apply float_add_0_r. }
    rewrite E, Hidx. apply sorted_snoc.
    + apply sorted_map_seq. intros i _ Hi. apply sample_step; lia.
    + apply Forall_forall. intros y Hy. apply in_map_iff in Hy.
      destruct Hy as (i & <- & Hi). apply in_seq in Hi.
      apply sample_below_last; lia.
Qed.

(** *** The search loop *)

Lemma search_in (score_at : Z -> score) (offsets : list Z) (best : Z) (bs : score) :
  In (search score_at offsets best bs) (best :: offsets).
Proof.
  revert best bs. induction offsets as [|x rest IH]; intros best bs; simpl.
  - left. reflexivity.
  - destruct (score_gt (score_at x) bs).
    + right. apply IH.
    + destruct (IH best bs) as [H|H]; [left; exact H | right; right; exact H].
Qed.

Lemma score_gt_fin (a b : R) : score_gt (Fin a) (Fin b) = true <-> (b < a)%R.
Proof.
  simpl. destruct (Rlt_dec b a); split; intro H; try reflexivity; try assumption.
  - discriminate.
  - contradiction.
Qed.

Lemma score_gt_fin_false (a b : R) : score_gt (Fin a) (Fin b) = false <-> (a <= b)%R.
Proof.
  simpl. destruct (Rlt_dec b a); split; intro H; try reflexivity; try discriminate; Lra.lra.
Qed.

(** The loop invariant: started from a running best [b] with score [rb], the
    loop either keeps [b], when no later candidate is strictly better, or
    stops at the first candidate that nothing before it matches and nothing
    after it beats. *)
Lemma search_running (score_at : Z -> score) (offsets : list Z) (b : Z) (rb : R) :
  (forall x, In x offsets -> exists r, score_at x = Fin r) ->
  let best := search score_at offsets b (Fin rb) in
  (best = b /\
   forall x, In x offsets -> score_gt (score_at x) (Fin rb) = false) \/
  (exists before after rbest,
     offsets = before ++ best :: after /\
     score_at best = Fin rbest /\ (rb < rbest)%R /\
     (forall x, In x before -> score_gt (Fin rbest) (score_at x) = true) /\
     (forall x, In x after -> score_gt (score_at x) (Fin rbest) = false)).
Proof.
  revert b rb. induction offsets as [|x rest IH]; intros b rb Hfin; simpl.
  - left. split; [reflexivity | intros x []].
  - destruct (Hfin x (or_introl eq_refl)) as [r Hr].
    assert (Hrest : forall y, In y rest -> exists r, score_at y = Fin r).
    { intros y Hy. apply Hfin. right. exact Hy. }
    rewrite Hr. destruct (score_gt (Fin r) (Fin rb)) eqn:G.
    + apply score_gt_fin in G. right.
      destruct (IH x r Hrest) as [[E Hall]|(before & after & rbest & E & Hb & Hlt & H1 & H2)].
      * exists [], rest, r. rewrite E. simpl. repeat split; try assumption.
        intros y [].
      * exists (x :: before), after, rbest. simpl. rewrite <- E.
        repeat split; try assumption; try Lra.lra.
        intros y [<-|Hy]; [|apply H1; exact Hy].
        rewrite Hr. apply score_gt_fin. exact Hlt.
    + apply score_gt_fin_false in G.
      destruct (IH b rb Hrest) as [[E Hall]|(before & after & rbest & E & Hb & Hlt & H1 & H2)].
      * left. split; [exact E|].
        intros y [<-|Hy]; [|apply Hall; exact Hy].
        rewrite Hr. apply score_gt_fin_false. exact G.
      * right. exists (x :: before), after, rbest. simpl. rewrite <- E.
        repeat split; try assumption.
        intros y [<-|Hy]; [|apply H1; exact Hy].
        rewrite Hr. apply score_gt_fin. Lra.lra.
Qed.

Lemma sorted_after (before after : list Z) (b : Z) :
  StronglySorted Z.lt (before ++ b :: after) ->
  forall x, In x after -> b < x.
Proof.
  induction before as [|a before IH]; simpl; intros H x Hx.
  - inversion H as [|? ? _ Hall]; subst.
    rewrite Forall_forall in Hall. apply Hall. exact Hx.
  - inversion H; subst. apply IH; assumption.
Qed.

(** Over increasing offsets whose scores are numbers, the loop returns the
    first candidate of maximum score: no candidate scores strictly higher,
    and a candidate that the winner does not strictly beat lies at the same
    or a higher offset. *)
Lemma search_first_maximum (score_at : Z -> score) (offsets : list Z) :
  offsets <> [] ->
  StronglySorted Z.lt offsets ->
  (forall x, In x offsets -> exists r, score_at x = Fin r) ->
  let best := search score_at offsets 0 NegInf in
  In best offsets /\
  (forall x, In x offsets -> score_gt (score_at x) (score_at best) = false) /\
  (forall x, In x offsets ->
     score_gt (score_at best) (score_at x) = false -> best <= x).
Proof.
  intros Hne Hsorted Hfin.
  destruct offsets as [|x0 rest]; [contradiction|]. clear Hne.
  destruct (Hfin x0 (or_introl eq_refl)) as [r0 Hr0].
  assert (Hrest : forall y, In y rest -> exists r, score_at y = Fin r).
  { intros y Hy. apply Hfin. right. exact Hy. }
  cbn [search]. rewrite Hr0. cbn [score_gt].
  destruct (search_running score_at rest x0 r0 Hrest)
    as [[E Hall]|(before & after & rbest & E & Hb & Hlt & H1 & H2)].
  - (* the first candidate stays the best *)
    cbv zeta. rewrite E. rewrite Hr0. repeat split.
    + left. reflexivity.
    + intros x [<-|Hx].
      * rewrite Hr0. apply score_gt_fin_false. Lra.lra.
      * apply Hall. exact Hx.
    + intros x [<-|Hx] _; [lia|].
      inversion Hsorted as [|? ? _ Hlt0]; subst.
      rewrite Forall_forall in Hlt0. apply Z.lt_le_incl. apply Hlt0. exact Hx.
  - cbv zeta. set (best := search score_at rest x0 (Fin r0)) in *.
    rewrite Hb. repeat split.
    + right. rewrite E. apply in_or_app. right. left. reflexivity.
    + intros x [<-|Hx].
      * rewrite Hr0. apply score_gt_fin_false. Lra.lra.
      * rewrite E in Hx. apply in_app_or in Hx. destruct Hx as [Hx|[<-|Hx]].
        -- destruct (Hrest x) as [r Hr].
           { rewrite E. apply in_or_app. left. exact Hx. }
           specialize (H1 x Hx). rewrite Hr in *.
           apply score_gt_fin in H1. apply score_gt_fin_false. Lra.lra.
        -- rewrite Hb. apply score_gt_fin_false. Lra.lra.
        -- apply H2. exact Hx.
    + intros x Hx Htie.
      destruct Hx as [<-|Hx].
      * rewrite Hr0 in Htie. apply score_gt_fin_false in Htie. Lra.lra.
      * rewrite E in Hx. apply in_app_or in Hx. destruct Hx as [Hx|[<-|Hx]].
        -- rewrite (H1 x Hx) in Htie. discriminate.
        -- lia.
        -- apply Z.lt_le_incl.
           apply (sorted_after (x0 :: before) after best); [|exact Hx].
           simpl. rewrite <- E. exact Hsorted.
Qed.

(** *** smart_crop_resize *)

Lemma linspace_ok (stop num : Z) :
  0 <= num -> exists l, linspace stop num = Ok l.
Proof.
  intro H. unfold linspace.
  destruct (Z.ltb_spec num 0); [lia|]. eexists. reflexivity.
Qed.

Lemma candidate_offsets_ok (M : Z) :
  -1 <= M -> exists l, candidate_offsets M = Ok l.
Proof. intro H. apply linspace_ok. lia. Qed.

(** Claim C2.  When the computed crop size is the full source size, the result
    is the full source resampled directly to (target_w, target_h): no crop
    and no candidate search stands behind it. *)
Theorem fast_path_resamples_source (image : Image) (target_w target_h : Z) :
  crop_size (width image) (height image) target_w target_h
    = Ok (width image, height image) ->
  smart_crop_resize image target_w target_h
    = Ok (Resize (ConvertRGB image) (target_w, target_h) LANCZOS).
Proof.
  unfold crop_size, smart_crop_resize.
  destruct (int_truediv target_w target_h) as [r|e]; [|discriminate].
  destruct (int_truediv (width image) (height image)) as [s|e]; [|discriminate].
  cbn [bind]. intro H. rewrite H. cbn [bind].
  rewrite !Z.eqb_refl. reflexivity.
Qed.

(** With a positive target ratio the call reaches Pillow's [resize], on a
    window inside the source. *)
Lemma resize_positive_ratio (image : Image) (target_w target_h : Z) :
  0 < width image < 2 ^ 31 -> 0 < height image < 2 ^ 31 ->
  target_h <> 0 -> (0 < fl (inject_Z target_w / inject_Z target_h))%Q ->
  exists p x y w h,
    smart_crop_resize image target_w target_h = Ok p /\
    (exists q, p = Resize q (target_w, target_h) LANCZOS) /\
    window_of p = Some (x, y, w, h) /\
    crop_size (width image) (height image) target_w target_h = Ok (w, h) /\
    0 <= x /\ 0 <= y /\ x + w <= width image /\ y + h <= height image.
Proof.
  intros Hw Hh Hth Pr0.
  unfold smart_crop_resize, crop_size.
  rewrite (int_truediv_ok target_w target_h) by lia.
  rewrite (int_truediv_ok (width image) (height image)) by lia.
  cbn [bind]. unfold crop_size_of.
  set (r := fl (inject_Z target_w / inject_Z target_h)).
  set (s := fl (inject_Z (width image) / inject_Z (height image))).
  assert (Rr : representable r) by apply fl_representable.
  assert (Pr : (0 < r)%Q) by exact Pr0.
  assert (B1 : 2 ^ 31 < 2 ^ 53) by reflexivity.
  destruct (float_gt s r) eqn:G.
  - (* reduction along x *)
    pose proof (crop_wider_fits (width image) (height image) r
                  ltac:(lia) ltac:(lia) Rr (Qlt_le_weak _ _ Pr) G) as Hc.
    set (cw := int_of_float (float_mul (float_of_int (height image)) r)) in *.
    cbn [bind].
    destruct ((cw =? width image) && (height image =? height image)) eqn:F.
    + apply andb_prop in F. destruct F as [F _]. apply Z.eqb_eq in F.
      exists (Resize (ConvertRGB image) (target_w, target_h) LANCZOS),
        0, 0, (width image), (height image).
      rewrite F. repeat split; try lia. eexists; reflexivity.
    + destruct (candidate_offsets_ok (width image - cw) ltac:(lia)) as [l Hl].
      pose proof (candidate_offsets_range (width image - cw) l ltac:(lia) Hl) as Hrange.
      rewrite Hl. cbn [bind].
      set (best := search _ l 0 NegInf).
      assert (Hb : 0 <= best <= width image - cw).
      { pose proof (search_in (fun x => _score_crop (columns (luma image) x cw))
                      l 0 NegInf) as Hin.
        fold best in Hin. destruct Hin as [<-|Hin]; [lia|].
        rewrite Forall_forall in Hrange. apply Hrange. exact Hin. }
      exists (Resize (Crop (ConvertRGB image) (best, 0, best + cw, height image))
                (target_w, target_h) LANCZOS), best, 0, cw, (height image).
      cbn [window_of].
      replace (best + cw - best) with cw by lia.
      replace (height image - 0) with (height image) by lia.
      repeat split; try lia. eexists; reflexivity.
  - (* reduction along y *)
    destruct (crop_taller_fits (width image) (height image) r Hw Hh G)
      as (q & Hq & Hc).
    rewrite Hq. cbn [bind].
    set (ch := int_of_float q) in *.
    destruct ((width image =? width image) && (ch =? height image)) eqn:F.
    + apply andb_prop in F. destruct F as [_ F]. apply Z.eqb_eq in F.
      exists (Resize (ConvertRGB image) (target_w, target_h) LANCZOS),
        0, 0, (width image), (height image).
      rewrite F. repeat split; try lia. eexists; reflexivity.
    + destruct (candidate_offsets_ok (height image - ch) ltac:(lia)) as [l Hl].
      pose proof (candidate_offsets_range (height image - ch) l ltac:(lia) Hl) as Hrange.
      rewrite Hl. cbn [bind].
      set (best := search _ l 0 NegInf).
      assert (Hb : 0 <= best <= height image - ch).
      { pose proof (search_in (fun y => _score_crop (rows (luma image) y ch))
                      l 0 NegInf) as Hin.
        fold best in Hin. destruct Hin as [<-|Hin]; [lia|].
        rewrite Forall_forall in Hrange. apply Hrange. exact Hin. }
      exists (Resize (Crop (ConvertRGB image) (0, best, width image, best + ch))
                (target_w, target_h) LANCZOS), 0, best, (width image), ch.
      cbn [window_of].
      replace (best + ch - best) with ch by lia.
      replace (width image - 0) with (width image) by lia.
      repeat split; try lia. eexists; reflexivity.
Qed.

(** Claim C7.  For a source and a target of positive dimensions (below 2^31,
    as Pillow holds them) the call returns, and the crop window behind the
    result, on the fast path or at the winning candidate, lies inside the
    source: 0 <= x, 0 <= y, x + crop_w <= src_w, y + crop_h <= src_h. *)
Theorem crop_window_within_source (image : Image) (target_w target_h : Z) :
  0 < width image < 2 ^ 31 -> 0 < height image < 2 ^ 31 ->
  0 < target_w < 2 ^ 31 -> 0 < target_h < 2 ^ 31 ->
  exists p x y w h,
    smart_crop_resize image target_w target_h = Ok p /\
    window_of p = Some (x, y, w, h) /\
    crop_size (width image) (height image) target_w target_h = Ok (w, h) /\
    0 <= x /\ 0 <= y /\ x + w <= width image /\ y + h <= height image.
Proof.
  intros Hw Hh Htw Hth.
  destruct (resize_positive_ratio image target_w target_h Hw Hh ltac:(lia))
    as (p & x & y & w & h & H1 & _ & H2).
  - apply fl_pos_pos. apply Qdiv_pos; lia.
  - exists p, x, y, w, h. split; assumption.
Qed.

(** With a target ratio that is zero or negative the crop width is not
    positive, and the call still reaches Pillow's [crop] and [resize]. *)
Lemma resize_nonpositive_ratio (image : Image) (target_w target_h : Z) :
  0 < width image < 2 ^ 31 -> 0 < height image < 2 ^ 31 ->
  target_h <> 0 -> (fl (inject_Z target_w / inject_Z target_h) <= 0)%Q ->
  exists x cw,
    cw <= 0 /\
    smart_crop_resize image target_w target_h =
    Ok (Resize (Crop (ConvertRGB image) (x, 0, x + cw, height image))
          (target_w, target_h) LANCZOS).
Proof.
  intros Hw Hh Hth R0.
  unfold smart_crop_resize.
  rewrite (int_truediv_ok target_w target_h) by lia.
  rewrite (int_truediv_ok (width image) (height image)) by lia.
  cbn [bind]. unfold crop_size_of.
  set (r := fl (inject_Z target_w / inject_Z target_h)) in *.
  set (s := fl (inject_Z (width image) / inject_Z (height image))).
  assert (Ps : (0 < s)%Q) by (apply fl_pos_pos; apply Qdiv_pos; lia).
  assert (G : float_gt s r = true) by (apply float_gt_true; Lqa.lra).
  rewrite G. cbn [bind].
  assert (B1 : 2 ^ 31 < 2 ^ 53) by reflexivity.
  pose proof (crop_wider_nonpos (height image) r ltac:(lia) R0) as Hc.
  set (cw := int_of_float (float_mul (float_of_int (height image)) r)) in *.
  assert (F : (cw =? width image) = false) by (apply Z.eqb_neq; lia).
  rewrite F. cbn [andb].
  destruct (candidate_offsets_ok (width image - cw) ltac:(lia)) as [l Hl].
  rewrite Hl. cbn [bind].
  eexists _, cw. split; [exact Hc | reflexivity].
Qed.


(** *** build_zip *)

Lemma build_zip_loop (save_png : PilImage -> list Byte.byte)
  (images : list (string * PilImage)) (c : compression) (es : list ZipEntry) :
  fold_left
    (fun zf (item : string * PilImage) =>
       let (label, img) := item in
       writestr zf (lower label ++ ".png")%string (save_png img))
    images (mkZip c es)
  = mkZip c (es ++ map (fun item : string * PilImage =>
                          mkEntry (lower (fst item) ++ ".png")%string
                                  (save_png (snd item))) images).
Proof.
  revert es. induction images as [|[label img] images IH]; intro es.
  - simpl. rewrite app_nil_r. reflexivity.
  - cbn [fold_left]. unfold writestr at 2. cbn [compress_type entries].
    rewrite IH. rewrite <- app_assoc. reflexivity.
Qed.


(** *** The histogram *)

(** Every value of 0..255 falls into exactly one of the 32 bins. *)
Lemma one_bin (A : Type) (x : A) (v : Z) :
  0 <= v <= 255 ->
  flat_map (fun i => if in_bin (Z.of_nat i) v then [x] else []) (seq 0 32) = [x].
Proof.
  intro H.
  assert (E : exists k, (k < 256)%nat /\ v = Z.of_nat k).
  { exists (Z.to_nat v). split; lia. }
  destruct E as (k & Hk & ->).
  do 256 (destruct k as [|k]; [reflexivity|]).
  lia.
Qed.

Lemma total_app (l1 l2 : list Z) : total (l1 ++ l2) = total l1 + total l2.
Proof. induction l1 as [|a l1 IH]; simpl; [reflexivity | rewrite IH; ring]. Qed.

Lemma total_flat_map (c : nat -> bool) (idx : list nat) :
  total (map (fun i => if c i then 1 else 0) idx) =
  Z.of_nat (length (flat_map (fun i => if c i then [tt] else []) idx)).
Proof.
  induction idx as [|i idx IH]; [reflexivity|].
  cbn [map flat_map]. rewrite length_app. unfold total in *. cbn [fold_right].
  rewrite IH. destruct (c i); cbn [length]; lia.
Qed.

Lemma total_map_add (f g : nat -> Z) (idx : list nat) :
  total (map (fun i => f i + g i) idx) = total (map f idx) + total (map g idx).
Proof.
  induction idx as [|i idx IH]; [reflexivity|]. simpl. rewrite IH. ring.
Qed.

Lemma count_cons (v : Z) (a : list Z) (i : nat) :
  count (v :: a) i = (if in_bin (Z.of_nat i) v then 1 else 0) + count a i.
Proof.
  unfold count. cbn [filter]. destruct (in_bin (Z.of_nat i) v); cbn [length]; lia.
Qed.

Lemma count_nonneg (a : list Z) (i : nat) : 0 <= count a i.
Proof. unfold count. lia. Qed.

Lemma count_le_length (a : list Z) (i : nat) : count a i <= Z.of_nat (length a).
Proof. unfold count. apply inj_le. apply filter_length_le. Qed.

(** The counts add up to the number of values. *)
Lemma histogram_total (a : list Z) :
  Forall (fun v => 0 <= v <= 255) a ->
  total (histogram a) = Z.of_nat (length a).
Proof.
  unfold histogram. induction 1 as [|v a Hv Ha IH].
  - reflexivity.
  - rewrite (map_ext _ _ (count_cons v a)).
    rewrite total_map_add, IH.
    rewrite (total_flat_map (fun i => in_bin (Z.of_nat i) v)).
    rewrite (one_bin unit tt v Hv). cbn [length]. lia.
Qed.

(** *** Sums *)

Lemma Rsum_app (l1 l2 : list R) : Rsum (l1 ++ l2) = (Rsum l1 + Rsum l2)%R.
Proof. induction l1 as [|a l1 IH]; simpl; [ring | rewrite IH; ring]. Qed.

Lemma Rsum_flat_map (c : nat -> bool) (g : nat -> Q) (F : Q -> R) (idx : list nat) :
  Rsum (map F (flat_map (fun i => if c i then [] else [g i]) idx)) =
  Rsum (map (fun i => if c i then 0%R else F (g i)) idx).
Proof.
  induction idx as [|i idx IH]; [reflexivity|].
  simpl. rewrite map_app, Rsum_app, IH. destruct (c i); simpl; ring.
Qed.

Lemma Qsum_scaled (f : nat -> Z) (k : Q) (idx : list nat) :
  (Qsum (map (fun i => inject_Z (f i) * k) idx) == inject_Z (total (map f idx)) * k)%Q.
Proof.
  induction idx as [|i idx IH]; simpl.
  - ring.
  - rewrite IH. rewrite inject_Z_plus. ring.
Qed.

Lemma Qsum_ext (f g : nat -> Q) (idx : list nat) :
  (forall i, f i == g i)%Q -> (Qsum (map f idx) == Qsum (map g idx))%Q.
Proof.
  intro H. induction idx as [|i idx IH]; simpl; [reflexivity|].
  rewrite IH, H. reflexivity.
Qed.

Lemma length_pos (a : list Z) : a <> [] -> (0 < inject_Z (Z.of_nat (length a)))%Q.
Proof.
  intro H. apply inject_Z_pos. destruct a; [contradiction | simpl; lia].
Qed.

(** The densities integrate to one over the value domain. *)
Lemma density_integrates (a : list Z) :
  a <> [] -> Forall (fun v => 0 <= v <= 255) a ->
  (Qsum (map (fun i => bin_density a i * bin_width) (seq 0 32)) == 1)%Q.
Proof.
  intros Hne Hr. pose proof (length_pos a Hne) as Pn.
  rewrite (Qsum_ext _ (fun i => inject_Z (count a i) * / inject_Z (Z.of_nat (length a)))%Q).
  - rewrite Qsum_scaled. fold (histogram a). rewrite histogram_total by exact Hr.
    field. Lqa.lra.
  - intro i. unfold bin_density, bin_width. field. Lqa.lra.
Qed.

(** The code's filtered sum is the specification's sum over positive bins. *)
Lemma entropy_positive_bins (a : list Z) :
  a <> [] -> Forall (fun v => 0 <= v <= 255) a ->
  entropy (positive_bins (histogram_density a)) = shannon_entropy a.
Proof.
  intros Hne Hr. unfold entropy, shannon_entropy. f_equal.
  unfold histogram_density. rewrite (histogram_total a Hr).
  assert (Hn : (Z.of_nat (length a) =? 0) = false).
  { apply Z.eqb_neq. destruct a; [contradiction | simpl; lia]. }
  rewrite Hn. unfold histogram, positive_bins.
  rewrite map_map. rewrite flat_map_concat_map, map_map, <- flat_map_concat_map.
  fold (bin_density a).
  change (fun x : nat => if Qle_bool (inject_Z (count a x) / bin_width / inject_Z (Z.of_nat (length a))) 0
                          then [] else [(inject_Z (count a x) / bin_width / inject_Z (Z.of_nat (length a)))%Q])
    with (fun x : nat => if Qle_bool (bin_density a x) 0 then [] else [bin_density a x]).
  rewrite (Rsum_flat_map (fun i => Qle_bool (bin_density a i) 0) (bin_density a)).
  reflexivity.
Qed.

(** *** The standard deviation *)

Lemma Qsum_squares_nonneg (f : Z -> Q) (a : list Z) :
  (0 <= Qsum (map (fun v => f v * f v) a))%Q.
Proof.
  induction a as [|v a IH]; simpl; [Lqa.lra|].
  assert (0 <= f v * f v)%Q by Lqa.nra. Lqa.lra.
Qed.

Lemma variance_nonneg (a : list Z) : a <> [] -> (0 <= variance a)%Q.
Proof.
  intro Hne. unfold variance. apply Qle_shift_div_l.
  - apply length_pos. exact Hne.
  - rewrite Qmult_0_l.
    apply (Qsum_squares_nonneg (fun v => inject_Z v - mean a)%Q).
Qed.

Lemma Q2R_0 : Q2R 0 = 0%R.
Proof. unfold Q2R. simpl. Lra.lra. Qed.

Lemma std_spec (a : list Z) :
  a <> [] ->
  exists sigma, std a = Some sigma /\ (0 <= sigma)%R /\
                (sigma * sigma)%R = Q2R (variance a).
Proof.
  intro Hne. destruct a as [|v a]; [contradiction|].
  exists (sqrt (Q2R (variance (v :: a)))). split; [reflexivity|]. split.
  - apply sqrt_pos.
  - apply sqrt_sqrt. rewrite <- Q2R_0. apply Qle_Rle. apply variance_nonneg. exact Hne.
Qed.


(** *** Sign of the entropy terms *)

Lemma ln2_pos : (0 < ln 2)%R.
Proof. rewrite <- ln_1. apply ln_increasing; Lra.lra. Qed.

Lemma log2_neg (x : R) : (0 < x < 1)%R -> (log2 x < 0)%R.
Proof.
  intros [H0 H1]. unfold log2.
  assert (ln x < 0)%R by (rewrite <- ln_1; apply ln_increasing; Lra.lra).
  pose proof ln2_pos.
  apply Rmult_lt_reg_r with (ln 2); [assumption|].
  unfold Rdiv. rewrite Rmult_assoc, Rinv_l by Lra.lra. Lra.lra.
Qed.

Lemma bin_density_le (a : list Z) (i : nat) :
  a <> [] -> (bin_density a i <= 32 # 255)%Q.
Proof.
  intro Hne. pose proof (length_pos a Hne) as Pn.
  pose proof (count_le_length a i) as Hc. rewrite Zle_Qle in Hc.
  unfold bin_density, bin_width.
  apply Qle_shift_div_r; [exact Pn|].
  apply Qle_shift_div_r; [reflexivity|]. Lqa.lra.
Qed.

Lemma bin_density_pos (a : list Z) (i : nat) :
  a <> [] -> 0 < count a i -> (0 < bin_density a i)%Q.
Proof.
  intros Hne Hc. pose proof (length_pos a Hne) as Pn.
  pose proof (inject_Z_pos _ Hc) as Pc.
  unfold bin_density, bin_width.
  apply Qlt_shift_div_l; [exact Pn|].
  apply Qlt_shift_div_l; [reflexivity|]. Lqa.lra.
Qed.

Lemma Q2R_32_255 : Q2R (32 # 255) = (32 / 255)%R.
Proof. unfold Q2R. simpl. reflexivity. Qed.

Lemma shannon_term_nonpos (p : Q) : (p <= 32 # 255)%Q -> (shannon_term p <= 0)%R.
Proof.
  intro H. unfold shannon_term. destruct (Qle_bool p 0) eqn:E; [Lra.lra|].
  assert (P : (0 < p)%Q).
  { apply Qnot_le_lt. intro C. apply Qle_bool_iff in C. congruence. }
  apply Qlt_Rlt in P. rewrite Q2R_0 in P.
  apply Qle_Rle in H. rewrite Q2R_32_255 in H.
  assert (log2 (Q2R p) < 0)%R by (apply log2_neg; Lra.lra).
  Lra.nra.
Qed.

Lemma shannon_term_neg (p : Q) :
  (0 < p)%Q -> (p <= 32 # 255)%Q -> (shannon_term p < 0)%R.
Proof.
  intros P H. unfold shannon_term. destruct (Qle_bool p 0) eqn:E.
  - apply Qle_bool_iff in E. Lqa.lra.
  - apply Qlt_Rlt in P. rewrite Q2R_0 in P.
    apply Qle_Rle in H. rewrite Q2R_32_255 in H.
    assert (log2 (Q2R p) < 0)%R by (apply log2_neg; Lra.lra).
    Lra.nra.
Qed.

Lemma Rsum_nonpos (f : nat -> R) (idx : list nat) :
  (forall i, In i idx -> (f i <= 0)%R) -> (Rsum (map f idx) <= 0)%R.
Proof.
  induction idx as [|i idx IH]; intro H; simpl; [Lra.lra|].
  pose proof (H i (or_introl eq_refl)).
  assert (Rsum (map f idx) <= 0)%R by (apply IH; intros j Hj; apply H; right; exact Hj).
  Lra.lra.
Qed.

Lemma Rsum_neg (f : nat -> R) (idx : list nat) (j : nat) :
  (forall i, In i idx -> (f i <= 0)%R) -> In j idx -> (f j < 0)%R ->
  (Rsum (map f idx) < 0)%R.
Proof.
  induction idx as [|i idx IH]; intros H Hj Hneg; [destruct Hj|].
  simpl. pose proof (H i (or_introl eq_refl)).
  assert (Hrest : forall k, In k idx -> (f k <= 0)%R) by (intros k Hk; apply H; right; exact Hk).
  destruct Hj as [->|Hj].
  - pose proof (Rsum_nonpos f idx Hrest). Lra.lra.
  - pose proof (IH Hrest Hj Hneg). Lra.lra.
Qed.

(** Some bin holds the first value. *)
Lemma first_value_counted (v : Z) (a : list Z) :
  0 <= v <= 255 -> exists j, In j (seq 0 32) /\ 0 < count (v :: a) j.
Proof.
  intro Hv.
  destruct (flat_map (fun i => if in_bin (Z.of_nat i) v then [i] else []) (seq 0 32))
    as [|j l] eqn:E.
  - assert (L : length (flat_map (fun i => if in_bin (Z.of_nat i) v then [tt] else [])
                          (seq 0 32)) = 1%nat) by (rewrite one_bin by exact Hv; reflexivity).
    exfalso. revert E L. generalize (seq 0 32). intro idx.
    induction idx as [|i idx IH]; simpl; [discriminate|].
    destruct (in_bin (Z.of_nat i) v); simpl; [discriminate|]. exact IH.
  - assert (Hin : In j (flat_map (fun i => if in_bin (Z.of_nat i) v then [i] else [])
                          (seq 0 32))) by (rewrite E; left; reflexivity).
    apply in_flat_map in Hin. destruct Hin as (i & Hi & Hji).
    destruct (in_bin (Z.of_nat i) v) eqn:B; [|destruct Hji].
    destruct Hji as [<-|[]]. exists i. split; [exact Hi|].
    rewrite count_cons, B. pose proof (count_nonneg a i). lia.
Qed.

Lemma shannon_entropy_pos (a : list Z) :
  a <> [] -> Forall (fun v => 0 <= v <= 255) a -> (0 < shannon_entropy a)%R.
Proof.
  intros Hne Hr. unfold shannon_entropy.
  destruct a as [|v a]; [contradiction|].
  inversion Hr as [|? ? Hv _]; subst.
  destruct (first_value_counted v a Hv) as (j & Hj & Hc).
  assert (Rsum (map (fun i => shannon_term (bin_density (v :: a) i)) (seq 0 32)) < 0)%R.
  { apply (Rsum_neg _ _ j).
    - intros i _. apply shannon_term_nonpos. apply bin_density_le. exact Hne.
    - exact Hj.
    - apply shannon_term_neg.
      + apply bin_density_pos; assumption.
      + apply bin_density_le. exact Hne. }
  Lra.lra.
Qed.

(** *** Uniform regions *)

Lemma count_repeat (v : Z) (n : nat) (i : nat) :
  count (repeat v n) i = if in_bin (Z.of_nat i) v then Z.of_nat n else 0.
Proof.
  unfold count. induction n as [|n IH]; simpl repeat.
  - destruct (in_bin (Z.of_nat i) v); reflexivity.
  - cbn [filter]. destruct (in_bin (Z.of_nat i) v); cbn [length] in *; lia.
Qed.

Lemma repeat_ne (v : Z) (n : nat) : (1 <= n)%nat -> repeat v n <> [].
Proof. intro H. destruct n; [lia | discriminate]. Qed.

Lemma Rsum_one_bin (v : Z) (T : R) :
  0 <= v <= 255 ->
  Rsum (map (fun i => if in_bin (Z.of_nat i) v then T else 0%R) (seq 0 32)) = T.
Proof.
  intro Hv.
  assert (G : forall idx,
    Rsum (map (fun i => if in_bin (Z.of_nat i) v then T else 0%R) idx) =
    Rsum (flat_map (fun i => if in_bin (Z.of_nat i) v then [T] else []) idx)).
  { induction idx as [|i idx IH]; [reflexivity|].
    simpl. rewrite Rsum_app, IH. destruct (in_bin (Z.of_nat i) v); simpl; Lra.lra. }
  rewrite G, one_bin by exact Hv. simpl. Lra.lra.
Qed.

Lemma uniform_entropy (v : Z) (n : nat) :
  0 <= v <= 255 -> (1 <= n)%nat ->
  shannon_entropy (repeat v n) = (32 / 255 * log2 (255 / 32))%R.
Proof.
  intros Hv Hn. unfold shannon_entropy.
  assert (Pn : (0 < inject_Z (Z.of_nat n))%Q) by (apply inject_Z_pos; lia).
  set (T := (32 / 255 * log2 (32 / 255))%R).
  rewrite (map_ext _ (fun i => if in_bin (Z.of_nat i) v then T else 0%R)).
  - rewrite Rsum_one_bin by exact Hv. unfold T, log2.
    replace (32 / 255)%R with (/ (255 / 32))%R by Lra.lra.
    rewrite ln_Rinv by Lra.lra. field. pose proof ln2_pos. Lra.lra.
  - intro i. unfold bin_density. rewrite count_repeat, repeat_length.
    destruct (in_bin (Z.of_nat i) v).
    + assert (E : (inject_Z (Z.of_nat n) / bin_width / inject_Z (Z.of_nat n) == 32 # 255)%Q).
      { unfold bin_width. field. Lqa.lra. }
      unfold shannon_term.
      destruct (Qle_bool _ 0) eqn:B.
      * apply Qle_bool_iff in B. rewrite E in B. Lqa.lra.
      * rewrite (Qeq_eqR _ _ E), Q2R_32_255. reflexivity.
    + unfold shannon_term.
      destruct (Qle_bool _ 0) eqn:B; [reflexivity|].
      exfalso. assert (C : Qle_bool (inject_Z 0 / bin_width / inject_Z (Z.of_nat n)) 0 = true).
      { apply Qle_bool_iff. unfold bin_width, Qdiv. rewrite !Qmult_0_l. Lqa.lra. }
      congruence.
Qed.

Lemma Qsum_repeat (v : Z) (n : nat) :
  (Qsum (map inject_Z (repeat v n)) == inject_Z v * inject_Z (Z.of_nat n))%Q.
Proof.
  induction n as [|n IH].
  - simpl. ring.
  - cbn [repeat map Qsum fold_right]. fold (Qsum (map inject_Z (repeat v n))).
    rewrite IH. rewrite Nat2Z.inj_succ. unfold Z.succ. rewrite inject_Z_plus. ring.
Qed.

Lemma Qsum_zero (f : Z -> Q) (a : list Z) :
  (forall v, In v a -> f v == 0)%Q -> (Qsum (map f a) == 0)%Q.
Proof.
  intro H. induction a as [|v a IH]; simpl; [reflexivity|].
  rewrite (H v (or_introl eq_refl)), IH; [ring|].
  intros w Hw. apply H. right. exact Hw.
Qed.

Lemma uniform_variance (v : Z) (n : nat) :
  (1 <= n)%nat -> (variance (repeat v n) == 0)%Q.
Proof.
  intro Hn. assert (Pn : (0 < inject_Z (Z.of_nat n))%Q) by (apply inject_Z_pos; lia).
  assert (Hm : (mean (repeat v n) == inject_Z v)%Q).
  { unfold mean. rewrite Qsum_repeat, repeat_length. field. Lqa.lra. }
  unfold variance. rewrite repeat_length.
  rewrite (Qsum_zero (fun w => (inject_Z w - mean (repeat v n)) *
                               (inject_Z w - mean (repeat v n)))%Q).
  - field. Lqa.lra.
  - intros w Hw. apply repeat_spec in Hw. subst w. rewrite Hm. ring.
Qed.

Lemma uniform_std (v : Z) (n : nat) : (1 <= n)%nat -> std (repeat v n) = Some 0%R.
Proof.
  intro Hn. pose proof (uniform_variance v n Hn) as Hv.
  destruct n as [|n]; [lia|]. unfold std. cbn [repeat].
  change (v :: repeat v n) with (repeat v (S n)).
  rewrite (Qeq_eqR _ _ Hv), Q2R_0, sqrt_0. reflexivity.
Qed.

Lemma uniform_score (v : Z) (n : nat) :
  0 <= v <= 255 -> (1 <= n)%nat ->
  _score_crop (repeat v n) = Fin (32 / 255 * log2 (255 / 32))%R.
Proof.
  intros Hv Hn. unfold _score_crop.
  rewrite (uniform_std v n Hn).
  rewrite entropy_positive_bins.
  - rewrite (uniform_entropy v n Hv Hn). f_equal. Lra.lra.
  - apply repeat_ne. exact Hn.
  - apply Forall_forall. intros w Hw. apply repeat_spec in Hw. subst w. exact Hv.
Qed.

(** *** Numeric bounds on log2 (255 / 32) *)

Lemma log2_255_32_upper : (log2 (255 / 32) < 3)%R.
Proof.
  unfold log2. pose proof ln2_pos as L.
  apply Rmult_lt_reg_r with (ln 2); [exact L|].
  unfold Rdiv. rewrite Rmult_assoc, Rinv_l by Lra.lra. rewrite Rmult_1_r.
  replace (3 * ln 2)%R with (INR 3 * ln 2)%R by (simpl; Lra.lra).
  rewrite <- ln_pow by Lra.lra.
  apply ln_increasing; [Lra.lra|]. simpl. Lra.lra.
Qed.

Lemma log2_255_32_lower : (299 / 100 < log2 (255 / 32))%R.
Proof.
  unfold log2. pose proof ln2_pos as L.
  apply Rmult_lt_reg_r with (ln 2); [exact L|].
  unfold Rdiv at 2. rewrite Rmult_assoc, Rinv_l by Lra.lra. rewrite Rmult_1_r.
  (* 299 ln 2 < 100 ln (255/32), i.e. 2^299 * 32^100 < 255^100 *)
  assert (H : (ln (2 ^ 299) < ln ((255 / 32) ^ 100))%R).
  { apply ln_increasing.
    - apply pow_lt. Lra.lra.
    - replace (255 / 32)%R with (255 * / 2 ^ 5)%R by (simpl; Lra.lra).
      rewrite Rpow_mult_distr, <- Rinv_pow_depr by (apply pow_nonzero; Lra.lra).
      rewrite <- pow_mult.
      apply Rmult_lt_reg_r with (2 ^ (5 * 100))%R; [apply pow_lt; Lra.lra|].
      rewrite Rmult_assoc, Rinv_l by (apply pow_nonzero; Lra.lra).
      rewrite Rmult_1_r, <- pow_add.
      rewrite !pow_IZR. apply IZR_lt. vm_compute. reflexivity. }
  rewrite !ln_pow in H by Lra.lra.
  replace (INR 299) with 299%R in H by (rewrite INR_IZR_INZ; reflexivity).
  replace (INR 100) with 100%R in H by (rewrite INR_IZR_INZ; reflexivity).
  Lra.lra.
Qed.

(** Claim C6, amended.  A region of a single value has sigma = 0 and, whatever
    the value and the size of the region, the entropy and the score
    (32/255) * log2 (255/32), which is not zero. *)
Theorem uniform_region_score (v : Z) (n : nat) :
  0 <= v <= 255 -> (1 <= n)%nat ->
  std (repeat v n) = Some 0%R /\
  shannon_entropy (repeat v n) = (32 / 255 * log2 (255 / 32))%R /\
  _score_crop (repeat v n) = Fin (32 / 255 * log2 (255 / 32))%R /\
  (0 < 32 / 255 * log2 (255 / 32))%R.
Proof.
  intros Hv Hn. split; [apply uniform_std; exact Hn|].
  split; [apply uniform_entropy; assumption|].
  split; [apply uniform_score; assumption|].
  pose proof log2_255_32_lower. Lra.lra.
Qed.

(** Claim C10.  The score of a non-empty region is strictly positive: every
    bin density is at most 32/255 < 1, so every occupied bin adds a positive
    entropy term; a single-colour region scores about 0.376. *)
Theorem score_strictly_positive (gray_arr : list Z) :
  gray_arr <> [] -> Forall (fun v => 0 <= v <= 255) gray_arr ->
  exists r,
    _score_crop gray_arr = Fin r /\ (0 < r)%R /\
    (forall i, (bin_density gray_arr i <= 32 # 255)%Q) /\
    (forall v n, gray_arr = repeat v n -> (375 / 1000 < r < 377 / 1000)%R).
Proof.
  intros Hne Hr.
  destruct (std_spec gray_arr Hne) as (sigma & Hs & H0 & _).
  exists (shannon_entropy gray_arr + 1 / 100 * sigma)%R.
  pose proof (shannon_entropy_pos gray_arr Hne Hr) as Hpos.
  split.
  { unfold _score_crop. rewrite Hs, entropy_positive_bins by assumption. reflexivity. }
  split; [Lra.lra|].
  split; [intro i; apply bin_density_le; exact Hne|].
  intros v n E. subst gray_arr.
  assert (Hn : (1 <= n)%nat) by (destruct n; [contradiction Hne; reflexivity | lia]).
  assert (Hv : 0 <= v <= 255).
  { destruct n; [lia|]. inversion Hr; assumption. }
  rewrite (uniform_std v n Hn) in Hs. injection Hs as <-.
  rewrite (uniform_entropy v n Hv Hn).
  pose proof log2_255_32_lower. pose proof log2_255_32_upper. Lra.lra.
Qed.

(** *** The scored regions *)

Lemma py_slice_length (A : Type) (l : list A) (a b : Z) :
  0 <= a -> a <= b -> b <= Z.of_nat (length l) ->
  Z.of_nat (length (py_slice l a b)) = b - a.
Proof.
  intros Ha Hab Hb. unfold py_slice.
  destruct (Z.ltb_spec a 0); [lia|]. destruct (Z.ltb_spec b 0); [lia|].
  rewrite !Z.min_l by lia.
  rewrite length_firstn, length_skipn. lia.
Qed.

Lemma in_py_slice (A : Type) (l : list A) (a b : Z) (x : A) :
  In x (py_slice l a b) -> In x l.
Proof.
  unfold py_slice. intro H.
  set (n := Z.to_nat _) in H. set (k := Z.to_nat _) in H.
  rewrite <- (firstn_skipn k l). apply in_or_app. right.
  rewrite <- (firstn_skipn n (skipn k l)). apply in_or_app. left. exact H.
Qed.

Lemma concat_nonempty (A : Type) (ls : list (list A)) :
  ls <> [] -> Forall (fun l => l <> []) ls -> concat ls <> [].
Proof.
  intros Hne Hall. destruct ls as [|l ls]; [contradiction|].
  inversion Hall as [|? ? Hl _]; subst. cbn [concat].
  destruct l; [contradiction | discriminate].
Qed.

Lemma nonempty_of_length (A : Type) (l : list A) : 0 < Z.of_nat (length l) -> l <> [].
Proof. intros H ->. simpl in H. lia. Qed.

Lemma columns_nonempty (image : Image) (x crop_w : Z) :
  wf_image image -> 0 < height image ->
  0 <= x -> 0 < crop_w -> x + crop_w <= width image ->
  columns (luma image) x crop_w <> [].
Proof.
  intros (_ & _ & Hlen & Hrows) Hh Hx Hc Hfit. unfold columns.
  apply concat_nonempty.
  - destruct (luma image); [simpl in Hlen; lia | discriminate].
  - apply Forall_forall. intros l Hl. apply in_map_iff in Hl.
    destruct Hl as (row & <- & Hrow).
    rewrite Forall_forall in Hrows. destruct (Hrows row Hrow) as [Hw _].
    apply nonempty_of_length. rewrite py_slice_length; lia.
Qed.

Lemma rows_nonempty (image : Image) (y crop_h : Z) :
  wf_image image -> 0 < width image ->
  0 <= y -> 0 < crop_h -> y + crop_h <= height image ->
  rows (luma image) y crop_h <> [].
Proof.
  intros (_ & _ & Hlen & Hrows) Hw Hy Hc Hfit. unfold rows.
  assert (L : Z.of_nat (length (py_slice (luma image) y (y + crop_h))) = crop_h).
  { rewrite py_slice_length; lia. }
  apply concat_nonempty.
  - apply nonempty_of_length. lia.
  - apply Forall_forall. intros row Hrow.
    assert (Hin : In row (luma image)) by (apply in_py_slice in Hrow; exact Hrow).
    rewrite Forall_forall in Hrows. destruct (Hrows row Hin) as [Hlw _].
    apply nonempty_of_length. lia.
Qed.

Lemma score_defined (a : list Z) : a <> [] -> exists r, _score_crop a = Fin r.
Proof.
  intro H. destruct a as [|v a]; [contradiction|].
  unfold _score_crop, std. eexists. reflexivity.
Qed.


(** ** Counterexamples and instances *)

(** *** Counterexamples *)

(** Claim C1 as worded fails: a 9x7 source and a 9x7 target have equal
    ratios, and the exact quotient 9 / (9/7) is 7, but in binary64 9 / 7
    rounds up and 9 / (9 / 7) = 6.999999999999999 truncates to 6. *)
Lemma crop_size_not_exact_floor :
  crop_size 9 7 9 7 = Ok (9, 6) /\ spec_crop_size 9 7 9 7 = (9, 7).
Proof. split; vm_compute; reflexivity. Qed.

(** The same rounding makes a crop width vanish: 49 * (1 / 49) < 1. *)
Lemma crop_width_can_vanish :
  crop_size 2 49 1 49 = Ok (0, 49) /\ spec_crop_size 2 49 1 49 = (1, 49).
Proof. split; vm_compute; reflexivity. Qed.

(** Claim C6 as worded fails: a single-colour region does not score 0. *)
Lemma uniform_score_not_zero : _score_crop [7; 7; 7; 7] <> Fin 0%R.
Proof.
  change [7; 7; 7; 7] with (repeat 7 4).
  rewrite uniform_score by lia. intro H. injection H as H.
  pose proof log2_255_32_lower. Lra.lra.
Qed.


(** *** Instances of the theorems *)

(** A 2000x1000 source and the square target: the crop is 1000x1000. *)
Lemma crop_size_binary64_witness :
  exists crop_w crop_h,
    crop_size 2000 1000 1080 1080 = Ok (crop_w, crop_h) /\
    spec_crop_size 2000 1000 1080 1080 = (1000, 1000) /\
    crop_h = 1000 /\
    crop_w = int_of_float (float_mul (float_of_int 1000)
                             (fl (inject_Z 1080 / inject_Z 1080))) /\
    1000 * 1080 / 1080 - 1 <= crop_w <= 1000 * 1080 / 1080 /\
    ((1000 * 1080) mod 1080 <> 0 -> crop_w = 1000 * 1080 / 1080).
Proof.
  destruct (crop_size_binary64 2000 1000 1080 1080) as (cw & ch & H1 & H2);
    try lia.
  exists cw, ch. split; [exact H1|].
  change (1000 * 1080 <? 2000 * 1080) with true in H2. exact H2.
Defined.

(** A square source and a square target take the fast path. *)
Lemma fast_path_resamples_source_witness :
  smart_crop_resize flat_image 1080 1080
  = Ok (Resize (ConvertRGB flat_image) (1080, 1080) LANCZOS).
Proof. apply (fast_path_resamples_source flat_image 1080 1080). vm_compute. reflexivity. Defined.




(** Four pixels of value 7. *)
Lemma uniform_region_score_witness :
  std (repeat 7 4) = Some 0%R /\
  shannon_entropy (repeat 7 4) = (32 / 255 * log2 (255 / 32))%R /\
  _score_crop (repeat 7 4) = Fin (32 / 255 * log2 (255 / 32))%R /\
  (0 < 32 / 255 * log2 (255 / 32))%R.
Proof. apply (uniform_region_score 7 4); lia. Defined.

(** The strip against the portrait target. *)
Lemma crop_window_within_source_witness :
  exists p x y w h,
    smart_crop_resize strip_image 1080 1350 = Ok p /\
    window_of p = Some (x, y, w, h) /\
    crop_size (width strip_image) (height strip_image) 1080 1350 = Ok (w, h) /\
    0 <= x /\ 0 <= y /\
    x + w <= width strip_image /\ y + h <= height strip_image.
Proof.
  apply (crop_window_within_source strip_image 1080 1350); simpl; lia.
Defined.


(** The sample region scores above zero. *)
Lemma score_strictly_positive_witness :
  exists r,
    _score_crop sample_region = Fin r /\ (0 < r)%R /\
    (forall i, (bin_density sample_region i <= 32 # 255)%Q) /\
    (forall v n, sample_region = repeat v n ->
                 (375 / 1000 < r < 377 / 1000)%R).
Proof.
  apply (score_strictly_positive sample_region).
  - discriminate.
  - unfold sample_region. repeat constructor; lia.
Defined.

(** * Further properties *)

(** ** Errors of smart_crop_resize *)

Lemma fl_zero_ratio (b : Z) : fl (inject_Z 0 / inject_Z b) = 0%Q.
Proof. apply fl_zero. unfold Qdiv. apply Qmult_0_l. Qed.

Lemma fl_ratio_nonzero (a b : Z) :
  a <> 0 -> b <> 0 -> ~ (fl (inject_Z a / inject_Z b) == 0)%Q.
Proof.
  intros Ha Hb E.
  assert (Qa : ~ (inject_Z a == 0)%Q).
  { intro C. apply Ha. unfold Qeq in C. simpl in C. lia. }
  assert (Qb : ~ (inject_Z b == 0)%Q).
  { intro C. apply Hb. unfold Qeq in C. simpl in C. lia. }
  assert (Qq : ~ (inject_Z a / inject_Z b == 0)%Q).
  { intro C. apply Qa.
    assert (inject_Z a == inject_Z a / inject_Z b * inject_Z b)%Q by (field; exact Qb).
    rewrite H, C. ring. }
  destruct (Qlt_le_dec 0 (inject_Z a / inject_Z b)) as [P|N].
  - pose proof (fl_pos_pos _ P). lra.
  - assert (P : (0 < - (inject_Z a / inject_Z b))%Q) by lra.
    pose proof (fl_pos_pos _ P) as F. rewrite fl_opp in F. lra.
Qed.

(** A source of zero width and a non-zero target width: the call still
    reaches Pillow's [resize]. *)
Lemma resize_zero_width (image : Image) (target_w target_h : Z) :
  width image = 0 -> 0 < height image < 2 ^ 31 ->
  target_w <> 0 -> target_h <> 0 ->
  exists q,
    smart_crop_resize image target_w target_h
      = Ok (Resize q (target_w, target_h) LANCZOS).
Proof.
  intros Hw Hh Htw Hth.
  unfold smart_crop_resize. rewrite Hw.
  rewrite (int_truediv_ok target_w target_h) by lia.
  rewrite (int_truediv_ok 0 (height image)) by lia.
  cbn [bind]. unfold crop_size_of.
  rewrite fl_zero_ratio.
  pose proof (fl_ratio_nonzero target_w target_h Htw Hth) as Rnz.
  set (r := fl (inject_Z target_w / inject_Z target_h)) in *.
  assert (B1 : 2 ^ 31 < 2 ^ 53) by reflexivity.
  destruct (float_gt 0 r) eqn:G.
  - apply float_gt_true in G.
    pose proof (crop_wider_nonpos (height image) r ltac:(lia) (Qlt_le_weak _ _ G)) as Hc.
    set (cw := int_of_float (float_mul (float_of_int (height image)) r)) in *.
    cbn [bind].
    destruct ((cw =? 0) && (height image =? height image)) eqn:F.
    + eexists. reflexivity.
    + destruct (candidate_offsets_ok (0 - cw) ltac:(lia)) as [l Hl].
      rewrite Hl. cbn [bind]. eexists. reflexivity.
  - apply float_gt_false in G.
    unfold float_div.
    destruct (Qeq_bool r 0) eqn:E; [apply Qeq_bool_eq in E; contradiction|].
    cbn [bind].
    assert (Hq : fl (float_of_int 0 / r) = 0%Q).
    { apply fl_zero. rewrite float_of_int_0. unfold Qdiv. apply Qmult_0_l. }
    rewrite Hq. change (int_of_float 0) with 0.
    assert (F : (0 =? height image) = false) by (apply Z.eqb_neq; lia).
    rewrite F, andb_false_r.
    destruct (candidate_offsets_ok (height image - 0) ltac:(lia)) as [l Hl].
    rewrite Hl. cbn [bind]. eexists. reflexivity.
Qed.


(** ** The fast path *)

Lemma same_ratio (sw sh tw th : Z) :
  0 < sh -> 0 < th -> sw * th = sh * tw ->
  (inject_Z sw / inject_Z sh == inject_Z tw / inject_Z th)%Q.
Proof.
  intros Hh Hth Heq.
  pose proof (inject_Z_pos _ Hh) as Ph.
  pose proof (inject_Z_pos _ Hth) as Pth.
  assert (Q1 : (inject_Z sw * inject_Z th == inject_Z sh * inject_Z tw)%Q).
  { rewrite <- !inject_Z_mult. rewrite Heq. reflexivity. }
  apply Qmult_inj_r with (inject_Z sh * inject_Z th)%Q.
  - intro C. assert (0 < inject_Z sh * inject_Z th)%Q
      by (apply Qmult_lt_0_compat; assumption). lra.
  - transitivity (inject_Z sw * inject_Z th)%Q; [field; lra|].
    rewrite Q1. field. lra.
Qed.

(** A source of the target's aspect ratio takes the fast path as soon as
    the rounded quotient [src_w / target_ratio] is the source height. *)
Lemma same_ratio_fast_path (image : Image) (target_w target_h : Z) :
  0 < width image < 2 ^ 31 -> 0 < height image < 2 ^ 31 ->
  0 < target_w -> 0 < target_h ->
  width image * target_h = height image * target_w ->
  (fl (inject_Z (width image) / fl (inject_Z target_w / inject_Z target_h))
   == inject_Z (height image))%Q ->
  smart_crop_resize image target_w target_h
    = Ok (Resize (ConvertRGB image) (target_w, target_h) LANCZOS).
Proof.
  intros Hw Hh Htw Hth Heq Hquot.
  pose proof (inject_Z_pos _ (proj1 Hh)) as Ph.
  pose proof (same_ratio _ _ _ _ (proj1 Hh) Hth Heq) as Er.
  unfold smart_crop_resize.
  rewrite (int_truediv_ok target_w target_h) by lia.
  rewrite (int_truediv_ok (width image) (height image)) by lia.
  cbn [bind]. unfold crop_size_of.
  rewrite (fl_compat _ _ Er).
  set (r := fl (inject_Z target_w / inject_Z target_h)) in *.
  assert (Pr : (0 < r)%Q) by (apply fl_pos_pos; apply Qdiv_pos; lia).
  assert (G : float_gt r r = false) by (apply float_gt_false; lra).
  rewrite G. unfold float_div.
  destruct (Qeq_bool r 0) eqn:E; [apply Qeq_bool_eq in E; lra|].
  cbn [bind].
  assert (B1 : 2 ^ 31 < 2 ^ 53) by reflexivity.
  assert (Hq : (fl (float_of_int (width image) / r) == inject_Z (height image))%Q).
  { rewrite (fl_compat _ (inject_Z (width image) / r)); [exact Hquot|].
    rewrite (float_of_int_exact (width image)) by lia. reflexivity. }
  rewrite (int_of_float_compat _ (inject_Z (height image))).
  - rewrite int_of_float_int, !Z.eqb_refl. reflexivity.
  - rewrite Hq. lra.
  - exact Hq.
Qed.

Lemma exact_ratio_quotient (sw sh tw th : Z) :
  0 < sh < 2 ^ 31 -> 0 < tw -> 0 < th ->
  representable (inject_Z tw / inject_Z th) ->
  sw * th = sh * tw ->
  (fl (inject_Z sw / fl (inject_Z tw / inject_Z th)) == inject_Z sh)%Q.
Proof.
  intros Hh Htw Hth Hrep Heq.
  pose proof (inject_Z_pos _ Htw) as Ptw.
  pose proof (inject_Z_pos _ Hth) as Pth.
  assert (B1 : 2 ^ 31 < 2 ^ 53) by reflexivity.
  rewrite (fl_compat _ (inject_Z sh)).
  - apply fl_int. lia.
  - rewrite (fl_fix _ Hrep).
    assert (Q1 : (inject_Z sw * inject_Z th == inject_Z sh * inject_Z tw)%Q).
    { rewrite <- !inject_Z_mult. rewrite Heq. reflexivity. }
    apply Qmult_inj_r with (inject_Z tw)%Q; [lra|].
    transitivity (inject_Z sw * inject_Z th)%Q; [field; lra|].
    rewrite Q1. reflexivity.
Qed.

(** A source of exactly the target's aspect ratio takes the fast path when
    that ratio is a binary64 number (1080 / 1080, 1080 / 1920, ...). *)
Theorem exact_ratio_takes_fast_path (image : Image) (target_w target_h : Z) :
  0 < width image < 2 ^ 31 -> 0 < height image < 2 ^ 31 ->
  0 < target_w < 2 ^ 31 -> 0 < target_h < 2 ^ 31 ->
  representable (inject_Z target_w / inject_Z target_h) ->
  width image * target_h = height image * target_w ->
  smart_crop_resize image target_w target_h
    = Ok (Resize (ConvertRGB image) (target_w, target_h) LANCZOS).
Proof.
  intros Hw Hh Htw Hth Hrep Heq.
  apply same_ratio_fast_path; try assumption; try lia.
  apply exact_ratio_quotient; try assumption; lia.
Qed.

(** ** The search and scores that are not numbers *)

(** A candidate whose score is NaN never replaces the running best. *)
Lemma search_skips_nan (score_at : Z -> score) (offsets : list Z) (b : Z) (bs : score) :
  search score_at offsets b bs =
  search score_at
    (filter (fun x => match score_at x with Fin _ => true | _ => false end) offsets)
    b bs.
Proof.
  revert b bs. induction offsets as [|x rest IH]; intros b bs; [reflexivity|].
  cbn [search filter]. destruct (score_at x) as [| |r] eqn:E.
  - cbn [score_gt]. apply IH.
  - cbn [score_gt]. apply IH.
  - cbn [search]. rewrite E. destruct (score_gt (Fin r) bs); apply IH.
Qed.

(** The loop ranks only the candidates with a numeric score: if there is
    one, the winner is a candidate with the highest numeric score; if every
    candidate scores NaN, the initial offset 0 is kept. *)
Theorem search_ranks_numeric_scores (score_at : Z -> score) (offsets : list Z) :
  ((forall x, In x offsets -> forall r, score_at x <> Fin r) ->
   search score_at offsets 0 NegInf = 0) /\
  ((exists x r, In x offsets /\ score_at x = Fin r) ->
   In (search score_at offsets 0 NegInf) offsets /\
   exists rbest,
     score_at (search score_at offsets 0 NegInf) = Fin rbest /\
     forall x r, In x offsets -> score_at x = Fin r -> (r <= rbest)%R).
Proof.
  rewrite search_skips_nan.
  set (numeric := fun x => match score_at x with Fin _ => true | _ => false end).
  assert (Hnum : forall x, In x (filter numeric offsets) ->
                           exists r, score_at x = Fin r).
  { intros x Hx. apply filter_In in Hx. destruct Hx as [_ Hx]. unfold numeric in Hx.
    destruct (score_at x) as [| |r]; try discriminate. exists r. reflexivity. }
  split.
  - intro Hnan.
    assert (E : filter numeric offsets = []).
    { destruct (filter numeric offsets) as [|x l] eqn:F; [reflexivity|].
      destruct (Hnum x (or_introl eq_refl)) as [r Hr].
      assert (Hx : In x (filter numeric offsets)) by (rewrite F; left; reflexivity).
      apply filter_In in Hx. destruct Hx as [Hx _].
      exfalso. exact (Hnan x Hx r Hr). }
    rewrite E. reflexivity.
  - intros (x0 & r0 & Hx0 & Hr0).
    assert (Hin0 : In x0 (filter numeric offsets)).
    { apply filter_In. split; [exact Hx0|]. unfold numeric. rewrite Hr0. reflexivity. }
    assert (Hsub : forall x, In x (filter numeric offsets) -> In x offsets).
    { intros x Hx. apply filter_In in Hx. tauto. }
    assert (Hall : forall x r, In x offsets -> score_at x = Fin r ->
                               In x (filter numeric offsets)).
    { intros x r Hx Hr. apply filter_In. split; [exact Hx|].
      unfold numeric. rewrite Hr. reflexivity. }
    destruct (filter numeric offsets) as [|y rest]; [destruct Hin0|].
    destruct (Hnum y (or_introl eq_refl)) as [ry Hry].
    assert (Hrest : forall x, In x rest -> exists r, score_at x = Fin r).
    { intros x Hx. apply Hnum. right. exact Hx. }
    cbn [search]. rewrite Hry. cbn [score_gt].
    destruct (search_running score_at rest y ry Hrest)
      as [[E Hle]|(before & after & rbest & E & Hb & Hlt & H1 & H2)].
    + cbv zeta in E. rewrite E. split; [apply Hsub; left; reflexivity|].
      exists ry. split; [exact Hry|]. intros x r Hx Hr.
      destruct (Hall x r Hx Hr) as [<-|Hin].
      * rewrite Hry in Hr. injection Hr as <-. Lra.lra.
      * specialize (Hle x Hin). rewrite Hr in Hle.
        apply score_gt_fin_false in Hle. exact Hle.
    + cbv zeta in E, Hb. set (best := search score_at rest y (Fin ry)) in *.
      split.
      { apply Hsub. right. rewrite E. apply in_or_app. right. left. reflexivity. }
      exists rbest. split; [exact Hb|]. intros x r Hx Hr.
      destruct (Hall x r Hx Hr) as [<-|Hin].
      * rewrite Hry in Hr. injection Hr as <-. Lra.lra.
      * rewrite E in Hin. apply in_app_or in Hin. destruct Hin as [Hin|[<-|Hin]].
        -- specialize (H1 x Hin). rewrite Hr in H1. apply score_gt_fin in H1. Lra.lra.
        -- rewrite Hb in Hr. injection Hr as <-. Lra.lra.
        -- specialize (H2 x Hin). rewrite Hr in H2.
           apply score_gt_fin_false in H2. exact H2.
Qed.

(** ** Crops of zero size *)

Lemma py_slice_empty (A : Type) (l : list A) (a : Z) : py_slice l a (a + 0) = [].
Proof.
  unfold py_slice. rewrite Z.add_0_r, Z.sub_diag. reflexivity.
Qed.

Lemma columns_zero_width (gray : list (list Z)) (x : Z) : columns gray x 0 = [].
Proof.
  unfold columns. induction gray as [|row gray IH]; [reflexivity|].
  cbn [map concat]. rewrite py_slice_empty, IH. reflexivity.
Qed.

Lemma rows_zero_height (gray : list (list Z)) (y : Z) : rows gray y 0 = [].
Proof. unfold rows. rewrite py_slice_empty. reflexivity. Qed.

Lemma search_constant_nan (score_at : Z -> score) (offsets : list Z) :
  (forall x, score_at x = NaN) -> search score_at offsets 0 NegInf = 0.
Proof.
  intro H. induction offsets as [|x rest IH]; [reflexivity|].
  cbn [search]. rewrite H. cbn [score_gt]. exact IH.
Qed.

(** A crop that truncates to zero width or zero height is not refused: every
    candidate region is empty and scores NaN, the window stays at the
    origin, and the empty box goes to Pillow's [crop] and [resize]. *)
Theorem empty_crop_stays_at_origin (image : Image) (target_w target_h crop_w crop_h : Z) :
  0 < width image < 2 ^ 31 -> 0 < height image < 2 ^ 31 ->
  0 < target_w < 2 ^ 31 -> 0 < target_h < 2 ^ 31 ->
  crop_size (width image) (height image) target_w target_h = Ok (crop_w, crop_h) ->
  crop_w = 0 \/ crop_h = 0 ->
  smart_crop_resize image target_w target_h
    = Ok (Resize (Crop (ConvertRGB image) (0, 0, crop_w, crop_h))
            (target_w, target_h) LANCZOS).
Proof.
  intros Hw Hh Htw Hth Hcs Hzero.
  unfold smart_crop_resize. unfold crop_size in Hcs.
  rewrite (int_truediv_ok target_w target_h) in * by lia.
  rewrite (int_truediv_ok (width image) (height image)) in * by lia.
  cbn [bind] in *. rewrite Hcs. cbn [bind].
  unfold crop_size_of in Hcs.
  destruct (float_gt _ _) eqn:G.
  - injection Hcs as Ecw Ech. subst crop_h.
    assert (Z0 : crop_w = 0) by lia. rewrite Z0.
    assert (F : (0 =? width image) = false) by (apply Z.eqb_neq; lia).
    rewrite F. cbn [andb].
    destruct (candidate_offsets_ok (width image - 0) ltac:(lia)) as [l Hl].
    rewrite Hl. cbn [bind].
    rewrite search_constant_nan.
    + reflexivity.
    + intro x. rewrite columns_zero_width. reflexivity.
  - destruct (float_div _ _) as [q|e] eqn:D; [|discriminate].
    cbn [bind] in Hcs. injection Hcs as Ecw Ech. subst crop_w.
    assert (Z0 : crop_h = 0) by lia. rewrite Z0.
    assert (F : (0 =? height image) = false) by (apply Z.eqb_neq; lia).
    rewrite F, andb_false_r.
    destruct (candidate_offsets_ok (height image - 0) ltac:(lia)) as [l Hl].
    rewrite Hl. cbn [bind].
    rewrite search_constant_nan.
    + reflexivity.
    + intro y. rewrite rows_zero_height. reflexivity.
Qed.

(** ** The regions that are scored *)

Lemma concat_length_const (A : Type) (ls : list (list A)) (k : Z) :
  Forall (fun l => Z.of_nat (length l) = k) ls ->
  Z.of_nat (length (concat ls)) = k * Z.of_nat (length ls).
Proof.
  induction 1 as [|l ls Hl _ IH]; [simpl; lia|].
  cbn [concat length]. rewrite length_app. lia.
Qed.

(** Every candidate region holds crop_w * crop_h luminance values: all the
    candidates of one search are scored on regions of the same size. *)
Theorem scored_region_size (image : Image) (x y crop_w crop_h : Z) :
  wf_image image ->
  0 <= x -> 0 <= crop_w -> x + crop_w <= width image ->
  0 <= y -> 0 <= crop_h -> y + crop_h <= height image ->
  Z.of_nat (length (columns (luma image) x crop_w)) = crop_w * height image /\
  Z.of_nat (length (rows (luma image) y crop_h)) = width image * crop_h.
Proof.
  intros (_ & _ & Hlen & Hrows) Hx Hcw Hfx Hy Hch Hfy. split.
  - unfold columns.
    rewrite (concat_length_const _ _ crop_w).
    + rewrite length_map. lia.
    + apply Forall_forall. intros l Hl. apply in_map_iff in Hl.
      destruct Hl as (row & <- & Hrow).
      rewrite Forall_forall in Hrows. destruct (Hrows row Hrow) as [Hw _].
      rewrite py_slice_length; lia.
  - unfold rows.
    rewrite (concat_length_const _ _ (width image)).
    + rewrite py_slice_length; lia.
    + apply Forall_forall. intros row Hrow. apply in_py_slice in Hrow.
      rewrite Forall_forall in Hrows. destruct (Hrows row Hrow) as [Hw _]. exact Hw.
Qed.

(** ** The candidate offsets *)

Lemma sorted_nodup (l : list Z) : StronglySorted Z.lt l -> NoDup l.
Proof.
  induction 1 as [|a l Hs IH Ha]; constructor; [|exact IH].
  intro Hin. rewrite Forall_forall in Ha. specialize (Ha a Hin). lia.
Qed.

(** For any non-negative [max_offset] the candidate offsets exist and are
    distinct, strictly increasing, at most 25 and all inside
    [0, max_offset]: no window is scored twice and every window fits in the
    source. *)
Theorem candidates_distinct_and_in_range (max_offset : Z) :
  0 <= max_offset < 2 ^ 31 ->
  exists offsets,
    candidate_offsets max_offset = Ok offsets /\
    StronglySorted Z.lt offsets /\ NoDup offsets /\
    (length offsets <= 25)%nat /\
    Forall (fun x => 0 <= x <= max_offset) offsets.
Proof.
  intros HM.
  destruct (candidate_offsets_ok max_offset ltac:(lia)) as [offsets H].
  exists offsets. split; [exact H|].
  assert (B1 : 2 ^ 31 < 2 ^ 53) by reflexivity.
  pose proof (candidate_offsets_increasing max_offset offsets HM H) as Hs.
  split; [exact Hs|]. split; [apply sorted_nodup; exact Hs|]. split.
  - apply linspace_length in H. lia.
  - apply (candidate_offsets_range max_offset); [lia | exact H].
Qed.

(** ** The score of a flat region is the lowest *)

Lemma log2_le (x y : R) : (0 < x)%R -> (x <= y)%R -> (log2 x <= log2 y)%R.
Proof.
  intros Hx Hxy. unfold log2. pose proof ln2_pos as L.
  apply Rmult_le_compat_r; [apply Rlt_le, Rinv_0_lt_compat; exact L|].
  destruct (Req_dec x y) as [->|Hne]; [Lra.lra|].
  apply Rlt_le, ln_increasing; Lra.lra.
Qed.

Lemma log2_inv (x : R) : (0 < x)%R -> (log2 (/ x) = - log2 x)%R.
Proof. intro Hx. unfold log2. rewrite ln_Rinv by exact Hx. Lra.lra. Qed.

Lemma shannon_term_bound (p : Q) :
  (0 <= p)%Q -> (p <= 32 # 255)%Q ->
  (shannon_term p <= - (Q2R p * log2 (255 / 32)))%R.
Proof.
  intros P0 P1. unfold shannon_term. destruct (Qle_bool p 0) eqn:E.
  - apply Qle_bool_iff in E.
    assert (Z0 : (p == 0)%Q) by (apply Qle_antisym; assumption).
    rewrite (Qeq_eqR _ _ Z0), Q2R_0. Lra.lra.
  - assert (P : (0 < p)%Q).
    { apply Qnot_le_lt. intro C. apply Qle_bool_iff in C. congruence. }
    apply Qlt_Rlt in P. rewrite Q2R_0 in P.
    apply Qle_Rle in P1. rewrite Q2R_32_255 in P1.
    assert (H : (log2 (Q2R p) <= - log2 (255 / 32))%R).
    { rewrite <- log2_inv by Lra.lra.
      apply log2_le; [exact P|].
      replace (/ (255 / 32))%R with (32 / 255)%R by Lra.lra. exact P1. }
    Lra.nra.
Qed.

Lemma bin_density_nonneg (a : list Z) (i : nat) :
  a <> [] -> (0 <= bin_density a i)%Q.
Proof.
  intro Hne. pose proof (length_pos a Hne) as Pn.
  pose proof (count_nonneg a i) as Hc. rewrite Zle_Qle in Hc.
  change (inject_Z 0) with 0%Q in Hc.
  unfold bin_density, bin_width.
  apply Qle_shift_div_l; [exact Pn|].
  apply Qle_shift_div_l; [reflexivity|]. Lqa.lra.
Qed.

Lemma Rsum_le (f g : nat -> R) (idx : list nat) :
  (forall i, In i idx -> (f i <= g i)%R) ->
  (Rsum (map f idx) <= Rsum (map g idx))%R.
Proof.
  induction idx as [|i idx IH]; intro H; simpl; [Lra.lra|].
  assert (f i <= g i)%R by (apply H; left; reflexivity).
  assert (Rsum (map f idx) <= Rsum (map g idx))%R
    by (apply IH; intros j Hj; apply H; right; exact Hj).
  Lra.lra.
Qed.

Lemma Rsum_scal (c : R) (g : nat -> R) (idx : list nat) :
  Rsum (map (fun i => c * g i)%R idx) = (c * Rsum (map g idx))%R.
Proof.
  induction idx as [|i idx IH]; simpl; [Lra.lra|]. rewrite IH. Lra.lra.
Qed.

Lemma Q2R_Qsum (f : nat -> Q) (idx : list nat) :
  Q2R (Qsum (map f idx)) = Rsum (map (fun i => Q2R (f i)) idx).
Proof.
  induction idx as [|i idx IH]; simpl; [apply Q2R_0|].
  rewrite Q2R_plus, IH. reflexivity.
Qed.

Lemma densities_sum (a : list Z) :
  a <> [] -> Forall (fun v => 0 <= v <= 255) a ->
  Rsum (map (fun i => Q2R (bin_density a i)) (seq 0 32)) = (32 / 255)%R.
Proof.
  intros Hne Hr. pose proof (density_integrates a Hne Hr) as H.
  apply Qeq_eqR in H. rewrite Q2R_Qsum in H.
  remember (seq 0 32) as idx.
  assert (E : map (fun i => Q2R (bin_density a i * bin_width)) idx
              = map (fun i => (255 / 32) * Q2R (bin_density a i))%R idx).
  { apply map_ext. intro i. rewrite Q2R_mult. unfold bin_width, Q2R at 2. simpl.
    Lra.lra. }
  rewrite E, Rsum_scal in H.
  replace (Q2R 1) with 1%R in H by (unfold Q2R; simpl; Lra.lra).
  Lra.lra.
Qed.

Lemma shannon_entropy_lower (a : list Z) :
  a <> [] -> Forall (fun v => 0 <= v <= 255) a ->
  (32 / 255 * log2 (255 / 32) <= shannon_entropy a)%R.
Proof.
  intros Hne Hr. unfold shannon_entropy.
  pose proof (densities_sum a Hne Hr) as Hs.
  remember (seq 0 32) as idx.
  assert (H : (Rsum (map (fun i => shannon_term (bin_density a i)) idx)
               <= Rsum (map (fun i => (- log2 (255 / 32)) * Q2R (bin_density a i)) idx))%R).
  { apply Rsum_le. intros i _.
    pose proof (shannon_term_bound (bin_density a i)
                  (bin_density_nonneg a i Hne) (bin_density_le a i Hne)).
    Lra.lra. }
  rewrite Rsum_scal, Hs in H. Lra.lra.
Qed.

Lemma Qsum_squares_pos (f : Z -> Q) (a : list Z) (v : Z) :
  In v a -> ~ (f v == 0)%Q -> (0 < Qsum (map (fun w => f w * f w) a))%Q.
Proof.
  induction a as [|w a IH]; intros Hin Hv; [destruct Hin|].
  cbn [map Qsum fold_right]. fold (Qsum (map (fun w => f w * f w)%Q a)).
  pose proof (Qsum_squares_nonneg f a) as Hn.
  destruct Hin as [->|Hin].
  - assert (0 < f v * f v)%Q.
    { destruct (Qlt_le_dec 0 (f v)) as [P|N].
      - apply Qmult_lt_0_compat; exact P.
      - assert (N' : (f v < 0)%Q).
        { apply Qle_lt_or_eq in N. destruct N as [N|N]; [exact N|contradiction]. }
        setoid_replace (f v * f v)%Q with ((- f v) * (- f v))%Q by ring.
        apply Qmult_lt_0_compat; Lqa.lra. }
    Lqa.lra.
  - specialize (IH Hin Hv).
    assert (0 <= f w * f w)%Q by Lqa.nra. Lqa.lra.
Qed.

Lemma variance_pos (a : list Z) (v w : Z) :
  In v a -> In w a -> v <> w -> (0 < variance a)%Q.
Proof.
  intros Hv Hw Hne.
  assert (Hnil : a <> []) by (destruct a; [destruct Hv | discriminate]).
  unfold variance. apply Qlt_shift_div_l; [apply length_pos; exact Hnil|].
  rewrite Qmult_0_l.
  destruct (Qeq_dec (inject_Z v - mean a) 0) as [Ev|Nv].
  - apply (Qsum_squares_pos (fun x => inject_Z x - mean a)%Q a w Hw).
    intro Ew. apply Hne. apply (inject_Z_injective v w). Lqa.lra.
  - apply (Qsum_squares_pos (fun x => inject_Z x - mean a)%Q a v Hv). exact Nv.
Qed.

(** Every non-empty region scores at least (32/255) * log2 (255/32), the
    score of a single-colour region, and a region that holds two different
    values scores strictly more: a flat window never beats a window with any
    variation in it. *)
Theorem flat_region_scores_lowest (gray_arr : list Z) :
  gray_arr <> [] -> Forall (fun v => 0 <= v <= 255) gray_arr ->
  exists r,
    _score_crop gray_arr = Fin r /\
    (forall v n, 0 <= v <= 255 -> (1 <= n)%nat ->
       score_gt (_score_crop (repeat v n)) (Fin r) = false) /\
    ((exists v w, In v gray_arr /\ In w gray_arr /\ v <> w) ->
     forall v n, 0 <= v <= 255 -> (1 <= n)%nat ->
       score_gt (Fin r) (_score_crop (repeat v n)) = true).
Proof.
  intros Hne Hr.
  destruct (std_spec gray_arr Hne) as (sigma & Hs & H0 & H2).
  pose proof (shannon_entropy_lower gray_arr Hne Hr) as HL.
  exists (shannon_entropy gray_arr + 1 / 100 * sigma)%R.
  split.
  { unfold _score_crop. rewrite Hs, entropy_positive_bins by assumption. reflexivity. }
  split.
  - intros v n Hv Hn. rewrite (uniform_score v n Hv Hn).
    apply score_gt_fin_false. Lra.lra.
  - intros (v1 & v2 & Hv1 & Hv2 & Hd) v n Hv Hn.
    rewrite (uniform_score v n Hv Hn). apply score_gt_fin.
    pose proof (variance_pos gray_arr v1 v2 Hv1 Hv2 Hd) as Hp.
    apply Qlt_Rlt in Hp. rewrite Q2R_0 in Hp. rewrite <- H2 in Hp.
    assert (0 < sigma)%R by Lra.nra.
    Lra.lra.
Qed.

(** ** Sources of the aspect ratio of a configured post size *)

(** An exact result less than half a unit in the last place below an integer
    rounds up to that integer. *)
Lemma fl_round_up (x : Q) (n : Z) :
  (0 < x)%Q -> (x <= inject_Z n)%Q -> n < 2 ^ 53 ->
  (inject_Z n - x < pow2 (ilog2 x - 53))%Q ->
  (fl x == inject_Z n)%Q.
Proof.
  intros Hx Hxn Hn Hclose.
  assert (Hn0 : 0 < n).
  { rewrite Zlt_Qlt. change (inject_Z 0) with 0%Q. Lqa.lra. }
  apply Qle_antisym.
  - apply fl_le_representable; [apply representable_int; lia | exact Hxn].
  - rewrite (fl_pos x Hx). unfold round_pos.
    destruct (ilog2_spec x Hx) as [H1 H2].
    set (e := ilog2 x) in *.
    assert (He : e < 53).
    { apply pow2_lt_inv. rewrite <- (pow2_inject 53) by lia.
      apply Qle_lt_trans with x; [exact H1|].
      apply Qle_lt_trans with (inject_Z n); [exact Hxn|].
      rewrite <- Zlt_Qlt. exact Hn. }
    set (s := e - 52).
    pose proof (pow2_pos s) as Ps.
    pose proof (pow2_pos (- s)) as Pms.
    pose proof (pow2_opp_mul s) as Pinv.
    set (M := n * 2 ^ (- s)).
    assert (HM : (inject_Z M == inject_Z n * pow2 (- s))%Q).
    { unfold M. rewrite inject_Z_mult, pow2_inject by lia. reflexivity. }
    assert (Hy : (x / pow2 s == x * pow2 (- s))%Q).
    { assert (I : (/ pow2 s == pow2 (- s))%Q).
      { rewrite <- (Qmult_1_l (/ pow2 s)), <- Pinv. field. Lqa.lra. }
      unfold Qdiv. rewrite I. reflexivity. }
    assert (Hhalf : (pow2 (e - 53) * pow2 (- s) == 1 # 2)%Q).
    { rewrite <- pow2_add. replace (e - 53 + - s) with (-1) by (unfold s; lia).
      reflexivity. }
    assert (Hgap : (inject_Z M - x / pow2 s < 1 # 2)%Q).
    { rewrite HM, Hy, <- Hhalf.
      setoid_replace (inject_Z n * pow2 (- s) - x * pow2 (- s))%Q
        with ((inject_Z n - x) * pow2 (- s))%Q by ring.
      apply Qmult_lt_r; [exact Pms | exact Hclose]. }
    destruct (rne_error (x / pow2 s)) as [_ Hr].
    assert (HrM : M <= rne (x / pow2 s)).
    { assert (L : (inject_Z (M - 1) < inject_Z (rne (x / pow2 s)))%Q).
      { rewrite inject_Z_sub. change (inject_Z 1) with 1%Q. Lqa.lra. }
      rewrite <- Zlt_Qlt in L. lia. }
    rewrite Zle_Qle in HrM.
    assert (Hn_eq : (inject_Z n == inject_Z M * pow2 s)%Q).
    { rewrite HM, <- Qmult_assoc, (Qmult_comm (pow2 (- s))), Pinv. ring. }
    rewrite Hn_eq. apply Qmult_le_compat_r; [exact HrM | Lqa.lra].
Qed.

(** [1080 / 1350] in binary64: the number nearest to 4/5, just above it. *)
Lemma portrait_ratio :
  fl (inject_Z 1080 / inject_Z 1350) = (3602879701896397 # 4503599627370496)%Q.
Proof. vm_compute. reflexivity. Qed.

(** [4k / fl(4/5)] is correctly rounded to 5k. *)
Lemma portrait_quotient (k : Z) :
  0 < k < 2 ^ 31 ->
  (fl (inject_Z (4 * k) / fl (inject_Z 1080 / inject_Z 1350))
   == inject_Z (5 * k))%Q.
Proof.
  intro Hk. rewrite portrait_ratio.
  pose proof (inject_Z_pos k (proj1 Hk)) as Pk.
  assert (Ex : (inject_Z (4 * k) / (3602879701896397 # 4503599627370496)
                == inject_Z k * (18014398509481984 # 3602879701896397))%Q).
  { rewrite inject_Z_mult. change (inject_Z 4) with 4%Q. field. }
  assert (E5 : (inject_Z (5 * k) == 5 * inject_Z k)%Q).
  { rewrite inject_Z_mult. reflexivity. }
  set (x := (inject_Z (4 * k) / (3602879701896397 # 4503599627370496))%Q) in *.
  assert (Px : (0 < x)%Q) by (rewrite Ex; Lqa.lra).
  apply fl_round_up.
  - exact Px.
  - rewrite Ex, E5. Lqa.lra.
  - assert (2 ^ 31 * 5 < 2 ^ 53) by reflexivity. lia.
  - destruct (ilog2_spec x Px) as [_ H2].
    pose proof (pow2_pos (ilog2 x - 53)) as Pp.
    assert (Hp : (pow2 (ilog2 x + 1) == 18014398509481984 * pow2 (ilog2 x - 53))%Q).
    { replace (ilog2 x + 1) with (54 + (ilog2 x - 53)) by lia.
      rewrite pow2_add. reflexivity. }
    rewrite Hp in H2. rewrite E5.
    set (P := pow2 (ilog2 x - 53)) in *. clearbody P.
    rewrite Ex in *. clear Ex. clearbody x.
    set (K := inject_Z k) in *. clearbody K.
    Lqa.lra.
Qed.

(** For each of the three configured post sizes, a source of exactly that
    aspect ratio is resampled whole, without a crop: for Square and Story the
    ratio is a binary64 number, and for Portrait, whose ratio 4/5 is not, the
    rounded quotient still comes back to the source height. *)
Theorem configured_ratio_takes_fast_path (image : Image) (post_size : PostSize.t) :
  In post_size POST_SIZES ->
  0 < width image < 2 ^ 31 -> 0 < height image < 2 ^ 31 ->
  width image * PostSize.height post_size
    = height image * PostSize.width post_size ->
  smart_crop_resize image (PostSize.width post_size) (PostSize.height post_size)
    = Ok (Resize (ConvertRGB image)
            (PostSize.width post_size, PostSize.height post_size) LANCZOS).
Proof.
  intros Hin Hw Hh Heq.
  destruct Hin as [<-|[<-|[<-|[]]]]; cbn [PostSize.width PostSize.height] in *.
  - apply same_ratio_fast_path; try assumption; try lia.
    apply exact_ratio_quotient; try assumption; try lia.
    exists 1, 0. split; [reflexivity | vm_compute; reflexivity].
  - apply same_ratio_fast_path; try assumption; try lia.
    set (k := height image - width image).
    assert (Ew : width image = 4 * k) by (unfold k; lia).
    assert (Eh : height image = 5 * k) by (unfold k; lia).
    rewrite Ew, Eh. apply portrait_quotient. lia.
  - apply same_ratio_fast_path; try assumption; try lia.
    apply exact_ratio_quotient; try assumption; try lia.
    exists 9, (-4). split; [reflexivity | vm_compute; reflexivity].
Qed.

(** ** Labels and file names *)

Lemma append_assoc (a b c : string) : ((a ++ b) ++ c = a ++ (b ++ c))%string.
Proof. induction a as [|x a IH]; simpl; [reflexivity | rewrite IH; reflexivity]. Qed.

Lemma chars_append (a b : string) :
  list_ascii_of_string (a ++ b) = list_ascii_of_string a ++ list_ascii_of_string b.
Proof. induction a as [|x a IH]; simpl; [reflexivity | rewrite IH; reflexivity]. Qed.

(** A string splits in one way only at the last occurrence of a character. *)
Lemma split_unique (c : ascii) (a b s t : string) :
  ~ In c (list_ascii_of_string s) -> ~ In c (list_ascii_of_string t) ->
  (a ++ String c s = b ++ String c t)%string -> a = b /\ s = t.
Proof.
  intros Hs Ht. revert b. induction a as [|x a IH]; intros [|y b] E; simpl in E.
  - injection E as E. split; [reflexivity | exact E].
  - injection E as Ec Es. exfalso. apply Hs. rewrite Es, chars_append.
    apply in_or_app. right. left. reflexivity.
  - injection E as Ec Et. exfalso. apply Ht. rewrite <- Et, chars_append.
    apply in_or_app. right. left. reflexivity.
  - injection E as Exy E. destruct (IH b E) as [-> ->]. subst y. split; reflexivity.
Qed.

Lemma uint_chars (d : Decimal.uint) (c : ascii) :
  In c (list_ascii_of_string (DecimalString.NilEmpty.string_of_uint d)) ->
  c <> "x"%char /\ c <> "_"%char /\ c <> "."%char.
Proof.
  induction d as [|d IH|d IH|d IH|d IH|d IH|d IH|d IH|d IH|d IH|d IH];
    cbn [DecimalString.NilEmpty.string_of_uint list_ascii_of_string];
    intro H; try (destruct H as [<-|H]; [repeat split; discriminate | exact (IH H)]).
  destruct H.
Qed.

(** [str] writes digits and a minus sign only. *)
Lemma str_chars (n : Z) (c : ascii) :
  In c (list_ascii_of_string (str n)) ->
  c <> "x"%char /\ c <> "_"%char /\ c <> "."%char.
Proof.
  unfold str.
  assert (U : forall d, In c (list_ascii_of_string (DecimalString.NilZero.string_of_uint d)) ->
                        c <> "x"%char /\ c <> "_"%char /\ c <> "."%char).
  { intros d. destruct d; try apply uint_chars.
    simpl. intros [<-|[]]. repeat split; discriminate. }
  destruct (Z.to_int n) as [d|d]; cbn [DecimalString.NilZero.string_of_int].
  - apply U.
  - cbn [list_ascii_of_string]. intros [<-|H]; [repeat split; discriminate | exact (U d H)].
Qed.

Lemma str_injective (a b : Z) : str a = str b -> a = b.
Proof.
  unfold str. intro E. apply DecimalZ.to_int_inj.
  assert (N : forall n, Z.to_int n <> Decimal.Pos Decimal.Nil /\
                        Z.to_int n <> Decimal.Neg Decimal.Nil).
  { intros [|p|p]; simpl; split; try discriminate;
      intro C; injection C as C; exact (DecimalPos.Unsigned.to_uint_nonnil p C). }
  pose proof (DecimalString.NilZero.isi (Z.to_int a) (proj1 (N a)) (proj2 (N a))) as Ia.
  pose proof (DecimalString.NilZero.isi (Z.to_int b) (proj1 (N b)) (proj2 (N b))) as Ib.
  rewrite E in Ia. rewrite Ia in Ib. injection Ib as Ib. exact Ib.
Qed.

Lemma label_of_inj (p q : PostSize.t) : label_of p = label_of q -> p = q.
Proof.
  destruct p as [n1 w1 h1], q as [n2 w2 h2]. unfold label_of.
  cbn [PostSize.name PostSize.width PostSize.height].
  change ("_" ++ ?s)%string with (String "_" s).
  intro E.
  change ("x" ++ str h1)%string with (String "x" (str h1)) in E.
  change ("x" ++ str h2)%string with (String "x" (str h2)) in E.
  change ("_" ++ (str w1 ++ String "x" (str h1)))%string
    with (String "_" (str w1 ++ String "x" (str h1))) in E.
  change ("_" ++ (str w2 ++ String "x" (str h2)))%string
    with (String "_" (str w2 ++ String "x" (str h2))) in E.
  change (String "_" (str w1 ++ String "x" (str h1)))
    with ((String "_" (str w1)) ++ String "x" (str h1))%string in E.
  change (String "_" (str w2 ++ String "x" (str h2)))
    with ((String "_" (str w2)) ++ String "x" (str h2))%string in E.
  rewrite <- !append_assoc in E.
  apply (split_unique "x") in E.
  - destruct E as [E Eh].
    apply (split_unique "_") in E.
    + destruct E as [-> Ew].
      apply str_injective in Ew. apply str_injective in Eh. subst. reflexivity.
    + intro C. apply str_chars in C. tauto.
    + intro C. apply str_chars in C. tauto.
  - intro C. apply str_chars in C. tauto.
  - intro C. apply str_chars in C. tauto.
Qed.

Lemma labels_nodup (sizes : list PostSize.t) :
  NoDup sizes -> NoDup (map label_of sizes).
Proof.
  induction 1 as [|p l Hp _ IH]; [constructor|].
  cbn [map]. constructor; [|exact IH].
  intro C. apply in_map_iff in C. destruct C as (q & E & Hq).
  apply label_of_inj in E. subst q. exact (Hp Hq).
Qed.

(** The label of line 117 tells the post size: two post sizes with the same
    label have the same name, width and height, whatever the name is, so
    distinct post sizes get distinct keys in the results and no result of
    the loop is overwritten by the result for another size. *)
Theorem label_of_injective :
  (forall p q : PostSize.t, label_of p = label_of q -> p = q) /\
  (forall sizes : list PostSize.t, NoDup sizes <-> NoDup (map label_of sizes)).
Proof.
  split; [exact label_of_inj|].
  intro sizes. split; [apply labels_nodup|].
  apply NoDup_map_inv.
Qed.

(** ** The loop of main and the archive *)

Lemma dict_set_fresh (V : Type) (d : list (string * V)) (k : string) (v : V) :
  ~ In k (map fst d) -> dict_set d k v = d ++ [(k, v)].
Proof.
  induction d as [|[k' v'] d IH]; intro H; [reflexivity|].
  cbn [dict_set]. destruct (String.eqb_spec k' k) as [->|Hne].
  - exfalso. apply H. left. reflexivity.
  - rewrite IH; [reflexivity|]. intro C. apply H. right. exact C.
Qed.

(** An assignment to a key that is there replaces its value in place. *)
Lemma dict_set_keys (V : Type) (d : list (string * V)) (k : string) (v : V) :
  In k (map fst d) -> map fst (dict_set d k v) = map fst d.
Proof.
  induction d as [|[k' v'] d IH]; intro H; [destruct H|].
  cbn [dict_set]. destruct (String.eqb_spec k' k) as [->|Hne].
  - reflexivity.
  - cbn [map fst]. rewrite IH; [reflexivity|].
    destruct H as [H|H]; [contradiction | exact H].
Qed.

Lemma resize_returns (image : Image) (target_w target_h : Z) :
  0 < width image < 2 ^ 31 -> 0 < height image < 2 ^ 31 ->
  0 < target_w -> 0 < target_h ->
  exists q,
    smart_crop_resize image target_w target_h
      = Ok (Resize q (target_w, target_h) LANCZOS).
Proof.
  intros Hw Hh Htw Hth.
  destruct (resize_positive_ratio image target_w target_h Hw Hh ltac:(lia))
    as (p & x & y & w & h & H1 & (q & ->) & _).
  - apply fl_pos_pos. apply Qdiv_pos; lia.
  - exists q. exact H1.
Qed.

Section Loop.

Variable save_png : PilImage -> list Byte.byte.

Lemma generate_loop (image : Image) (sizes : list PostSize.t) :
  0 < width image < 2 ^ 31 -> 0 < height image < 2 ^ 31 ->
  Forall (fun p => 0 < PostSize.width p /\ 0 < PostSize.height p) sizes ->
  NoDup (map label_of sizes) ->
  forall idx results buttons,
  (idx + length sizes <= n_columns)%nat ->
  (forall p, In p sizes -> ~ In (label_of p) (map fst results)) ->
  exists images,
    Forall2 (fun p img =>
               exists q, img = Resize q (PostSize.width p, PostSize.height p) LANCZOS /\
               smart_crop_resize image (PostSize.width p) (PostSize.height p) = Ok img)
            sizes images /\
    generate save_png image sizes idx (results, buttons)
    = Returns
         (results ++ map (fun item : PostSize.t * PilImage =>
                            (label_of (fst item), snd item))
                       (combine sizes images),
          buttons ++ map (fun item : PostSize.t * PilImage =>
                            mkButton ("Download " ++ PostSize.name (fst item))
                              (Png (save_png (snd item)))
                              (lower (label_of (fst item)) ++ ".png") "image/png")
                       (combine sizes images)).
Proof.
  intros Hw Hh Hdims. induction Hdims as [|p sizes [Hpw Hph] _ IH];
    intros Hnd idx results buttons Hidx Hfresh.
  - exists []. split; [constructor|]. cbn [generate combine map].
    rewrite !app_nil_r. reflexivity.
  - cbn [map] in Hnd. inversion Hnd as [|? ? Hp Hnd']; subst.
    cbn [length] in Hidx.
    destruct (resize_returns image _ _ Hw Hh Hpw Hph) as [q Hq].
    set (img := Resize q (PostSize.width p, PostSize.height p) LANCZOS) in *.
    destruct (IH Hnd' (S idx) (results ++ [(label_of p, img)])
                 (buttons ++ [mkButton ("Download " ++ PostSize.name p)
                                (Png (save_png img))
                                (lower (label_of p) ++ ".png") "image/png"]))
      as (images & HF & HG).
    + lia.
    + intros p' Hp' C. rewrite map_app in C. apply in_app_or in C.
      destruct C as [C|[C|[]]].
      * apply (Hfresh p' (or_intror Hp')). exact C.
      * cbn [fst] in C. apply Hp. rewrite C. apply in_map. exact Hp'.
    + exists (img :: images). split.
      * constructor; [|exact HF]. exists q. split; [reflexivity | exact Hq].
      * cbn [generate]. unfold generate_size. rewrite Hq.
        assert (Hlt : (idx <? n_columns)%nat = true) by (apply Nat.ltb_lt; lia).
        rewrite Hlt.
        rewrite dict_set_fresh by (apply Hfresh; left; reflexivity).
        rewrite HG. cbn [combine map fst snd]. rewrite <- !app_assoc. reflexivity.
Qed.

(** More post sizes than columns: the pass that finds no column raises. *)
Lemma generate_past_columns (image : Image) (sizes : list PostSize.t) :
  0 < width image < 2 ^ 31 -> 0 < height image < 2 ^ 31 ->
  Forall (fun p => 0 < PostSize.width p /\ 0 < PostSize.height p) sizes ->
  forall idx state,
  (n_columns < idx + length sizes)%nat -> sizes <> [] ->
  generate save_png image sizes idx state = Raises IndexError.
Proof.
  intros Hw Hh Hdims. induction Hdims as [|p sizes [Hpw Hph] Hrest IH];
    intros idx [results buttons] Hidx Hne; [contradiction|].
  cbn [length] in Hidx.
  destruct (resize_returns image _ _ Hw Hh Hpw Hph) as [q Hq].
  cbn [generate]. unfold generate_size. rewrite Hq.
  destruct (Nat.ltb_spec idx n_columns) as [Hlt|Hge]; [|reflexivity].
  apply IH; [lia|].
  destruct sizes; [cbn [length] in Hidx; lia | discriminate].
Qed.

End Loop.

Lemma Forall2_combine_fst (A B : Type) (R : A -> B -> Prop) (l : list A) (m : list B) :
  Forall2 R l m -> map fst (combine l m) = l /\ map snd (combine l m) = m.
Proof.
  induction 1 as [|a b l m _ _ [IH1 IH2]]; [split; reflexivity|].
  cbn [combine map fst snd]. rewrite IH1, IH2. split; reflexivity.
Qed.


(** With an uploaded image of positive dimensions [main] raises nothing and
    offers four downloads: the three resized images as PNG files named
    after the lower-cased labels, and the archive resized_posts.zip, whose
    three DEFLATE entries carry the same names and the same bytes, in the
    same order. *)
Theorem main_offers_images_and_archive (save_png : PilImage -> list Byte.byte)
  (image : Image) :
  0 < width image < 2 ^ 31 -> 0 < height image < 2 ^ 31 ->
  exists square portrait story,
    smart_crop_resize image 1080 1080 = Ok square /\
    smart_crop_resize image 1080 1350 = Ok portrait /\
    smart_crop_resize image 1080 1920 = Ok story /\
    main save_png (Some image) = Returns
      [mkButton "Download Square" (Png (save_png square))
         "square_1080x1080.png" "image/png";
       mkButton "Download Portrait" (Png (save_png portrait))
         "portrait_1080x1350.png" "image/png";
       mkButton "Download Story" (Png (save_png story))
         "story_1080x1920.png" "image/png";
       mkButton "Download all as ZIP"
         (Archive (mkZip ZIP_DEFLATED
                     [mkEntry "square_1080x1080.png" (save_png square);
                      mkEntry "portrait_1080x1350.png" (save_png portrait);
                      mkEntry "story_1080x1920.png" (save_png story)]))
         "resized_posts.zip" "application/zip"].
Proof.
  intros Hw Hh.
  destruct (generate_loop save_png image POST_SIZES Hw Hh)
    with (idx := 0%nat) (results := @nil (string * PilImage))
         (buttons := @nil DownloadButton)
    as (images & HF & HG).
  - unfold POST_SIZES. repeat constructor.
  - vm_compute. repeat constructor; simpl; intuition discriminate.
  - vm_compute. lia.
  - intros p _ [].
  - unfold POST_SIZES in HF.
    inversion HF as [|p1 square l1 m1 (q1 & _ & H1) HF1]; subst.
    inversion HF1 as [|p2 portrait l2 m2 (q2 & _ & H2) HF2]; subst.
    inversion HF2 as [|p3 story l3 m3 (q3 & _ & H3) HF3]; subst.
    inversion HF3; subst.
    cbn [PostSize.width PostSize.height] in H1, H2, H3.
    exists square, portrait, story.
    split; [exact H1|]. split; [exact H2|]. split; [exact H3|].
    unfold main. rewrite HG. clear. vm_compute. reflexivity.
Qed.

(** ** Entry names of the archive *)

Lemma png_name_injective (a b : string) :
  (a ++ ".png" = b ++ ".png")%string -> a = b.
Proof.
  change ".png"%string with (String "." "png").
  intro E. apply (split_unique "." a b "png" "png") in E.
  - tauto.
  - simpl. intuition discriminate.
  - simpl. intuition discriminate.
Qed.


(** ** The score does not see where the pixels are *)

Lemma count_perm (a b : list Z) (i : nat) :
  Permutation a b -> count a i = count b i.
Proof.
  induction 1 as [|v a b _ IH|v w a|a b c _ IH1 _ IH2].
  - reflexivity.
  - rewrite !count_cons, IH. reflexivity.
  - rewrite !count_cons. lia.
  - congruence.
Qed.

Lemma Qsum_perm (l m : list Q) : Permutation l m -> (Qsum l == Qsum m)%Q.
Proof.
  induction 1 as [|v a b _ IH|v w a|a b c _ IH1 _ IH2]; cbn [Qsum fold_right].
  - reflexivity.
  - fold (Qsum a). fold (Qsum b). rewrite IH. reflexivity.
  - fold (Qsum a). ring.
  - rewrite IH1. exact IH2.
Qed.

Lemma Qsum_map_ext (f g : Z -> Q) (l : list Z) :
  (forall v, (f v == g v)%Q) -> (Qsum (map f l) == Qsum (map g l))%Q.
Proof.
  intro H. induction l as [|v l IH]; cbn [map Qsum fold_right]; [reflexivity|].
  fold (Qsum (map f l)). fold (Qsum (map g l)). rewrite IH, (H v). reflexivity.
Qed.

Lemma mean_perm (a b : list Z) : Permutation a b -> (mean a == mean b)%Q.
Proof.
  intro H. unfold mean.
  rewrite (Qsum_perm _ _ (Permutation_map inject_Z H)).
  rewrite (Permutation_length H). reflexivity.
Qed.

Lemma variance_perm (a b : list Z) : Permutation a b -> (variance a == variance b)%Q.
Proof.
  intro H. unfold variance.
  rewrite (Permutation_length H).
  rewrite (Qsum_map_ext _ (fun v => (inject_Z v - mean b) * (inject_Z v - mean b))%Q a).
  - rewrite (Qsum_perm _ _ (Permutation_map _ H)). reflexivity.
  - intro v. rewrite (mean_perm a b H). reflexivity.
Qed.


(** ** The range of the score *)

Lemma ln_le_sub1 (x : R) : (0 < x)%R -> (ln x <= x - 1)%R.
Proof.
  intro Hx. pose proof (exp_ineq1_le (ln x)) as H.
  rewrite exp_ln in H by exact Hx. Lra.lra.
Qed.

(** One term of the entropy against the term of the even density 1/255. *)
Lemma shannon_term_upper (p : Q) :
  (0 <= p)%Q ->
  (- shannon_term p <= / ln 2 * (Q2R p * ln 255 + (1 / 255 - Q2R p)))%R.
Proof.
  intro P0. pose proof ln2_pos as L2.
  assert (I2 : (0 < / ln 2)%R) by (apply Rinv_0_lt_compat; exact L2).
  apply Qle_Rle in P0. rewrite Q2R_0 in P0.
  unfold shannon_term. destruct (Qle_bool p 0) eqn:E.
  - apply Qle_bool_iff in E. apply Qle_Rle in E. rewrite Q2R_0 in E.
    assert (Z0 : Q2R p = 0%R) by Lra.lra. rewrite Z0.
    assert (0 <= / ln 2 * (1 / 255))%R by Lra.nra. Lra.lra.
  - assert (P : (0 < Q2R p)%R).
    { rewrite <- Q2R_0. apply Qlt_Rlt. apply Qnot_le_lt. intro C.
      apply Qle_bool_iff in C. congruence. }
    set (x := Q2R p) in *. clearbody x.
    assert (Hx : (0 < / (255 * x))%R) by (apply Rinv_0_lt_compat; Lra.nra).
    pose proof (ln_le_sub1 _ Hx) as H.
    rewrite ln_Rinv in H by Lra.nra.
    rewrite ln_mult in H by Lra.lra.
    assert (Hm : (x * / (255 * x) = 1 / 255)%R) by (field; Lra.lra).
    assert (K : (- (x * ln x) <= x * ln 255 + (1 / 255 - x))%R).
    { assert (x * (- (ln 255 + ln x)) <= x * (/ (255 * x) - 1))%R
        by (apply Rmult_le_compat_l; Lra.lra).
      Lra.nra. }
    unfold log2.
    replace (- (x * (ln x / ln 2)))%R with (/ ln 2 * (- (x * ln x)))%R
      by (unfold Rdiv; ring).
    apply Rmult_le_compat_l; Lra.lra.
Qed.

Lemma Rsum_affine (c d : R) (g : nat -> R) (idx : list nat) :
  Rsum (map (fun i => c * g i + d)%R idx)
  = (c * Rsum (map g idx) + INR (length idx) * d)%R.
Proof.
  induction idx as [|i idx IH]; [simpl; Lra.lra|].
  cbn [map Rsum fold_right]. fold (Rsum (map (fun i => c * g i + d)%R idx)).
  fold (Rsum (map g idx)). rewrite IH.
  change (length (i :: idx)) with (S (length idx)). rewrite S_INR. ring.
Qed.

Lemma Rsum_opp (f : nat -> R) (idx : list nat) :
  Rsum (map (fun i => - f i)%R idx) = (- Rsum (map f idx))%R.
Proof.
  induction idx as [|i idx IH]; simpl; [Lra.lra|]. rewrite IH. Lra.lra.
Qed.

Lemma shannon_entropy_upper (a : list Z) :
  a <> [] -> Forall (fun v => 0 <= v <= 255) a ->
  (shannon_entropy a <= 32 / 255 * log2 255)%R.
Proof.
  intros Hne Hr. unfold shannon_entropy.
  pose proof (densities_sum a Hne Hr) as Hs.
  pose proof ln2_pos as L2.
  assert (Hlen : length (seq 0 32) = 32%nat) by apply length_seq.
  remember (seq 0 32) as idx.
  rewrite <- Rsum_opp.
  assert (H : (Rsum (map (fun i => - shannon_term (bin_density a i)) idx)
               <= Rsum (map (fun i => (/ ln 2 * (ln 255 - 1)) * Q2R (bin_density a i)
                                       + / ln 2 * (1 / 255)) idx))%R).
  { apply Rsum_le. intros i _.
    pose proof (shannon_term_upper (bin_density a i) (bin_density_nonneg a i Hne)).
    Lra.lra. }
  rewrite Rsum_affine, Hs, Hlen in H.
  replace (INR 32) with 32%R in H by (simpl; Lra.lra).
  unfold log2. unfold Rdiv in *.
  replace (/ ln 2 * (ln 255 - 1) * (32 * / 255) + 32 * (/ ln 2 * (1 * / 255)))%R
    with (32 * / 255 * (ln 255 * / ln 2))%R in H by (field; Lra.lra).
  exact H.
Qed.

(** *** The standard deviation is at most half the range *)

Lemma Qsum_shift (mu c : Q) (a : list Z) :
  (Qsum (map (fun v => (inject_Z v - c) * (inject_Z v - c)) a)
   == Qsum (map (fun v => (inject_Z v - mu) * (inject_Z v - mu)) a)
      + inject_Z (Z.of_nat (length a)) * ((mu - c) * (mu - c))
      + 2 * (mu - c) * (Qsum (map inject_Z a)
                        - inject_Z (Z.of_nat (length a)) * mu))%Q.
Proof.
  induction a as [|v a IH].
  - simpl. ring.
  - cbn [map Qsum fold_right length].
    fold (Qsum (map (fun v => (inject_Z v - c) * (inject_Z v - c))%Q a)).
    fold (Qsum (map (fun v => (inject_Z v - mu) * (inject_Z v - mu))%Q a)).
    fold (Qsum (map inject_Z a)).
    rewrite IH. rewrite Nat2Z.inj_succ. unfold Z.succ. rewrite inject_Z_plus.
    change (inject_Z 1) with 1%Q. ring.
Qed.

Lemma Qsum_bounded (f : Z -> Q) (b : Q) (a : list Z) :
  (forall v, In v a -> (f v <= b)%Q) ->
  (Qsum (map f a) <= inject_Z (Z.of_nat (length a)) * b)%Q.
Proof.
  induction a as [|v a IH]; intro H.
  - cbn [map Qsum fold_right length]. change (inject_Z (Z.of_nat 0)) with 0%Q.
    rewrite Qmult_0_l. apply Qle_refl.
  - cbn [map Qsum fold_right length]. fold (Qsum (map f a)).
    rewrite Nat2Z.inj_succ. unfold Z.succ. rewrite inject_Z_plus.
    change (inject_Z 1) with 1%Q.
    assert (f v <= b)%Q by (apply H; left; reflexivity).
    assert (Qsum (map f a) <= inject_Z (Z.of_nat (length a)) * b)%Q
      by (apply IH; intros w Hw; apply H; right; exact Hw).
    Lqa.lra.
Qed.

Lemma variance_upper (a : list Z) :
  a <> [] -> Forall (fun v => 0 <= v <= 255) a ->
  (variance a <= (255 # 2) * (255 # 2))%Q.
Proof.
  intros Hne Hr. pose proof (length_pos a Hne) as Pn.
  unfold variance. apply Qle_shift_div_r; [exact Pn|].
  pose proof (Qsum_shift (mean a) (255 # 2) a) as Hs.
  assert (Hm : (Qsum (map inject_Z a)
                - inject_Z (Z.of_nat (length a)) * mean a == 0)%Q).
  { unfold mean. field. Lqa.lra. }
  rewrite Hm in Hs.
  assert (Hb : (Qsum (map (fun v => (inject_Z v - (255 # 2)) * (inject_Z v - (255 # 2))) a)
                <= inject_Z (Z.of_nat (length a)) * ((255 # 2) * (255 # 2)))%Q).
  { apply Qsum_bounded. intros v Hv. rewrite Forall_forall in Hr.
    destruct (Hr v Hv) as [H0 H1]. rewrite Zle_Qle in H0, H1.
    change (inject_Z 0) with 0%Q in H0. change (inject_Z 255) with 255%Q in H1.
    set (x := inject_Z v) in *. clearbody x.
    assert (E : ((255 # 2) * (255 # 2) - (x - (255 # 2)) * (x - (255 # 2))
                 == x * (255 - x))%Q) by ring.
    assert (0 <= x * (255 - x))%Q by (apply Qmult_le_0_compat; Lqa.lra).
    Lqa.lra. }
  assert (Hsq : (0 <= (mean a - (255 # 2)) * (mean a - (255 # 2)))%Q).
  { set (d := (mean a - (255 # 2))%Q). destruct (Qlt_le_dec d 0) as [N|P].
    - setoid_replace (d * d)%Q with ((- d) * (- d))%Q by ring.
      apply Qmult_le_0_compat; Lqa.lra.
    - apply Qmult_le_0_compat; exact P. }
  assert (Hnsq : (0 <= inject_Z (Z.of_nat (length a))
                       * ((mean a - (255 # 2)) * (mean a - (255 # 2))))%Q).
  { apply Qmult_le_0_compat; Lqa.lra. }
  set (S1 := Qsum (map (fun v => (inject_Z v - mean a) * (inject_Z v - mean a))%Q a)) in *.
  set (S2 := Qsum (map (fun v => (inject_Z v - (255 # 2)) * (inject_Z v - (255 # 2)))%Q a)) in *.
  set (T := (inject_Z (Z.of_nat (length a))
             * ((mean a - (255 # 2)) * (mean a - (255 # 2))))%Q) in *.
  set (N := (inject_Z (Z.of_nat (length a)))) in *.
  clearbody S1 S2 T N.
  assert (E0 : (2 * (mean a - (255 # 2)) * 0 == 0)%Q) by ring.
  rewrite E0 in Hs.
  rewrite (Qmult_comm _ N). Lqa.lra.
Qed.

Lemma log2_255_upper : (log2 255 < 8)%R.
Proof.
  unfold log2. pose proof ln2_pos as L.
  apply Rmult_lt_reg_r with (ln 2); [exact L|].
  unfold Rdiv. rewrite Rmult_assoc, Rinv_l by Lra.lra. rewrite Rmult_1_r.
  replace (8 * ln 2)%R with (INR 8 * ln 2)%R by (simpl; Lra.lra).
  rewrite <- ln_pow by Lra.lra.
  apply ln_increasing; [Lra.lra|]. simpl. Lra.lra.
Qed.

(** The two terms of the score have the same order of magnitude: on a
    non-empty region the entropy term is at most (32/255) * log2 255, just
    above 1, the density of every bin being bounded by the bin width; the
    standard deviation is at most 127.5, so the contrast term is at most
    1.275; and the score stays below 2.28. *)
Theorem score_bounded_above (gray_arr : list Z) :
  gray_arr <> [] -> Forall (fun v => 0 <= v <= 255) gray_arr ->
  exists sigma,
    _score_crop gray_arr = Fin (shannon_entropy gray_arr + (1 / 100) * sigma)%R /\
    (shannon_entropy gray_arr <= 32 / 255 * log2 255)%R /\
    (0 <= sigma <= 255 / 2)%R /\
    (shannon_entropy gray_arr + (1 / 100) * sigma < 228 / 100)%R.
Proof.
  intros Hne Hr.
  destruct (std_spec gray_arr Hne) as (sigma & Hs & H0 & H2).
  pose proof (shannon_entropy_upper gray_arr Hne Hr) as HU.
  pose proof (variance_upper gray_arr Hne Hr) as HV.
  apply Qle_Rle in HV. rewrite <- H2 in HV.
  rewrite Q2R_mult in HV.
  replace (Q2R (255 # 2)) with (255 / 2)%R in HV by (unfold Q2R; simpl; Lra.lra).
  assert (Hsig : (sigma <= 255 / 2)%R) by Lra.nra.
  exists sigma. split.
  { unfold _score_crop. rewrite Hs, entropy_positive_bins by assumption. reflexivity. }
  split; [exact HU|]. split; [Lra.lra|].
  pose proof log2_255_upper. Lra.lra.
Qed.

(** ** Instances of the further properties *)


(** The 6x2 strip and a 3x1 target: the ratio 3 is a binary64 number. *)
Lemma exact_ratio_takes_fast_path_witness :
  smart_crop_resize strip_image 3 1
  = Ok (Resize (ConvertRGB strip_image) (3, 1) LANCZOS).
Proof.
  apply (exact_ratio_takes_fast_path strip_image 3 1); try (simpl; lia).
  exists 3, 0. split; [reflexivity | vm_compute; reflexivity].
Defined.

(** A source one pixel high and the portrait target: int(1 * 0.8) = 0. *)
Lemma empty_crop_stays_at_origin_witness :
  smart_crop_resize thin_image 1080 1350
  = Ok (Resize (Crop (ConvertRGB thin_image) (0, 0, 0, 1)) (1080, 1350) LANCZOS).
Proof.
  apply (empty_crop_stays_at_origin thin_image 1080 1350 0 1); try (simpl; lia).
  vm_compute. reflexivity.
Defined.

(** Two columns from x = 1 and one row from y = 0 of the strip. *)
Lemma scored_region_size_witness :
  Z.of_nat (length (columns (luma strip_image) 1 2)) = 2 * height strip_image /\
  Z.of_nat (length (rows (luma strip_image) 0 1)) = width strip_image * 1.
Proof.
  apply (scored_region_size strip_image 1 0 2 1); try (simpl; lia).
  unfold wf_image, strip_image. simpl. repeat split; try lia.
  repeat constructor; simpl; lia.
Defined.

(** The candidates for a maximum offset of 920. *)
Lemma candidates_distinct_and_in_range_witness :
  exists offsets,
    candidate_offsets 920 = Ok offsets /\
    StronglySorted Z.lt offsets /\ NoDup offsets /\
    (length offsets <= 25)%nat /\
    Forall (fun x => 0 <= x <= 920) offsets.
Proof. apply (candidates_distinct_and_in_range 920). lia. Defined.

(** The sample region against flat regions. *)
Lemma flat_region_scores_lowest_witness :
  exists r,
    _score_crop sample_region = Fin r /\
    (forall v n, 0 <= v <= 255 -> (1 <= n)%nat ->
       score_gt (_score_crop (repeat v n)) (Fin r) = false) /\
    ((exists v w, In v sample_region /\ In w sample_region /\ v <> w) ->
     forall v n, 0 <= v <= 255 -> (1 <= n)%nat ->
       score_gt (Fin r) (_score_crop (repeat v n)) = true).
Proof.
  apply (flat_region_scores_lowest sample_region).
  - discriminate.
  - unfold sample_region. repeat constructor; lia.
Defined.

(** A 4x5 source and the Portrait size. *)
Lemma configured_ratio_takes_fast_path_witness :
  smart_crop_resize tall_image 1080 1350
  = Ok (Resize (ConvertRGB tall_image) (1080, 1350) LANCZOS).
Proof.
  apply (configured_ratio_takes_fast_path tall_image
           (PostSize.mk "Portrait" 1080 1350)).
  - right. left. reflexivity.
  - simpl. lia.
  - simpl. lia.
  - reflexivity.
Defined.


(** The strip, uploaded. *)
Lemma main_offers_images_and_archive_witness :
  exists square portrait story,
    smart_crop_resize strip_image 1080 1080 = Ok square /\
    smart_crop_resize strip_image 1080 1350 = Ok portrait /\
    smart_crop_resize strip_image 1080 1920 = Ok story /\
    main (fun _ => []) (Some strip_image) = Returns
      [mkButton "Download Square" (Png [])
         "square_1080x1080.png" "image/png";
       mkButton "Download Portrait" (Png [])
         "portrait_1080x1350.png" "image/png";
       mkButton "Download Story" (Png [])
         "story_1080x1920.png" "image/png";
       mkButton "Download all as ZIP"
         (Archive (mkZip ZIP_DEFLATED
                     [mkEntry "square_1080x1080.png" [];
                      mkEntry "portrait_1080x1350.png" [];
                      mkEntry "story_1080x1920.png" []]))
         "resized_posts.zip" "application/zip"].
Proof.
  apply (main_offers_images_and_archive (fun _ => []) strip_image); simpl; lia.
Defined.


(** The sample region scores below 2.28. *)
Lemma score_bounded_above_witness :
  exists sigma,
    _score_crop sample_region
      = Fin (shannon_entropy sample_region + (1 / 100) * sigma)%R /\
    (shannon_entropy sample_region <= 32 / 255 * log2 255)%R /\
    (0 <= sigma <= 255 / 2)%R /\
    (shannon_entropy sample_region + (1 / 100) * sigma < 228 / 100)%R.
Proof.
  apply (score_bounded_above sample_region).
  - discriminate.
  - unfold sample_region. repeat constructor; lia.
Defined.

